(** * release-me: version model, change-log model and reconciliation

    A shallow embedding of the Go packages [semver], [changes] and of the
    reconciliation code of the command-line tool, together with the
    properties of these functions.

    Conventions of the embedding:
    - a Go [string] is a sequence of bytes: [list ascii];
    - a Go [int] is a 64-bit integer: [Z], with the range check written out
      where the code can leave the range ([strconv.Atoi]);
    - a Go [map[K]struct{}] is a [gset K], a [map[K]V] a [gmap K V]; the
      order in which [range] enumerates a map is not specified by Go and is a
      parameter of the functions that depend on it;
    - a Go [error] is a value of an inductive type with one constructor per
      [fmt.Errorf] call site;
    - a run-time panic (index or slice out of range) is [None];
    - a [time.Time] enters only through the text that [Format] gives for
      it, the zero time through [None];
    - the calls to git and to GitHub are parameters: the function that
      shows a file at a commit, the function that creates an artifact. *)

From Stdlib Require Import ZArith Ascii DecimalString DecimalN.
From stdpp Require Import base tactics option list sorting gmap strings.

Set Default Proof Using "Type".
Set Warnings "-clear-no-such-hyp".

(** ** Go strings *)

Abbreviation gostring := (list ascii).

(** String literals. *)
Definition go (s : string) : gostring := String.list_ascii_of_string s.

Definition byte_val (a : ascii) : N := N_of_ascii a.

(** Go compares strings byte by byte. *)
Fixpoint strcmp (a b : gostring) : comparison :=
  match a, b with
  | [], [] => Eq
  | [], _ :: _ => Lt
  | _ :: _, [] => Gt
  | x :: a', y :: b' =>
      match N.compare (byte_val x) (byte_val y) with
      | Eq => strcmp a' b'
      | c => c
      end
  end.

Definition str_lt (a b : gostring) : bool :=
  match strcmp a b with Lt => true | _ => false end.

Definition str_empty (a : gostring) : bool :=
  match a with [] => true | _ => false end.

(** [strings.Join(elems, sep)] *)
Fixpoint Join (elems : list gostring) (sep : gostring) : gostring :=
  match elems with
  | [] => []
  | [e] => e
  | e :: rest => e ++ sep ++ Join rest sep
  end.

(** [strings.Split(s, sep)] for a separator of one byte, which is how the
    program calls it ([sep] is the newline).  The result is never empty: a
    string without separator is returned as its only element. *)
Fixpoint Split (s : gostring) (sep : ascii) : list gostring :=
  match s with
  | [] => [[]]
  | a :: s' =>
      if decide (a = sep) then [] :: Split s' sep
      else match Split s' sep with
           | [] => [[a]]
           | l :: ls => (a :: l) :: ls
           end
  end.

Definition newline : ascii := ascii_of_nat 10.

(** ** Go integers *)

Definition maxInt : Z := 2 ^ 63 - 1.
Definition minInt : Z := - 2 ^ 63.

(** The decimal digits of a natural number, most significant first. *)
Definition decimal (n : N) : gostring :=
  String.list_ascii_of_string (NilEmpty.string_of_uint (N.to_uint n)).

(** [%d] of [fmt.Sprintf]. *)
Definition itoa (z : Z) : gostring :=
  if (z <? 0)%Z then go "-" ++ decimal (Z.to_N (- z)) else decimal (Z.to_N z).

(** The value of a non-empty sequence of decimal digits. *)
Definition digits_value (s : gostring) : option N :=
  match s with
  | [] => None
  | _ => N.of_uint <$> NilEmpty.uint_of_string (String.string_of_list_ascii s)
  end.

(** [strconv.Atoi]: an optional sign, then decimal digits; a value outside
    the 64-bit range is an error. *)
Definition Atoi (s : gostring) : option Z :=
  let in_range (z : Z) :=
    if decide (minInt ≤ z ≤ maxInt)%Z then Some z else None in
  match s with
  | a :: ds =>
      if decide (a = "+"%char) then
        n ← digits_value ds; in_range (Z.of_N n)
      else if decide (a = "-"%char) then
        n ← digits_value ds; in_range (- Z.of_N n)%Z
      else
        n ← digits_value s; in_range (Z.of_N n)
  | [] => None
  end.

(** ** Regular expressions

    Go's [regexp] package gives the match that a backtracking search finds
    first (leftmost-first, with greedy repetition).  The matcher below is that
    backtracking search in continuation-passing style, for the operators
    the program's patterns use. *)

Inductive regexp :=
| Eps                              (* the empty pattern *)
| Cls (p : ascii → bool)           (* one byte of a class *)
| Cat (r1 r2 : regexp)             (* r1 r2 *)
| Alt (r1 r2 : regexp)             (* r1|r2, r1 preferred *)
| Star (r : regexp)                (* r*, greedy *)
| Grp (i : nat) (r : regexp)       (* the i-th capturing group *)
| Bot                              (* ^ *)
| Eot.                             (* $ *)

Definition Lit (a : ascii) : regexp := Cls (λ b, bool_decide (b = a)).
Definition Opt (r : regexp) : regexp := Alt r Eps.          (* r? *)
Definition Plus (r : regexp) : regexp := Cat r (Star r).    (* r+ *)

Definition in_range (lo hi a : ascii) : bool :=
  (byte_val lo <=? byte_val a)%N && (byte_val a <=? byte_val hi)%N.

(** [\d] and [\w]: in Go these are the ASCII classes. *)
Definition is_digit (a : ascii) : bool := in_range "0" "9" a.
Definition is_word (a : ascii) : bool :=
  is_digit a || in_range "A" "Z" a || in_range "a" "z" a
  || bool_decide (a = "_"%char).
Definition is_space (a : ascii) : bool := bool_decide (a = " "%char).
Definition is_hash (a : ascii) : bool := bool_decide (a = "#"%char).

(** The captures: element [i] is the text of group [i], group 0 being the
    whole match; a group that took no part in the match is empty, as in the
    result of [FindStringSubmatch]. *)
Abbreviation caps := (list gostring).
Abbreviation cont := (nat → gostring → caps → option caps).

Fixpoint star (body : nat → gostring → caps → cont → option caps)
    (fuel pos : nat) (s : gostring) (c : caps) (k : cont) : option caps :=
  match fuel with
  | O => k pos s c
  | S fuel' =>
      match body pos s c (λ pos' s' c',
              if decide (length s' < length s)
              then star body fuel' pos' s' c' k else None) with
      | Some m => Some m
      | None => k pos s c
      end
  end.

(** [run r pos s c k]: match [r] at offset [pos], where [s] is the rest of
    the text, then continue with [k]; [None] when every way to match fails. *)
Fixpoint run (r : regexp) (pos : nat) (s : gostring) (c : caps) (k : cont)
    : option caps :=
  match r with
  | Eps => k pos s c
  | Cls p =>
      match s with
      | a :: s' => if p a then k (S pos) s' c else None
      | [] => None
      end
  | Cat r1 r2 => run r1 pos s c (λ pos' s' c', run r2 pos' s' c' k)
  | Alt r1 r2 =>
      match run r1 pos s c k with
      | Some m => Some m
      | None => run r2 pos s c k
      end
  | Star r' => star (run r') (S (length s)) pos s c k
  | Grp i r' =>
      run r' pos s c (λ pos' s' c', k pos' s' (<[i := take (pos' - pos) s]> c'))
  | Bot => if decide (pos = 0) then k pos s c else None
  | Eot => match s with [] => k pos s c | _ :: _ => None end
  end.

(** A compiled pattern: its syntax and its number of groups. *)
Record Regexp := { re_syntax : regexp; re_groups : nat }.

Fixpoint search (r : regexp) (n pos : nat) (s : gostring) : option caps :=
  match run r pos s (replicate (S n) [])
          (λ pos' s' c', Some (<[0 := take (pos' - pos) s]> c')) with
  | Some m => Some m
  | None =>
      match s with
      | [] => None
      | _ :: s' => search r n (S pos) s'
      end
  end.

(** [re.FindStringSubmatch(s)]: [None] is Go's [nil] result. *)
Definition FindStringSubmatch (re : Regexp) (s : gostring) : option caps :=
  search (re_syntax re) (re_groups re) 0 s.

(** [m[i]] on the result of a match. *)
Definition sub (m : caps) (i : nat) : gostring := default [] (m !! i).

Module semver.

(** Style represents the style used to format the semantic version. *)
Record Style := { Prefix : gostring; OmitPatch : bool }.

(** Version describes a semantic version. *)
Record Version := {
  Major : Z;
  Minor : Z;
  Patch : Z;
  Flavor : gostring;
}.

#[global] Instance Version_eq_dec : EqDecision Version.
Proof. solve_decision. Defined.

#[global] Instance Version_countable : Countable Version.
Proof.
  refine (inj_countable'
    (λ v, (Major v, Minor v, Patch v, Flavor v))
    (λ t, let '(a, b, c, f) := t in
          {| Major := a; Minor := b; Patch := c; Flavor := f |}) _).
  by intros [].
Defined.

#[global] Instance Style_eq_dec : EqDecision Style.
Proof. solve_decision. Defined.

(** The common part of both patterns:
    [(\d+)\.(\d+)(?:\.(\d+))?(-\w+)?$], the groups numbered from [g]. *)
Definition numbersRE (g : nat) : regexp :=
  Cat (Grp g (Plus (Cls is_digit)))
 (Cat (Lit ".")
 (Cat (Grp (g + 1) (Plus (Cls is_digit)))
 (Cat (Opt (Cat (Lit ".") (Grp (g + 2) (Plus (Cls is_digit)))))
 (Cat (Opt (Grp (g + 3) (Cat (Lit "-") (Plus (Cls is_word)))))
      Eot)))).

(** [\w*-|v] *)
Definition prefixRE : regexp :=
  Alt (Cat (Star (Cls is_word)) (Lit "-")) (Lit "v").

(** [^(?:\w*-|v)?(\d+)\.(\d+)(?:\.(\d+))?(-\w+)?$] *)
Definition versionRE : Regexp :=
  {| re_syntax := Cat Bot (Cat (Opt prefixRE) (numbersRE 1));
     re_groups := 4 |}.

(** [^(\w*-|v)?(\d+)\.(\d+)(?:\.(\d+))?(-\w+)?$] *)
Definition styleRE : Regexp :=
  {| re_syntax := Cat Bot (Cat (Opt (Grp 1 prefixRE)) (numbersRE 2));
     re_groups := 5 |}.

(** ParseStyle attempts to parse the semantic version style from s. *)
Definition ParseStyle (s : gostring) : option Style :=
  match FindStringSubmatch styleRE s with
  | None => None
  | Some m => Some {| Prefix := sub m 1; OmitPatch := str_empty (sub m 4) |}
  end.

(** Format returns the version v formatted using the style. *)
Definition Format (s : Style) (v : Version) : gostring :=
  let out := Prefix s ++ itoa (Major v) ++ go "." ++ itoa (Minor v) in
  let out :=
    if negb (Patch v =? 0)%Z || negb (OmitPatch s)
    then out ++ go "." ++ itoa (Patch v) else out in
  if negb (str_empty (Flavor v)) then out ++ go "-" ++ Flavor v else out.

(** Merge attempts to merge the styles a and b. *)
Definition Merge (a b : Style) : option Style :=
  if decide (Prefix a ≠ Prefix b) then None
  else Some {| Prefix := Prefix a; OmitPatch := OmitPatch a || OmitPatch b |}.

(** [Version.String] *)
Definition String (v : Version) : gostring :=
  let s := itoa (Major v) ++ go "." ++ itoa (Minor v) ++ go "." ++ itoa (Patch v) in
  if negb (str_empty (Flavor v)) then s ++ go "-" ++ Flavor v else s.

Inductive ParseError :=
| CannotParse (s : gostring)
| BadMajor (m : gostring)
| BadMinor (m : gostring)
| BadPatch (m : gostring).

Definition zero : Version :=
  {| Major := 0; Minor := 0; Patch := 0; Flavor := [] |}.

(** Parse parses the Version from the string s. *)
Definition Parse (s : gostring) : ParseError + Version :=
  match FindStringSubmatch versionRE s with
  | None => inl (CannotParse s)
  | Some m =>
      match Atoi (sub m 1) with
      | None => inl (BadMajor (sub m 1))
      | Some major =>
          match Atoi (sub m 2) with
          | None => inl (BadMinor (sub m 2))
          | Some minor =>
              let patch :=
                if negb (str_empty (sub m 3)) then Atoi (sub m 3) else Some 0%Z in
              match patch with
              | None => inl (BadPatch (sub m 3))
              | Some patch =>
                  inr {| Major := major; Minor := minor; Patch := patch;
                         Flavor := if decide (0 < length (sub m 4))
                                   then drop 1 (sub m 4) else [] |}
              end
          end
      end
  end.

(** Compare compares two versions, returning -1 if a < b, 1 if a > b and
    0 if a == b. *)
Definition Compare (a b : Version) (compareFlavor : bool) : Z :=
  if (Major a <? Major b)%Z then -1
  else if (Major a >? Major b)%Z then 1
  else if (Minor a <? Minor b)%Z then -1
  else if (Minor a >? Minor b)%Z then 1
  else if (Patch a <? Patch b)%Z then -1
  else if (Patch a >? Patch b)%Z then 1
  else if compareFlavor then
    if str_empty (Flavor a) && negb (str_empty (Flavor b)) then -1
    else if negb (str_empty (Flavor a)) && str_empty (Flavor b) then 1
    else if str_lt (Flavor a) (Flavor b) then -1
    else if str_lt (Flavor b) (Flavor a) then 1
    else 0
  else 0.

(** GreaterThan returns true if version v is greater than version o. *)
Definition GreaterThan (v o : Version) (compareFlavor : bool) : bool :=
  (Compare v o compareFlavor >? 0)%Z.

Definition GreaterEqualTo (v o : Version) (compareFlavor : bool) : bool :=
  (Compare v o compareFlavor >=? 0)%Z.

(** List is a list of versions, Set a set of unique versions. *)
Abbreviation List := (list Version).
Abbreviation Set_ := (gset Version).

(** Sort sorts the versions starting with the most recent to the oldest:
    [sort.Slice] with [Compare(l[i], l[j], true) > 0] as the order. *)
Definition Sort (l : List) : List :=
  merge_sort (λ a b, Is_true (GreaterThan a b true)) l.

(** Add adds v to the set s. *)
Definition Add (s : Set_) (v : Version) : Set_ := {[ v ]} ∪ s.

(** Remove removes v from the set s. *)
Definition Remove (s : Set_) (v : Version) : Set_ := s ∖ {[ v ]}.

(** Contains returns true if the set s contains v. *)
Definition Contains (s : Set_) (v : Version) : bool := bool_decide (v ∈ s).

(** [List.Set] returns the unique versions in the list. *)
Definition ListSet (l : List) : Set_ := foldl Add ∅ l.

(** [Set.Union]: the loop runs over the elements of [o] and adds to the
    result those that [s] contains. *)
Definition Union (s o : Set_) : Set_ :=
  foldl (λ out v, if Contains s v then Add out v else out) ∅ (elements o).

(** Clone returns a shallow copy of this Set. *)
Definition Clone (s : Set_) : Set_ := foldl Add ∅ (elements s).

(** [Set.List] returns the sorted versions in this set as a list. *)
Definition SetList (s : Set_) : List := Sort (elements s).

End semver.



(** ** Slices

    Indexing and slicing with a Go [int]; out of range is a panic. *)

Definition index {A} (l : list A) (i : Z) : option A :=
  if decide (0 ≤ i)%Z then l !! Z.to_nat i else None.

(** [l[from:to]] *)
Definition slice {A} (l : list A) (from to : Z) : option (list A) :=
  if decide (0 ≤ from ∧ from ≤ to ∧ to ≤ Z.of_nat (length l))%Z
  then Some (take (Z.to_nat to - Z.to_nat from) (drop (Z.to_nat from) l))
  else None.

Definition len {A} (l : list A) : Z := Z.of_nat (length l).

(** ** White space

    [strings.TrimSpace(s) == ""] holds when [s] consists of white space
    only, as Unicode defines it; the string is read as UTF-8. *)

Definition ascii_space (n : N) : bool :=
  ((9 <=? n) && (n <=? 13) || (n =? 32))%N.

(** U+0085 and U+00A0 *)
Definition space2 (a b : N) : bool :=
  ((a =? 194) && ((b =? 133) || (b =? 160)))%N.

(** U+1680, U+2000 to U+200A, U+2028, U+2029, U+202F, U+205F, U+3000 *)
Definition space3 (a b c : N) : bool :=
  ((a =? 225) && (b =? 154) && (c =? 128)
   || (a =? 226) && (b =? 128)
      && ((128 <=? c) && (c <=? 138) || (c =? 168) || (c =? 169) || (c =? 175))
   || (a =? 226) && (b =? 129) && (c =? 159)
   || (a =? 227) && (b =? 128) && (c =? 128))%N.

Fixpoint isBlank (s : gostring) : bool :=
  match s with
  | [] => true
  | a :: s1 =>
      if ascii_space (byte_val a) then isBlank s1
      else
        match s1 with
        | [] => false
        | b :: s2 =>
            if space2 (byte_val a) (byte_val b) then isBlank s2
            else
              match s2 with
              | [] => false
              | c :: s3 =>
                  if space3 (byte_val a) (byte_val b) (byte_val c)
                  then isBlank s3 else false
              end
        end
  end.

Module changes.
Import semver.

Record version := {
  ver : Version;        (* the embedded semver.Version *)
  line : Z;             (* Line number this was found on *)
  prefix : gostring;    (* Prefix before the semver *)
  style : Style;
  sep : gostring;       (* Separator between version and date *)
  date : gostring;      (* Date after the semver *)
}.

(** Content holds the parsed content of a CHANGES file. *)
Record Content := {
  versions : list version;
  lines : list gostring;
}.

Definition digitRE : regexp := Cls is_digit.

(** [\d\d\d\d-\d\d-\d\d] *)
Definition dateRE : regexp :=
  Cat digitRE (Cat digitRE (Cat digitRE (Cat digitRE
 (Cat (Lit "-") (Cat digitRE (Cat digitRE
 (Cat (Lit "-") (Cat digitRE digitRE)))))))).

(** [(?:\w*-|v)?\d+\.\d+(?:\.\d+)?(?:-\w+)?] *)
Definition tokenRE : regexp :=
  Cat (Opt prefixRE)
 (Cat (Plus digitRE)
 (Cat (Lit ".")
 (Cat (Plus digitRE)
 (Cat (Opt (Cat (Lit ".") (Plus digitRE)))
      (Opt (Cat (Lit "-") (Plus (Cls is_word)))))))).

(** changesVersionRE is the regular expression used to parse versions from
    a CHANGES file.  Group by group: the start of the text; group 1, any
    number of [#] then any number of spaces; group 2, the version token;
    group 3, any number of spaces; group 4, optional, the date; then any
    number of spaces and the end of the text. *)
Definition changesVersionRE : Regexp :=
  {| re_syntax :=
       Cat Bot
      (Cat (Grp 1 (Cat (Star (Cls is_hash)) (Star (Cls is_space))))
      (Cat (Grp 2 tokenRE)
      (Cat (Grp 3 (Star (Cls is_space)))
      (Cat (Opt (Grp 4 dateRE))
      (Cat (Star (Cls is_space)) Eot)))));
     re_groups := 4 |}.

Inductive error :=
| ErrOnLine (e : ParseError) (i : Z).      (* "%v on line %v" *)

(** The loop of [parse]: [i] is the index of the first line of [ls]. *)
Fixpoint parse_lines (i : Z) (ls : list gostring) (vs : list version)
    : error + list version :=
  match ls with
  | [] => inr vs
  | l :: rest =>
      match FindStringSubmatch changesVersionRE l with
      | None => parse_lines (i + 1) rest vs
      | Some m =>
          match Parse (sub m 2) with
          | inl err => inl (ErrOnLine err i)
          | inr v =>
              let st := default {| Prefix := []; OmitPatch := false |}
                                (ParseStyle (sub m 2)) in
              parse_lines (i + 1) rest
                (vs ++ [{| ver := v; line := i + 1; prefix := sub m 1;
                           style := st; sep := sub m 3; date := sub m 4 |}])
          end
      end
  end.

Definition parse (c : Content) : error + Content :=
  match parse_lines 0 (lines c) (versions c) with
  | inl e => inl e
  | inr vs => inr {| versions := vs; lines := lines c |}
  end.

(** Read parses the content of the CHANGES file from body, returning a
    Content. *)
Definition Read (body : gostring) : error + Content :=
  parse {| versions := []; lines := Split body newline |}.

(** [Content.String] *)
Definition String (c : Content) : gostring := Join (lines c) [newline].

(** The first loop of [ReleaseNotes], over the versions: the heading of [v]
    and the heading that follows it. *)
Fixpoint findNotes (vs : list version) (v : Version) (startLine endLine : Z)
    : Z * Z :=
  match vs with
  | [] => (startLine, endLine)
  | x :: rest =>
      if decide (startLine ≠ -1)%Z then (startLine, line x - 1)%Z
      else if decide (ver x = v) then findNotes rest v (line x) endLine
      else findNotes rest v startLine endLine
  end.

(** The number of blank lines at the front of [ls]. *)
Fixpoint blankPrefix (ls : list gostring) : nat :=
  match ls with
  | l :: rest => if isBlank l then S (blankPrefix rest) else 0
  | [] => 0
  end.

(** [for startLine < len(lines) && TrimSpace(lines[startLine]) == ""
    { startLine++ }]: the loop walks over the blank lines that start at
    [startLine]; a negative index panics. *)
Definition skipBlankForward (ls : list gostring) (startLine : Z) : option Z :=
  if decide (startLine < len ls)%Z then
    if decide (0 ≤ startLine)%Z
    then Some (startLine + Z.of_nat (blankPrefix (drop (Z.to_nat startLine) ls)))%Z
    else None
  else Some startLine.

(** [for endLine > startLine && TrimSpace(lines[endLine-1]) == ""
    { endLine-- }]: the loop walks back over the blank lines that end at
    [endLine] and stops at [startLine]. *)
Definition skipBlankBackward (ls : list gostring) (startLine endLine : Z)
    : option Z :=
  if decide (endLine > startLine)%Z then
    match slice ls startLine endLine with
    | Some block => Some (endLine - Z.of_nat (blankPrefix (reverse block)))%Z
    | None => None
    end
  else Some endLine.

(** ReleaseNotes returns the release notes for the given version. *)
Definition ReleaseNotes (c : Content) (v : Version) : option (gostring * bool) :=
  let '(startLine, endLine) := findNotes (versions c) v (-1) (-1) in
  if decide (startLine = -1)%Z then Some ([], false)
  else
    startLine ← skipBlankForward (lines c) startLine;
    let endLine := if decide (endLine = -1)%Z then len (lines c) else endLine in
    endLine ← skipBlankBackward (lines c) startLine endLine;
    block ← slice (lines c) startLine endLine;
    Some (Join block [newline], true).

(** Versions returns all the versions found in the changes content. *)
Definition Versions (c : Content) : List := Sort (ver <$> versions c).

(** CurrentVersion returns the semantic version for the top most version. *)
Definition CurrentVersion (c : Content) : Version :=
  match versions c with
  | [] => zero
  | x :: _ => ver x
  end.

(** CurrentVersionNotes returns the release notes for the top most
    version. *)
Definition CurrentVersionNotes (c : Content) : option gostring :=
  match versions c with
  | v0 :: rest =>
      let from := (line v0 + 1)%Z in
      let to := match rest with v1 :: _ => line v1 | [] => len (lines c) end in
      if decide (from < to)%Z then
        block ← slice (lines c) (from - 1) (to - 1);
        Some (Join block [newline])
      else Some []
  | [] => Some []
  end.

Inductive finding :=
| NoVersions
    (* "CHANGES file does not contain any versions" *)
| NotFlavored (v : Version) (l : Z)
    (* "Top-most version %v on line %v is not suffixed with a flavor" *)
| Flavored (v : Version) (l : Z)
    (* "Version %v on line %v is flavored. Only the current version can be
        flavored" *)
| NotGreater (next : Version) (nl : Z) (curr : Version) (cl : Z).
    (* "Version %v on line %v is not greater than version %v on line %v" *)

(** The loop of [Validate] over [c.versions[1:]]; [next] is the entry just
    before the first of [rest]. *)
Fixpoint orderLoop (next : version) (rest : list version) : list finding :=
  match rest with
  | [] => []
  | curr :: rest' =>
      (if negb (str_empty (Flavor (ver curr)))
       then [Flavored (ver curr) (line curr)] else [])
      ++ (if negb (GreaterThan (ver next) (ver curr) false)
          then [NotGreater (ver next) (line next) (ver curr) (line curr)]
          else [])
      ++ orderLoop curr rest'
  end.

(** Validate checks the CHANGES content is well formed, returning any
    errors found. *)
Definition Validate (c : Content) (isDevelopmentBranch : bool) : list finding :=
  match versions c with
  | [] => [NoVersions]
  | top :: rest =>
      (if isDevelopmentBranch && str_empty (Flavor (ver top))
       then [NotFlavored (ver top) (line top)] else [])
      ++ orderLoop top rest
  end.

(** [version.String] *)
Definition version_String (c : version) : gostring :=
  prefix c ++ Format (style c) (ver c) ++ sep c ++ date c.

(** AdjustCurrentVersion changes the semantic version for the top most
    version.  [today] is the text of [t.Format("2006-01-02")].  The result
    is the content after the call and the value returned; [None] is the
    panic of the assignment to a line that the document does not have. *)
Definition AdjustCurrentVersion (c : Content) (v : Version) (today : gostring)
    : option (Content * bool) :=
  match versions c with
  | [] => Some (c, false)
  | cv :: rest =>
      let cv := {| ver := v; line := line cv; prefix := prefix cv;
                   style := style cv;
                   sep := if str_empty (sep cv) then go "  " else sep cv;
                   date := today |} in
      if decide (0 ≤ line cv - 1 < len (lines c))%Z then
        Some ({| versions := cv :: rest;
                 lines := <[Z.to_nat (line cv - 1) := version_String cv]>
                            (lines c) |}, true)
      else None
  end.

(** The loop of [parse] on its receiver: the entries of the receiver when
    the loop ends, and the error that has ended it, if any. *)
Fixpoint parse_loop (i : Z) (ls : list gostring) (vs : list version)
    : list version * option error :=
  match ls with
  | [] => (vs, None)
  | l :: rest =>
      match FindStringSubmatch changesVersionRE l with
      | None => parse_loop (i + 1) rest vs
      | Some m =>
          match Parse (sub m 2) with
          | inl err => (vs, Some (ErrOnLine err i))
          | inr v =>
              let st := default {| Prefix := []; OmitPatch := false |}
                                (ParseStyle (sub m 2)) in
              parse_loop (i + 1) rest
                (vs ++ [{| ver := v; line := i + 1; prefix := sub m 1;
                           style := st; sep := sub m 3; date := sub m 4 |}])
          end
      end
  end.

(** AddNewVersion adds a new top-most version.  [t] is [None] for the zero
    time and otherwise the text of [t.Format("2006-01-02")].  The result is
    the content after the call and the error returned; [None] is the panic
    of a slice expression out of range. *)
Definition AddNewVersion (c : Content) (v : Version) (t : option gostring)
    (content : gostring) : option (Content * option error) :=
  let h_date := default [] t in
  let h_sep := match t with Some _ => go "  " | None => [] end in
  let '(at_, h) :=
    match versions c with
    | existing :: _ =>
        ((line existing - 1)%Z,
         {| ver := v; line := 0; prefix := prefix existing;
            style := style existing; sep := sep existing; date := h_date |})
    | [] =>
        (len (lines c),
         {| ver := v; line := 0; prefix := [];
            style := {| Prefix := []; OmitPatch := false |};
            sep := h_sep; date := h_date |})
    end in
  before ← slice (lines c) 0 at_;
  let lines1 :=
    if bool_decide (before = []) || negb (str_empty (default [] (last before)))
    then before ++ [[]] else before in
  let lines2 := lines1 ++ [version_String h; []] in
  let lines3 :=
    if negb (str_empty content)
    then (lines2 ++ Split content newline) ++ [[]] else lines2 in
  after ← slice (lines c) at_ (len (lines c));
  let lines4 := lines3 ++ after in
  let '(vs, err) := parse_loop 0 lines4 [] in
  Some ({| versions := vs; lines := lines4 |}, err).

(** FileNames lists the permitted file names for the CHANGES file. *)
Definition FileNames : list gostring := [go "CHANGES"; go "CHANGES.md"].

End changes.


Module main.
Import semver changes.

(** The hash of a commit, as [git] prints it. *)
Abbreviation Hash := (list ascii) (only parsing).

(** A problem of a branch: a finding of [Content.Validate], or notes for a
    future version in a release branch. *)
Inductive problem :=
| ChangesProblem (f : finding)
| FutureVersion (releaseVersion : Z) (v : Version).
    (* "CHANGES in release branch %v.x.x has notes for future version %v" *)

Record branch := {
  b_name : gostring;            (* Branch name *)
  b_sha : gostring;             (* Branch git hash *)
  releaseVersion : option Z;    (* Parsed major version (nil if not a release branch) *)
  b_changes : Content;          (* Content of CHANGES file at sha *)
  changesPath : gostring;       (* Repo-relative path to CHANGES file *)
  problems : list problem;      (* Problems found *)
}.

Record tag := {
  t_name : gostring;            (* Tag name *)
  t_sha : gostring;             (* Tag git hash *)
  t_changes : Content;          (* Content of CHANGES file at sha *)
}.

Record release := {
  r_name : gostring;
  r_tag : gostring;
}.

(** The branch objects are created once per branch name by [fetchBranches]
    and stored in [branches] under that name; a pointer to a branch is
    modelled by this name, and [mainBranch == b] by the equality of the
    names.  The main branch is missing from [branches] when it has no CHANGES
    file. *)
Record repo := {
  mainBranch : option gostring;          (* Pointer to the default git branch *)
  versionStyle : Style;                  (* Style determined from existing branch / tags names *)
  branches : gmap gostring branch;       (* Existing branches by name *)
  tags : gmap gostring tag;              (* Existing tags by name *)
  releases : gmap gostring release;      (* Existing releases by name *)
  missingBranches : Set_;                (* Release branches mentioned in CHANGES, but missing *)
  missingTags : Set_;                    (* Release tags mentioned in CHANGES, but missing *)
  missingReleases : Set_;                (* Releases mentioned in CHANGES, but missing *)
}.

(** branchNameForVersion returns the style-formatted release branch name
    for the version v. *)
Definition branchNameForVersion (r : repo) (v : Version) : gostring :=
  if OmitPatch (versionStyle r)
  then Prefix (versionStyle r) ++ itoa (Major v) ++ go ".x"
  else Prefix (versionStyle r) ++ itoa (Major v) ++ go ".x.x".

(** tagNameForVersion returns the style-formatted release tag name for the
    version v. *)
Definition tagNameForVersion (r : repo) (v : Version) : gostring :=
  Format (versionStyle r) v.

(** releaseNameForVersion returns the style-formatted release name for the
    version v. *)
Definition releaseNameForVersion (r : repo) (v : Version) : gostring :=
  Format (versionStyle r) v.

Section map_range.

(** The order in which [range] enumerates a map. *)
Variable enum : ∀ A : Type, gmap gostring A → list (gostring * A).

(** One of the three loops of [determineVersionStyle], over names. *)
Definition tallyStyles (names : list gostring)
    (st : gmap gostring Z * bool) : gmap gostring Z * bool :=
  foldl (λ '(prefixUses, usesPatch) name,
           match ParseStyle name with
           | Some s =>
               (<[Prefix s := (default 0 (prefixUses !! Prefix s) + 1)%Z]> prefixUses,
                negb (OmitPatch s) && usesPatch)
           | None => (prefixUses, usesPatch)
           end) st names.

(** The last loop of [determineVersionStyle]. *)
Definition mostCommon (uses : list (gostring * Z)) : gostring * Z :=
  foldl (λ (most : gostring * Z) (pc : gostring * Z),
           let '(mostCommonPrefix, mostCommonPrefixUses) := most in
           let '(p, c) := pc in
           if (c >=? mostCommonPrefixUses)%Z then (p, c)
           else (mostCommonPrefix, mostCommonPrefixUses))
        (go "release-", 0%Z) uses.

(** determineVersionStyle attempts to determine the style used to label
    release branches, tags and releases. *)
Definition determineVersionStyle (r : repo) : repo :=
  let st := (∅, true) in
  let st := tallyStyles (b_name ∘ snd <$> enum _ (branches r)) st in
  let st := tallyStyles (t_name ∘ snd <$> enum _ (tags r)) st in
  let '(prefixUses, usesPatch) :=
    tallyStyles (r_name ∘ snd <$> enum _ (releases r)) st in
  let '(mostCommonPrefix, _) := mostCommon (enum _ prefixUses) in
  {| mainBranch := mainBranch r;
     versionStyle := {| Prefix := mostCommonPrefix; OmitPatch := negb usesPatch |};
     branches := branches r; tags := tags r; releases := releases r;
     missingBranches := missingBranches r; missingTags := missingTags r;
     missingReleases := missingReleases r |}.

(** The state of the loop of [validate]: the three sets, the branches with
    the problems found so far, and the list of problems. *)
Record validation := {
  v_missingBranches : Set_;
  v_missingTags : Set_;
  v_missingReleases : Set_;
  v_branches : gmap gostring branch;
  v_problems : list (gostring * problem);     (* "Branch '%v': %v" *)
}.

(** The loop of [validate] over the versions of the main branch. *)
Definition collectMissing (r : repo) (isMain : bool) (vs : List)
    (st : Set_ * Set_ * Set_) : Set_ * Set_ * Set_ :=
  foldl (λ '(mb, mt, mr) v,
           if negb (str_empty (Flavor v)) then (mb, mt, mr)
           else if isMain then
             (if decide (branches r !! branchNameForVersion r v = None)
              then Add mb v else mb,
              if decide (tags r !! tagNameForVersion r v = None)
              then Add mt v else mt,
              if decide (releases r !! releaseNameForVersion r v = None)
              then Add mr v else mr)
           else (mb, mt, mr)) st vs.

(** The body of the loop of [validate], for the branch [b] stored under
    [key]. *)
Definition validateBranch (r : repo) (st : validation)
    (kb : gostring * branch) : validation :=
  let '(key, b) := kb in
  let isDevelopementBranch := bool_decide (mainBranch r = Some key) in
  let found := ChangesProblem <$> Validate (b_changes b) isDevelopementBranch in
  let '(mb, mt, mr) :=
    collectMissing r isDevelopementBranch (Versions (b_changes b))
      (v_missingBranches st, v_missingTags st, v_missingReleases st) in
  let future :=
    match releaseVersion b with
    | Some rel =>
        match List.find (λ v, (Major v >? rel)%Z) (Versions (b_changes b)) with
        | Some v => [FutureVersion rel v]
        | None => []
        end
    | None => []
    end in
  let b' := {| b_name := b_name b; b_sha := b_sha b;
               releaseVersion := releaseVersion b; b_changes := b_changes b;
               changesPath := changesPath b;
               problems := problems b ++ found ++ future |} in
  {| v_missingBranches := mb; v_missingTags := mt; v_missingReleases := mr;
     v_branches := <[key := b']> (v_branches st);
     v_problems := v_problems st ++ ((λ p, (b_name b, p)) <$> problems b') |}.

(** validate looks for and returns a list of problems found with the
    current release branches, tags and CHANGES of the repo r. *)
Definition validate (r : repo) : list (gostring * problem) * repo :=
  let st := foldl (validateBranch r)
              {| v_missingBranches := ∅; v_missingTags := ∅;
                 v_missingReleases := ∅; v_branches := branches r;
                 v_problems := [] |}
              (enum _ (branches r)) in
  (v_problems st,
   {| mainBranch := mainBranch r; versionStyle := versionStyle r;
      branches := v_branches st; tags := tags r; releases := releases r;
      missingBranches := v_missingBranches st;
      missingTags := v_missingTags st;
      missingReleases := v_missingReleases st |}).

End map_range.

(** *** The scan of the history in [createMissingBranchesAndTags] *)

(** ChangeList describes a commit: only its hash matters here. *)
Record ChangeList := {
  cl_Hash : Hash;
  cl_Subject : gostring;
}.

Inductive scanError :=
| FailedToRead (h : Hash)                       (* "Failed to read '%v' at %v: %w" *)
| FailedToParse (h : Hash) (e : changes.error). (* "Failed to parse '%v' at %v: %w" *)

Record scanState := {
  s_missingBranches : Set_;
  s_missingTags : Set_;
  branchesToCreate : list (Version * Hash);
  tagsToCreate : list (Version * Hash);
  errs : list scanError;
}.

Section history.

(** [g.Show(wd, r.mainBranch.changesPath, hash)]: the text of the CHANGES
    file at a commit, [None] when [git show] fails. *)
Variable gitShow : Hash → option gostring.

(** [for _, v := range versions.Union(missing).List()
      { missing.Remove(v); toCreate = append(toCreate, {v, hash}) }] *)
Definition resolve (versions missing : Set_) (h : Hash)
    (toCreate : list (Version * Hash)) : Set_ * list (Version * Hash) :=
  foldl (λ '(missing, toCreate) v, (Remove missing v, toCreate ++ [(v, h)]))
        (missing, toCreate) (SetList (Union versions missing)).

(** The body of the loop over the log. *)
Definition scanCommit (st : scanState) (cl : ChangeList) : scanState :=
  let failed e :=
    {| s_missingBranches := s_missingBranches st;
       s_missingTags := s_missingTags st;
       branchesToCreate := branchesToCreate st;
       tagsToCreate := tagsToCreate st;
       errs := errs st ++ [e] |} in
  match gitShow (cl_Hash cl) with
  | None => failed (FailedToRead (cl_Hash cl))
  | Some content =>
      match Read content with
      | inl e => failed (FailedToParse (cl_Hash cl) e)
      | inr c =>
          let versions := ListSet (Versions c) in
          let '(mb, bs) := resolve versions (s_missingBranches st)
                             (cl_Hash cl) (branchesToCreate st) in
          let '(mt, ts) := resolve versions (s_missingTags st)
                             (cl_Hash cl) (tagsToCreate st) in
          {| s_missingBranches := mb; s_missingTags := mt;
             branchesToCreate := bs; tagsToCreate := ts; errs := errs st |}
      end
  end.

(** The commits from the oldest to the newest. *)
Definition scanFrom (st : scanState) (commits : list ChangeList) : scanState :=
  foldl scanCommit st commits.

(** The scan: [log] is the result of [g.Log], the most recent commit
    first, and the loop runs from its last element to its first. *)
Definition scanHistory (r : repo) (log : list ChangeList) : scanState :=
  scanFrom {| s_missingBranches := Clone (missingBranches r);
              s_missingTags := Clone (missingTags r);
              branchesToCreate := []; tagsToCreate := []; errs := [] |}
           (reverse log).

End history.

(** [^(?:\w*-|v)?(\d+)\.x+(?:\.x+)?$] *)
Definition branchVersionRE : Regexp :=
  {| re_syntax :=
       Cat Bot
      (Cat (Opt prefixRE)
      (Cat (Grp 1 (Plus (Cls is_digit)))
      (Cat (Lit ".")
      (Cat (Plus (Lit "x"))
      (Cat (Opt (Cat (Lit ".") (Plus (Lit "x"))))
           Eot)))));
     re_groups := 1 |}.

(** parseReleaseBranch parses the major release version from the branch
    name s. *)
Definition parseReleaseBranch (s : gostring) : option Z :=
  match FindStringSubmatch branchVersionRE s with
  | None => None
  | Some m => Atoi (sub m 1)
  end.

(** ** The CHANGES file in a release *)

(** Go's [int] arithmetic wraps around at 64 bits. *)
Definition wrap (z : Z) : Z := ((z + 2 ^ 63) mod 2 ^ 64 - 2 ^ 63)%Z.

(** [v.Flavor = ""]: the version that [doRelease] releases. *)
Definition withoutFlavor (v : Version) : Version :=
  {| Major := Major v; Minor := Minor v; Patch := Patch v; Flavor := [] |}.

(** [nextVer := v; nextVer.Flavor = flavor; nextVer.Patch++] *)
Definition nextVersion (v : Version) (flavor : gostring) : Version :=
  {| Major := Major v; Minor := Minor v; Patch := wrap (Patch v + 1);
     Flavor := flavor |}.

(** The notes that [doRelease] gives to the next version. *)
Definition notesStub : gostring :=
  newline :: go "[Add release notes here]" ++ [newline].

Inductive released :=
| NothingToRelease
    (* "Nothing in %v to release (top most version is not flavored)" *)
| Released (release main : gostring).
    (* the texts of the CHANGES file of the two commits *)

(** What [doRelease] does with the CHANGES file of the branch, in the
    order of the function; the steps between these, on the checkout and on
    GitHub, do not touch the content and are taken to succeed.  [today] is
    the text of [time.Now().Format("2006-01-02")].  The results of
    [AdjustCurrentVersion] and of [AddNewVersion] are dropped, as in the
    function; [None] is a panic. *)
Definition doRelease_changes (changes : Content) (v : Version)
    (today : gostring) : option released :=
  let flavor := Flavor (CurrentVersion changes) in
  if str_empty flavor then Some NothingToRelease
  else
    let v := withoutFlavor v in
    r ← AdjustCurrentVersion changes v today;
    let changes := r.1 in
    let releaseText := changes.String changes in
    let nextVer := nextVersion v flavor in
    r ← AddNewVersion changes nextVer None notesStub;
    let changes := r.1 in
    Some (Released releaseText (changes.String changes)).

(** ** Files and artifacts *)

(** [path.Split]: the path up to its last slash, the slash included, and
    the rest; without a slash the first part is empty. *)
Fixpoint path_Split (p : gostring) : gostring * gostring :=
  match p with
  | [] => ([], [])
  | a :: p' =>
      let '(dir, file) := path_Split p' in
      if negb (str_empty dir) then (a :: dir, file)
      else if decide (a = "/"%char) then ([a], p')
      else ([], a :: file)
  end.

(** isChangesFile returns true if the file at p could be a CHANGES file. *)
Definition isChangesFile (p : gostring) : bool :=
  let '(dir, name) := path_Split p in
  if str_empty dir
  then existsb (λ n, bool_decide (name = n)) FileNames
  else false.

(** One of the two loops of [createMissingBranchesAndTags] that create the
    planned artifacts.  [create h v] is the result of [createReleaseBranch]
    or of [createReleaseTag] for the version [v] at the commit [h], [None]
    for success; the state is the set of missing versions of the
    repository, the number of artifacts created and the errors. *)
Definition createPlanned {E} (create : Hash → Version → option E)
    (plan : list (Version * Hash)) (st : Set_ * Z * list E)
    : Set_ * Z * list E :=
  foldl (λ '(missing, numCreated, errs) vh,
           match create vh.2 vh.1 with
           | None => (Remove missing vh.1, (numCreated + 1)%Z, errs)
           | Some err => (missing, numCreated, errs ++ [err])
           end) st plan.

End main.

(** * The vocabulary of the properties *)

Import semver changes main.

(** ** Versions and documents *)

(** The numbers of a version, and their lexicographic order. *)
Definition triple (v : Version) : Z * Z * Z := (Major v, Minor v, Patch v).

Definition compare3 (x y : Z * Z * Z) : comparison :=
  let '(a1, b1, c1) := x in
  let '(a2, b2, c2) := y in
  match (a1 ?= a2)%Z with
  | Eq => match (b1 ?= b2)%Z with Eq => (c1 ?= c2)%Z | c => c end
  | c => c
  end.

Definition sign (c : comparison) : Z :=
  match c with Lt => -1 | Eq => 0 | Gt => 1 end.

Definition v2_2_1 : Version :=
  {| Major := 2; Minor := 2; Patch := 1; Flavor := [] |}.
Definition v2_2_1_dev : Version :=
  {| Major := 2; Minor := 2; Patch := 1; Flavor := go "dev" |}.

(** The pairs of entries that are adjacent in the document. *)
Definition adjacent (vs : list version) : list (version * version) :=
  zip vs (tail vs).

Definition isNotGreater (f : finding) : bool :=
  match f with NotGreater _ _ _ _ => true | _ => false end.

(** The finding that cites the pair. *)
Definition notGreater (p : version * version) : finding :=
  NotGreater (ver p.1) (line p.1) (ver p.2) (line p.2).

(** A document of the two headings 1.0.0-b and 1.0.0-a, and what [Read]
    makes of it. *)
Definition flavored_doc : gostring := go "1.0.0-b" ++ [newline] ++ go "1.0.0-a".

Definition v1_0_0_b : Version :=
  {| Major := 1; Minor := 0; Patch := 0; Flavor := go "b" |}.
Definition v1_0_0_a : Version :=
  {| Major := 1; Minor := 0; Patch := 0; Flavor := go "a" |}.

Definition flavored_content : Content :=
  {| versions :=
       [ {| ver := v1_0_0_b; line := 1; prefix := [];
            style := {| Prefix := []; OmitPatch := false |};
            sep := []; date := [] |};
         {| ver := v1_0_0_a; line := 2; prefix := [];
            style := {| Prefix := []; OmitPatch := false |};
            sep := []; date := [] |} ];
     lines := [go "1.0.0-b"; go "1.0.0-a"] |}.

(** ** Version strings and patterns *)

(** A non-empty sequence of bytes of the class [p]. *)
Definition some_of (p : ascii → bool) (s : gostring) : Prop :=
  s ≠ [] ∧ Forall (λ a, p a = true) s.

(** The class [p] does not go on at the front of [s]. *)
Definition stops (p : ascii → bool) (s : gostring) : Prop :=
  match s with [] => True | a :: _ => p a = false end.

(** The text of the optional parts of a version string. *)
Definition patchText (pa : option gostring) : gostring :=
  match pa with Some p => "."%char :: p | None => [] end.

Definition flavorText (fl : option gostring) : gostring :=
  match fl with Some f => "-"%char :: f | None => [] end.

(** MAJOR.MINOR[.PATCH][-FLAVOR] *)
Definition numbersText (ma mi : gostring) (pa fl : option gostring) : gostring :=
  ma ++ "."%char :: mi ++ patchText pa ++ flavorText fl.

(** The groups that [numbersRE g] sets on such a text. *)
Definition numbersCaps (g : nat) (ma mi : gostring) (pa fl : option gostring)
    (c : caps) : caps :=
  let c := <[g + 1 := mi]> (<[g := ma]> c) in
  let c := match pa with Some p => <[g + 2 := p]> c | None => c end in
  match fl with Some f => <[g + 3 := "-"%char :: f]> c | None => c end.

(** The prefixes of the grammar: none, a bare [v], or a word and a dash. *)
Inductive prefixOK : gostring → Prop :=
| prefix_none : prefixOK []
| prefix_v : prefixOK ["v"%char]
| prefix_word w : Forall (λ a, is_word a = true) w → prefixOK (w ++ ["-"%char]).

(** The version string with the given parts, the numbers in their decimal
    form. *)
Definition versionString (p : gostring) (major minor : Z) (patch : option Z)
    (flavor : option gostring) : gostring :=
  p ++ numbersText (itoa major) (itoa minor) (itoa <$> patch) flavor.

(** The language of a pattern, without the captures and the anchors. *)
Inductive star_lang (L : gostring → Prop) : gostring → Prop :=
| star_lang_nil : star_lang L []
| star_lang_app s1 s2 : L s1 → star_lang L s2 → star_lang L (s1 ++ s2).

Fixpoint lang (r : regexp) (s : gostring) : Prop :=
  match r with
  | Eps | Bot | Eot => s = []
  | Cls p => ∃ a, s = [a] ∧ p a = true
  | Cat r1 r2 => ∃ s1 s2, s = s1 ++ s2 ∧ lang r1 s1 ∧ lang r2 s2
  | Alt r1 r2 => lang r1 s ∨ lang r2 s
  | Star r' => star_lang (lang r') s
  | Grp _ r' => lang r' s
  end.

(** [run] returns a match only by calling its continuation on the rest of
    the text, after a text of the language. *)
Definition consumes (L : gostring → Prop) (s : gostring) (k : cont)
    (m : caps) : Prop :=
  ∃ s1 s2 pos' c', s = s1 ++ s2 ∧ L s1 ∧ k pos' s2 c' = Some m.

(** ** Entries and notes *)

(** An entry of the lines [ls], the first of which has the index [i]: it
    stands on the line that its line number gives, and that line is a
    heading. *)
Definition entry_of (i : Z) (ls : list gostring) (x : version) : Prop :=
  ∃ (n : nat) (l : gostring),
    line x = (i + 1 + Z.of_nat n)%Z ∧ ls !! n = Some l ∧
    is_Some (FindStringSubmatch changesVersionRE l).

(** The entries are in the order of their lines. *)
Definition line_lt (x y : version) : Prop := (line x < line y)%Z.

(** The lines without the blank lines at their front, and without those at
    both ends. *)
Definition dropBlank (ls : list gostring) : list gostring :=
  drop (blankPrefix ls) ls.

Definition trimBlank (ls : list gostring) : list gostring :=
  reverse (dropBlank (reverse (dropBlank ls))).

(** The lines strictly between the headings of two entries. *)
Definition between (c : Content) (v0 v1 : version) : list gostring :=
  take (Z.to_nat (line v1 - 1 - line v0)) (drop (Z.to_nat (line v0)) (lines c)).

(** The document of the example: the heading 2.2.1-dev, three lines of
    notes, a blank line and the heading of 2.2.0. *)
Definition notes_doc : gostring :=
  Join [go "### 2.2.1-dev"; go "xxx";
        go "Notes about the 2.2.1 patch release"; go "yyy"; [];
        go "### 2.2.0 2020-02-10"] [newline].

Definition notes_content : Content :=
  Eval vm_compute in
    match Read notes_doc with
    | inr c => c
    | inl _ => {| versions := []; lines := [] |}
    end.

Definition notes_top : version :=
  {| ver := v2_2_1_dev; line := 1; prefix := go "### ";
     style := {| Prefix := []; OmitPatch := false |}; sep := []; date := [] |}.

Definition notes_next : version :=
  {| ver := {| Major := 2; Minor := 2; Patch := 0; Flavor := [] |};
     line := 6; prefix := go "### ";
     style := {| Prefix := []; OmitPatch := false |};
     sep := go " "; date := go "2020-02-10" |}.

(** ** Repositories *)

(** The names of the existing branches, tags and releases. *)
Definition artifactNames (r : repo) : list gostring :=
  (b_name ∘ snd <$> map_to_list (branches r))
  ++ (t_name ∘ snd <$> map_to_list (tags r))
  ++ (r_name ∘ snd <$> map_to_list (releases r)).

(** The name parses under the style grammar, without a patch digit. *)
Definition omitsPatch (name : gostring) : bool :=
  match ParseStyle name with Some s => OmitPatch s | None => false end.

Definition empty_content : Content := {| versions := []; lines := [[]] |}.

Definition tag_named (name : gostring) : tag :=
  {| t_name := name; t_sha := []; t_changes := empty_content |}.

(** A repository with the two tags v1.2 and v1.2.3. *)
Definition mixed_repo : repo :=
  {| mainBranch := None;
     versionStyle := {| Prefix := []; OmitPatch := false |};
     branches := ∅;
     tags := {[ go "v1.2" := tag_named (go "v1.2");
                go "v1.2.3" := tag_named (go "v1.2.3") ]};
     releases := ∅;
     missingBranches := ∅; missingTags := ∅; missingReleases := ∅ |}.

(** Go's [range] in the order of [map_to_list]. *)
Definition enum_list : ∀ A : Type, gmap gostring A → list (gostring * A) :=
  λ A m, map_to_list m.

(** A version that the document declares without a flavor. *)
Definition declaredUnflavored (c : Content) (v : Version) : Prop :=
  v ∈ (ver <$> versions c) ∧ Flavor v = [].

(** The repository of the example: the main branch declares 2.2.0-dev,
    2.1.0, 2.0.0 and 1.0.0; the tags of 2.0.0 and 1.0.0 exist. *)
Definition main_doc : gostring :=
  Join [go "## 2.2.0-dev"; go "## 2.1.0"; go "## 2.0.0"; go "## 1.0.0"]
       [newline].

Definition main_content : Content :=
  Eval vm_compute in
    match Read main_doc with
    | inr c => c
    | inl _ => {| versions := []; lines := [] |}
    end.

Definition main_branch : branch :=
  {| b_name := go "main"; b_sha := []; releaseVersion := None;
     b_changes := main_content; changesPath := go "CHANGES"; problems := [] |}.

Definition main_repo : repo :=
  {| mainBranch := Some (go "main");
     versionStyle := {| Prefix := go "release-"; OmitPatch := false |};
     branches := {[ go "main" := main_branch ]};
     tags := {[ go "release-1.0.0" := tag_named (go "release-1.0.0");
                go "release-2.0.0" := tag_named (go "release-2.0.0") ]};
     releases := ∅;
     missingBranches := ∅; missingTags := ∅; missingReleases := ∅ |}.

Definition v2_1_0 : Version :=
  {| Major := 2; Minor := 1; Patch := 0; Flavor := [] |}.

(** ** The scan of the history *)

(** The commits that a plan gives to the version [v]. *)
Definition picks (plan : list (Version * Hash)) (v : Version) : list Hash :=
  snd <$> filter (λ p, p.1 = v) plan.

(** The snapshot at the commit is read and parsed, and declares [v]. *)
Definition declaredAt (gitShow : Hash → option gostring) (cl : ChangeList)
    (v : Version) : Prop :=
  ∃ content c, gitShow (cl_Hash cl) = Some content ∧ Read content = inr c
               ∧ v ∈ (ver <$> versions c).

(** The snapshot at the commit is not read or not parsed. *)
Definition snapshotFails (gitShow : Hash → option gostring) (cl : ChangeList)
    : Prop :=
  gitShow (cl_Hash cl) = None
  ∨ ∃ content e, gitShow (cl_Hash cl) = Some content ∧ Read content = inl e.

(** The two kinds of artifact of the scan: branches and tags. *)
Definition missingOf (tags : bool) (st : scanState) : Set_ :=
  if tags then s_missingTags st else s_missingBranches st.

Definition planOf (tags : bool) (st : scanState) : list (Version * Hash) :=
  if tags then tagsToCreate st else branchesToCreate st.

(** The set of the versions of a document. *)
Definition declaredSet (c : Content) : Set_ := ListSet (Versions c).

(** The four fields of the state that a failure leaves alone. *)
Definition progress (st : scanState)
    : Set_ * Set_ * list (Version * Hash) * list (Version * Hash) :=
  (s_missingBranches st, s_missingTags st, branchesToCreate st, tagsToCreate st).

(** The history of the example, three commits: 2.0.0 alone, then 2.1.0 on
    top of it, then 2.2.0-dev on top of both; and two commits whose snapshot
    is lost or does not parse. *)
Definition commit (h : string) : ChangeList :=
  {| cl_Hash := go h; cl_Subject := [] |}.

Definition history_show (h : Hash) : option gostring :=
  if decide (h = go "c1") then Some (go "## 2.0.0")
  else if decide (h = go "c2") then
    Some (Join [go "## 2.1.0"; go "## 2.0.0"] [newline])
  else if decide (h = go "c3") then
    Some (Join [go "## 2.2.0-dev"; go "## 2.1.0"; go "## 2.0.0"] [newline])
  else if decide (h = go "bad") then
    Some (Join [go "## 2.1.0"; go "## 99999999999999999999.0"] [newline])
  else None.

(** [g.Log] gives the most recent commit first. *)
Definition history_log : list ChangeList :=
  [commit "c3"; commit "c2"; commit "c1"].

Definition history_repo : repo :=
  {| mainBranch := Some (go "main");
     versionStyle := {| Prefix := go "release-"; OmitPatch := false |};
     branches := ∅; tags := ∅; releases := ∅;
     missingBranches := {[ v2_1_0 ]}; missingTags := {[ v2_1_0 ]};
     missingReleases := ∅ |}.

Definition history_start : scanState :=
  {| s_missingBranches := {[ v2_1_0 ]}; s_missingTags := {[ v2_1_0 ]};
     branchesToCreate := []; tagsToCreate := []; errs := [] |}.

(** The order of the versions with their flavors: first the numbers, then
    the bytes of the flavors. *)
Definition compare4 (a b : Version) : comparison :=
  match compare3 (triple a) (triple b) with
  | Eq => strcmp (Flavor a) (Flavor b)
  | c => c
  end.

(** [a] is not before [b] in the order with flavors. *)
Definition notBefore (a b : Version) : Prop := GreaterEqualTo a b true = true.

(** A version that [Parse] can return: numbers of a 64-bit integer that are
    not negative, and a flavor of word characters. *)
Definition validVersion (v : Version) : Prop :=
  (0 ≤ Major v ≤ maxInt)%Z ∧ (0 ≤ Minor v ≤ maxInt)%Z ∧
  (0 ≤ Patch v ≤ maxInt)%Z ∧ Forall (λ a, is_word a = true) (Flavor v).

(** The parts of the text that [Format] gives. *)
Definition formattedPatch (s : Style) (v : Version) : option Z :=
  if negb (Patch v =? 0)%Z || negb (OmitPatch s) then Some (Patch v) else None.

Definition formattedFlavor (v : Version) : option gostring :=
  if negb (str_empty (Flavor v)) then Some (Flavor v) else None.

(** A pattern without capturing group. *)
Fixpoint groupless (r : regexp) : bool :=
  match r with
  | Grp _ _ => false
  | Cat r1 r2 | Alt r1 r2 => groupless r1 && groupless r2
  | Star r' => groupless r'
  | Eps | Cls _ | Bot | Eot => true
  end.

(** The text is a version string of the grammar, with these parts. *)
Definition versionParts (s p ma mi : gostring) (pa fl : option gostring) : Prop :=
  s = p ++ numbersText ma mi pa fl ∧ prefixOK p ∧
  some_of is_digit ma ∧ some_of is_digit mi ∧
  (∀ x, pa = Some x → some_of is_digit x) ∧
  (∀ f, fl = Some f → some_of is_word f).

(** The text is a version string of the grammar
    [PREFIX MAJOR.MINOR[.PATCH][-FLAVOR]]. *)
Definition isVersionText (s : gostring) : Prop :=
  ∃ p ma mi pa fl, versionParts s p ma mi pa fl.

(** The digits [ds] write a number that a Go int cannot hold. *)
Definition tooLarge (ds : gostring) : Prop :=
  some_of is_digit ds ∧ ∃ n, digits_value ds = Some n ∧ (maxInt < Z.of_N n)%Z.

(** ** Headings *)

Definition spaces (s : gostring) : Prop := Forall (λ a, is_space a = true) s.
Definition hashes (s : gostring) : Prop := Forall (λ a, is_hash a = true) s.

(** A date as the headings have it: YYYY-MM-DD. *)
Definition isDate (d : gostring) : Prop :=
  ∃ y1 y2 y3 y4 m1 m2 d1 d2,
    d = [y1; y2; y3; y4; "-"%char; m1; m2; "-"%char; d1; d2] ∧
    Forall (λ a, is_digit a = true) [y1; y2; y3; y4; m1; m2; d1; d2].

(** The line [l] is a heading with these parts: [pre], hashes then spaces;
    the version text [tok]; the spaces [sp]; the date [d] or nothing; and
    spaces up to the end of the line. *)
Definition headingParts (l pre tok sp d : gostring) : Prop :=
  (∃ h s, pre = h ++ s ∧ hashes h ∧ spaces s) ∧
  isVersionText tok ∧ spaces sp ∧ (d = [] ∨ isDate d) ∧
  ∃ tr, spaces tr ∧ l = pre ++ tok ++ sp ++ d ++ tr.

(** The line is a heading: [changesVersionRE] matches it. *)
Definition isHeading (l : gostring) : Prop :=
  is_Some (FindStringSubmatch changesVersionRE l).

(** What [parse] makes of the line with the index [i]: nothing when the
    line is no heading, otherwise an error or an entry. *)
Definition entryOf (i : Z) (l : gostring) : option (error + version) :=
  match FindStringSubmatch changesVersionRE l with
  | None => None
  | Some m =>
      Some match Parse (sub m 2) with
           | inl err => inl (ErrOnLine err i)
           | inr v =>
               inr {| ver := v; line := i + 1; prefix := sub m 1;
                      style := default {| Prefix := []; OmitPatch := false |}
                                       (ParseStyle (sub m 2));
                      sep := sub m 3; date := sub m 4 |}
           end
  end.

(** The entries of the lines [ls], the first of which has the index [i],
    or the error of the first heading that has one. *)
Fixpoint entriesFrom (i : Z) (ls : list gostring) : error + list version :=
  match ls with
  | [] => inr []
  | l :: rest =>
      match entryOf i l with
      | None => entriesFrom (i + 1) rest
      | Some (inl e) => inl e
      | Some (inr x) =>
          match entriesFrom (i + 1) rest with
          | inl e => inl e
          | inr xs => inr (x :: xs)
          end
      end
  end.

(** What may follow a version text in a heading: nothing, or a space. *)
Definition tokenEnd (rest : gostring) : Prop :=
  match rest with [] => True | a :: _ => a = " "%char end.


(** The lines of the notes of the entry [x], which [rest] follow: those
    after its heading, up to the next heading or to the end of the
    document. *)
Definition notesOf (c : Content) (x : version) (rest : list version)
    : list gostring :=
  match rest with
  | y :: _ => between c x y
  | [] => drop (Z.to_nat (line x)) (lines c)
  end.

(** The conditions under which [Validate] has nothing to report. *)
Definition wellFormed (c : Content) (isDevelopmentBranch : bool) : Prop :=
  versions c ≠ [] ∧
  (isDevelopmentBranch = true → Flavor (CurrentVersion c) ≠ []) ∧
  Forall (λ x, Flavor (ver x) = []) (tail (versions c)) ∧
  Forall (λ p, GreaterThan (ver p.1) (ver p.2) false = true)
         (adjacent (versions c)).

(** The entry [x], its heading [k] lines further down. *)
Definition shiftEntry (k : Z) (x : version) : version :=
  {| ver := ver x; line := line x + k; prefix := prefix x; style := style x;
     sep := sep x; date := date x |}.

(** The entries of the content are those of its lines. *)
Definition parsed (c : Content) : Prop :=
  entriesFrom 0 (lines c) = inr (versions c).

(** The style that [ParseStyle] finds in the text of a version formatted
    in the style [st]: the patch digit is left out only if it is 0. *)
Definition styleOfFormat (st : Style) (v : Version) : Style :=
  {| Prefix := Prefix st; OmitPatch := OmitPatch st && (Patch v =? 0)%Z |}.

(** The fields of an entry are those of a heading. *)
Definition entryOK (x : version) : Prop :=
  (∃ h s, prefix x = h ++ s ∧ hashes h ∧ spaces s) ∧
  prefixOK (Prefix (style x)) ∧ spaces (sep x) ∧
  (date x = [] ∨ isDate (date x)).

(** The topmost entry [top] after [AdjustCurrentVersion]. *)
Definition adjusted (top : version) (v : Version) (today : gostring) : version :=
  {| ver := v; line := line top; prefix := prefix top; style := style top;
     sep := if str_empty (sep top) then go "  " else sep top; date := today |}.

(** The entry with the style that its text has. *)
Definition restyled (x : version) : version :=
  {| ver := ver x; line := line x; prefix := prefix x;
     style := styleOfFormat (style x) (ver x); sep := sep x; date := date x |}.

(** The heading that [AddNewVersion] writes for the version [v]: in the
    manner of the topmost heading if there is one. *)
Definition newHeading (c : Content) (v : Version) (t : option gostring)
    : version :=
  match versions c with
  | existing :: _ =>
      {| ver := v; line := 0; prefix := prefix existing;
         style := style existing; sep := sep existing; date := default [] t |}
  | [] =>
      {| ver := v; line := 0; prefix := [];
         style := {| Prefix := []; OmitPatch := false |};
         sep := match t with Some _ => go "  " | None => [] end;
         date := default [] t |}
  end.

(** Where [AddNewVersion] puts the new heading: the index of the topmost
    heading, or the end of the document. *)
Definition insertAt (c : Content) : nat :=
  match versions c with
  | top :: _ => Z.to_nat (line top - 1)
  | [] => length (lines c)
  end.

(** The lines of the content have the entries [olds], and the topmost
    entry of the content stands on the line of the first of them, with the
    fields of a heading. *)
Definition readAs (c : Content) (olds : list version) : Prop :=
  entriesFrom 0 (lines c) = inr olds ∧
  match versions c, olds with
  | [], [] => True
  | x :: _, y :: _ => line x = line y ∧ entryOK x
  | _, _ => False
  end.

(** The conditions of [wellFormed] on the versions of the entries. *)
Definition okVersions (isDevelopmentBranch : bool) (vs : list Version) : Prop :=
  match vs with
  | [] => False
  | top :: rest =>
      (isDevelopmentBranch = true → Flavor top ≠ []) ∧
      Forall (λ x, Flavor x = []) rest ∧
      Sorted (λ a b, GreaterThan a b false = true) (top :: rest)
  end.

(** The number of names whose style has the prefix [q]. *)
Definition prefixCount (q : gostring) (names : list gostring) : nat :=
  length (filter (λ n, Prefix <$> ParseStyle n = Some q) names).

(** The error that the scan records for the commit, if any. *)
Definition failureOf (gitShow : Hash → option gostring) (cl : ChangeList)
    : option scanError :=
  match gitShow (cl_Hash cl) with
  | None => Some (FailedToRead (cl_Hash cl))
  | Some content =>
      match Read content with
      | inl e => Some (FailedToParse (cl_Hash cl) e)
      | inr _ => None
      end
  end.

(** The set of versions that [validate] has found missing, for branches or
    for tags. *)
Definition missingIn (tags : bool) (r : repo) : Set_ :=
  if tags then missingTags r else missingBranches r.

(** The day of the example. *)
Definition today_doc : gostring := go "2020-03-01".

(** A release branch for the major version 1 with the document of the main
    branch, and a state of [validate] before its loop. *)
Definition release_branch : branch :=
  {| b_name := go "release-1.x.x"; b_sha := []; releaseVersion := Some 1%Z;
     b_changes := main_content; changesPath := go "CHANGES"; problems := [] |}.

Definition validation_start : validation :=
  {| v_missingBranches := ∅; v_missingTags := ∅; v_missingReleases := ∅;
     v_branches := ∅; v_problems := [] |}.

(** * Properties *)

(** ** Comparison of versions *)

Lemma strcmp_refl (a : gostring) : strcmp a a = Eq.
Proof. induction a as [|x a IH]; simpl; [done|]. by rewrite N.compare_refl. Qed.

Lemma strcmp_antisym (a b : gostring) : strcmp b a = CompOpp (strcmp a b).
Proof.
  revert b; induction a as [|x a IH]; intros [|y b]; simpl; try done.
  rewrite (N.compare_antisym (byte_val x) (byte_val y)).
  destruct (byte_val x ?= byte_val y)%N; simpl; auto.
Qed.

Lemma str_empty_true (a : gostring) : str_empty a = true ↔ a = [].
Proof. by destruct a. Qed.

Lemma str_empty_false (a : gostring) : str_empty a = false ↔ a ≠ [].
Proof. by destruct a. Qed.

Lemma compare3_Eq (x y : Z * Z * Z) : compare3 x y = Eq ↔ x = y.
Proof.
  destruct x as [[a1 b1] c1], y as [[a2 b2] c2]; simpl.
  destruct (Z.compare_spec a1 a2), (Z.compare_spec b1 b2),
    (Z.compare_spec c1 c2); split; intros; simplify_eq; try done; lia.
Qed.

Lemma Compare_triple (a b : Version) (cf : bool) :
  triple a ≠ triple b → Compare a b cf = sign (compare3 (triple a) (triple b)).
Proof.
  intros Hne. unfold Compare, triple in *; simpl.
  destruct (Z.compare_spec (Major a) (Major b)) as [E1|L1|G1].
  2:{ by rewrite (proj2 (Z.ltb_lt _ _) L1). }
  2:{ rewrite (proj2 (Z.ltb_ge _ _)) by lia.
      by rewrite (proj2 (Z.gtb_lt _ _)) by lia. }
  rewrite E1, Z.ltb_irrefl, Z.gtb_ltb, Z.ltb_irrefl.
  destruct (Z.compare_spec (Minor a) (Minor b)) as [E2|L2|G2].
  2:{ by rewrite (proj2 (Z.ltb_lt _ _) L2). }
  2:{ rewrite (proj2 (Z.ltb_ge _ _)) by lia.
      by rewrite (proj2 (Z.gtb_lt _ _)) by lia. }
  rewrite E2, Z.ltb_irrefl, Z.gtb_ltb, Z.ltb_irrefl.
  destruct (Z.compare_spec (Patch a) (Patch b)) as [E3|L3|G3].
  - congruence.
  - by rewrite (proj2 (Z.ltb_lt _ _) L3).
  - rewrite (proj2 (Z.ltb_ge _ _)) by lia.
    by rewrite (proj2 (Z.gtb_lt _ _)) by lia.
Qed.

Lemma Compare_same_triple (a b : Version) (cf : bool) :
  triple a = triple b →
  Compare a b cf =
    (if cf then
       if str_empty (Flavor a) && negb (str_empty (Flavor b)) then -1
       else if negb (str_empty (Flavor a)) && str_empty (Flavor b) then 1
       else sign (strcmp (Flavor a) (Flavor b))
     else 0)%Z.
Proof.
  intros [= E1 E2 E3]. unfold Compare. rewrite E1, E2, E3.
  rewrite !Z.gtb_ltb, !Z.ltb_irrefl. destruct cf; [|done].
  unfold str_lt. rewrite (strcmp_antisym (Flavor a) (Flavor b)).
  destruct (str_empty (Flavor a)), (str_empty (Flavor b)),
    (strcmp (Flavor a) (Flavor b)); done.
Qed.

(** C1, as the code has it: at equal (major, minor, patch) an empty flavor is
    strictly less than any non-empty flavor under flavor-aware comparison,
    two non-empty flavors are ordered bytewise lexicographically, identical
    flavors are equal; unequal triples are ordered numerically and
    lexicographically, whatever the flavors and the mode; without flavor
    comparison equal triples are equal. *)
Theorem Compare_order (a b : Version) :
  (triple a ≠ triple b →
     compare3 (triple a) (triple b) ≠ Eq ∧
     ∀ cf, Compare a b cf = sign (compare3 (triple a) (triple b))) ∧
  (triple a = triple b →
     Compare a b false = 0%Z ∧
     (Flavor a = [] → Flavor b ≠ [] →
        Compare a b true = (-1)%Z ∧ Compare b a true = 1%Z) ∧
     (Flavor a ≠ [] → Flavor b ≠ [] →
        Compare a b true = sign (strcmp (Flavor a) (Flavor b))) ∧
     (Flavor a = Flavor b → Compare a b true = 0%Z)).
Proof.
  split.
  - intros Hne. split; [by rewrite compare3_Eq|].
    intros cf. by apply Compare_triple.
  - intros Heq. split; [by rewrite Compare_same_triple|].
    split; [|split].
    + intros Ha Hb. rewrite !Compare_same_triple by done.
      apply str_empty_true in Ha. apply str_empty_false in Hb.
      by rewrite Ha, Hb.
    + intros Ha Hb. rewrite Compare_same_triple by done.
      apply str_empty_false in Ha, Hb. by rewrite Ha, Hb.
    + intros Hf. rewrite Compare_same_triple by done.
      rewrite Hf, strcmp_refl. by destruct (str_empty (Flavor b)).
Qed.

Lemma Compare_order_witness :
  Compare v2_2_1 v2_2_1_dev true = (-1)%Z ∧ Compare v2_2_1_dev v2_2_1 true = 1%Z.
Proof.
  destruct (Compare_order v2_2_1 v2_2_1_dev) as [_ H].
  destruct (H eq_refl) as (_ & H1 & _). by apply H1.
Defined.

(** The release 2.2.1 is not greater than 2.2.1-dev under flavor-aware
    comparison: it is less. *)
Lemma Compare_empty_flavor_is_less :
  triple v2_2_1 = triple v2_2_1_dev ∧ Flavor v2_2_1 = [] ∧
  Flavor v2_2_1_dev ≠ [] ∧
  ¬ (Compare v2_2_1 v2_2_1_dev true > 0)%Z ∧
  GreaterThan v2_2_1 v2_2_1_dev true = false.
Proof. by vm_compute. Qed.

(** ** Sets of versions *)

Lemma foldl_Add (l : List) (s : Set_) : foldl Add s l = list_to_set l ∪ s.
Proof.
  revert s; induction l as [|v l IH]; intros s; simpl.
  - set_solver.
  - rewrite IH. unfold Add. set_solver.
Qed.

Lemma ListSet_spec (l : List) : ListSet l = list_to_set l.
Proof. unfold ListSet. rewrite foldl_Add. set_solver. Qed.

Lemma Clone_id (s : Set_) : Clone s = s.
Proof.
  unfold Clone. rewrite foldl_Add. apply set_eq. intros v.
  rewrite elem_of_union, elem_of_list_to_set, elem_of_elements. set_solver.
Qed.

Lemma Union_loop (s : Set_) (l : List) (out : Set_) :
  foldl (λ out v, if Contains s v then Add out v else out) out l
  = out ∪ (list_to_set l ∩ s).
Proof.
  revert out; induction l as [|v l IH]; intros out; simpl.
  - set_solver.
  - rewrite IH. unfold Contains, Add. case_bool_decide; set_solver.
Qed.

Lemma Union_inter (s o : Set_) : Union s o = s ∩ o.
Proof.
  unfold Union. rewrite Union_loop. apply set_eq. intros v.
  rewrite elem_of_union, !elem_of_intersection, elem_of_list_to_set,
    elem_of_elements. set_solver.
Qed.

(** C10: [Set.Union] returns the intersection of the two sets: a version is
    in the result exactly when both sets contain it. *)
Theorem Union_is_intersection (s o : Set_) :
  Union s o = s ∩ o ∧
  (∀ v, v ∈ Union s o ↔ v ∈ s ∧ v ∈ o) ∧
  (∀ v, v ∈ s → v ∉ o → v ∉ Union s o) ∧
  (∀ v, v ∉ s → v ∈ o → v ∉ Union s o).
Proof. rewrite Union_inter. set_solver. Qed.

Lemma Union_is_intersection_witness :
  v2_2_1 ∉ Union {[ v2_2_1 ]} {[ v2_2_1_dev ]}.
Proof.
  destruct (Union_is_intersection {[ v2_2_1 ]} {[ v2_2_1_dev ]})
    as (_ & _ & H & _).
  apply H.
  - by apply elem_of_singleton.
  - rewrite elem_of_singleton. discriminate.
Defined.

Lemma Sort_Permutation (l : List) : Sort l ≡ₚ l.
Proof. apply merge_sort_Permutation. Qed.

Lemma elem_of_SetList (s : Set_) (v : Version) : v ∈ SetList s ↔ v ∈ s.
Proof. unfold SetList. by rewrite Sort_Permutation, elem_of_elements. Qed.

Lemma NoDup_SetList (s : Set_) : NoDup (SetList s).
Proof. unfold SetList. rewrite Sort_Permutation. apply NoDup_elements. Qed.

(** ** The change-log document *)

Lemma Split_nonempty (s : gostring) (sep : ascii) : Split s sep ≠ [].
Proof. destruct s as [|a s]; simpl; [done|]. repeat case_match; done. Qed.

Lemma Join_cons (e : gostring) (rest : list gostring) (sep : gostring) :
  rest ≠ [] → Join (e :: rest) sep = e ++ sep ++ Join rest sep.
Proof. by destruct rest. Qed.

Lemma Join_Split (s : gostring) (sep : ascii) : Join (Split s sep) [sep] = s.
Proof.
  induction s as [|a s IH]; simpl; [done|].
  case_decide as Ha.
  - rewrite Join_cons by apply Split_nonempty. simpl. by rewrite IH, Ha.
  - pose proof (Split_nonempty s sep) as Hne.
    destruct (Split s sep) as [|l ls]; [done|].
    destruct ls as [|l' ls]; simpl in *; by rewrite <- IH.
Qed.

Lemma parse_lines_of (c c' : Content) : parse c = inr c' → lines c' = lines c.
Proof. unfold parse. case_match; intros; by simplify_eq. Qed.

(** C6: when [Read] succeeds, the document serializes to the text that was
    read; its lines are those of the text. *)
Theorem Read_String (text : gostring) (c : Content) :
  Read text = inr c →
  lines c = Split text newline ∧ changes.String c = text.
Proof.
  intros HR. apply parse_lines_of in HR as Hl; simpl in Hl.
  split; [done|]. unfold changes.String. rewrite Hl. apply Join_Split.
Qed.

(** ** Validation *)

Lemma orderLoop_NotGreater (next : version) (rest : list version) :
  List.filter isNotGreater (orderLoop next rest)
  = notGreater <$>
      List.filter (λ p, negb (GreaterThan (ver p.1) (ver p.2) false))
                  (zip (next :: rest) rest).
Proof.
  revert next; induction rest as [|curr rest IH]; intros next; [done|].
  cbn [orderLoop zip zip_with List.filter fst snd].
  rewrite !List.filter_app, IH.
  destruct (negb (str_empty _)), (negb (GreaterThan _ _ _)); done.
Qed.

Lemma GreaterThan_triple (a b : Version) :
  GreaterThan a b false = true ↔ compare3 (triple a) (triple b) = Gt.
Proof.
  unfold GreaterThan. destruct (decide (triple a = triple b)) as [E|N].
  - rewrite Compare_same_triple by done. rewrite E.
    rewrite (proj2 (compare3_Eq _ _) eq_refl). done.
  - rewrite Compare_triple by done.
    destruct (compare3 (triple a) (triple b)); done.
Qed.

(** C4, as the code has it: the non-monotonic-ordering findings of
    [Validate] are, in document order, one finding for each pair of adjacent
    entries whose earlier entry is not strictly greater than the later one
    when only (major, minor, patch) are compared, the flavors being ignored;
    each cites both versions and both line numbers. *)
Theorem Validate_order (c : Content) (isDevelopmentBranch : bool) :
  versions c ≠ [] →
  List.filter isNotGreater (Validate c isDevelopmentBranch)
  = notGreater <$>
      List.filter (λ p, negb (GreaterThan (ver p.1) (ver p.2) false))
                  (adjacent (versions c))
  ∧ ∀ p, GreaterThan (ver p.1) (ver p.2) false = true
         ↔ compare3 (triple (ver p.1)) (triple (ver p.2)) = Gt.
Proof.
  intros Hne. split; [|intros p; apply GreaterThan_triple].
  unfold Validate, adjacent. destruct (versions c) as [|top rest]; [done|].
  rewrite List.filter_app, orderLoop_NotGreater.
  by destruct (isDevelopmentBranch && _).
Qed.

Lemma Read_flavored_doc : Read flavored_doc = inr flavored_content.
Proof. by vm_compute. Qed.

Lemma Validate_order_witness :
  List.filter isNotGreater (Validate flavored_content false)
  = [NotGreater v1_0_0_b 1 v1_0_0_a 2].
Proof.
  destruct (Validate_order flavored_content false) as [H _]; [done|].
  rewrite H. by vm_compute.
Defined.

(** In the document of the two headings 1.0.0-b and 1.0.0-a the first entry
    is strictly greater than the second under flavor-aware comparison, and
    [Validate] reports the pair as not ordered. *)
Lemma Validate_ignores_flavor :
  Read flavored_doc = inr flavored_content ∧
  ver <$> versions flavored_content = [v1_0_0_b; v1_0_0_a] ∧
  GreaterThan v1_0_0_b v1_0_0_a true = true ∧
  NotGreater v1_0_0_b 1 v1_0_0_a 2 ∈ Validate flavored_content false.
Proof.
  split; [by vm_compute|]. split; [done|]. split; [by vm_compute|].
  vm_compute. apply list_elem_of_In. simpl. auto.
Qed.

(** ** Decimal numbers *)

Lemma string_of_uint_digits (d : Decimal.uint) :
  Forall (λ a, is_digit a = true)
    (String.list_ascii_of_string (NilEmpty.string_of_uint d)).
Proof. induction d; simpl; constructor; done. Qed.

Lemma decimal_digits (n : N) : some_of is_digit (decimal n).
Proof.
  split; [|apply string_of_uint_digits].
  unfold decimal. destruct n as [|p]; [done|]. simpl.
  pose proof (DecimalPos.Unsigned.to_uint_nonnil p).
  by destruct (Pos.to_uint p).
Qed.

Lemma digits_value_decimal (n : N) : digits_value (decimal n) = Some n.
Proof.
  pose proof (decimal_digits n) as [Hne _]. unfold digits_value.
  destruct (decimal n) eqn:E; [done|]. rewrite <- E. unfold decimal.
  rewrite String.string_of_list_ascii_of_string, NilEmpty.usu. simpl.
  by rewrite DecimalN.Unsigned.of_to.
Qed.

Lemma itoa_nonneg (z : Z) : (0 ≤ z)%Z → itoa z = decimal (Z.to_N z).
Proof. intros. unfold itoa. by rewrite (proj2 (Z.ltb_ge _ _)). Qed.

Lemma Atoi_itoa (z : Z) : (0 ≤ z ≤ maxInt)%Z → Atoi (itoa z) = Some z.
Proof.
  intros Hz. rewrite itoa_nonneg by lia.
  pose proof (decimal_digits (Z.to_N z)) as [Hne Hd].
  pose proof (digits_value_decimal (Z.to_N z)) as Hv.
  unfold Atoi. destruct (decimal (Z.to_N z)) as [|a ds]; [done|].
  apply Forall_cons in Hd as [Ha _].
  rewrite decide_False by (by intros ->).
  rewrite decide_False by (by intros ->).
  rewrite Hv. simpl. rewrite Z2N.id by lia.
  rewrite decide_True; [done|]. unfold minInt, maxInt in *. lia.
Qed.

(** ** The matcher on the version patterns *)

Lemma run_Cat r1 r2 pos s c k :
  run (Cat r1 r2) pos s c k = run r1 pos s c (λ pos' s' c', run r2 pos' s' c' k).
Proof. done. Qed.

Lemma run_Cls p a pos s c k :
  run (Cls p) pos (a :: s) c k = if p a then k (S pos) s c else None.
Proof. done. Qed.

Lemma run_Star r pos s c k :
  run (Star r) pos s c k = star (run r) (S (length s)) pos s c k.
Proof. done. Qed.

Lemma run_Grp i r pos s c k :
  run (Grp i r) pos s c k
  = run r pos s c (λ pos' s' c', k pos' s' (<[i := take (pos' - pos) s]> c')).
Proof. done. Qed.

Lemma run_Lit a pos s c k : run (Lit a) pos (a :: s) c k = k (S pos) s c.
Proof. simpl. by rewrite bool_decide_eq_true_2. Qed.

Lemma run_Lit_other a b pos s c k : b ≠ a → run (Lit a) pos (b :: s) c k = None.
Proof. intros. simpl. by rewrite bool_decide_eq_false_2. Qed.

Lemma run_Opt_taken r pos s c k m :
  run r pos s c k = Some m → run (Opt r) pos s c k = Some m.
Proof. intros H. simpl. by rewrite H. Qed.

Lemma run_Opt_skipped r pos s c k :
  run r pos s c k = None → run (Opt r) pos s c k = k pos s c.
Proof. intros H. simpl. by rewrite H. Qed.

(** Greedy repetition takes the whole run of the class when the rest of the
    pattern matches after it. *)
Lemma star_greedy p ws rest fuel pos c k m :
  Forall (λ a, p a = true) ws → stops p rest →
  length (ws ++ rest) < fuel →
  k (pos + length ws) rest c = Some m →
  star (run (Cls p)) fuel pos (ws ++ rest) c k = Some m.
Proof.
  revert fuel pos. induction ws as [|a ws IH]; intros fuel pos Hall Hstop Hfuel Hk.
  - destruct fuel as [|fuel]; [simpl in *; lia|].
    rewrite Nat.add_0_r in Hk. simpl.
    destruct rest as [|b rest]; simpl in *; [by rewrite Hk|].
    by rewrite Hstop, Hk.
  - destruct fuel as [|fuel]; [simpl in *; lia|].
    apply Forall_cons in Hall as [Ha Hall]. simpl. rewrite Ha.
    rewrite decide_True by lia.
    rewrite IH; [done|done|done|simpl in *; lia|].
    by rewrite Nat.add_succ_comm.
Qed.

(** Repetition fails when the rest of the pattern fails after every part of
    the run of the class. *)
Lemma star_none p ws rest fuel pos c k :
  Forall (λ a, p a = true) ws → stops p rest →
  (∀ i, i ≤ length ws → k (pos + i) (drop i ws ++ rest) c = None) →
  star (run (Cls p)) fuel pos (ws ++ rest) c k = None.
Proof.
  revert fuel pos. induction ws as [|a ws IH]; intros fuel pos Hall Hstop Hk.
  - specialize (Hk 0 (Nat.le_0_l _)). rewrite Nat.add_0_r in Hk. simpl in Hk.
    destruct fuel as [|fuel]; simpl; [done|].
    destruct rest as [|b rest]; simpl in *; [done|]. by rewrite Hstop.
  - pose proof (Hk 0 (Nat.le_0_l _)) as Hk0. rewrite Nat.add_0_r in Hk0.
    simpl in Hk0. destruct fuel as [|fuel]; simpl; [done|].
    apply Forall_cons in Hall as [Ha Hall]. rewrite Ha.
    rewrite decide_True by lia. rewrite IH; [done..|].
    intros i Hi. specialize (Hk (S i)). simpl in Hk.
    rewrite Nat.add_succ_comm. apply Hk. lia.
Qed.

Lemma run_Plus p ws rest pos c k m :
  some_of p ws → stops p rest →
  k (pos + length ws) rest c = Some m →
  run (Plus (Cls p)) pos (ws ++ rest) c k = Some m.
Proof.
  intros [Hne Hall] Hstop Hk. destruct ws as [|a ws]; [done|].
  apply Forall_cons in Hall as [Ha Hall].
  unfold Plus. rewrite run_Cat, <- app_comm_cons, run_Cls, Ha, run_Star.
  apply star_greedy; [done..|lia|].
  by rewrite Nat.add_succ_comm.
Qed.

Lemma run_Grp_Plus i p ws rest pos c k m :
  some_of p ws → stops p rest →
  k (pos + length ws) rest (<[i := ws]> c) = Some m →
  run (Grp i (Plus (Cls p))) pos (ws ++ rest) c k = Some m.
Proof.
  intros Hws Hstop Hk. rewrite run_Grp.
  apply run_Plus; [done..|].
  by rewrite Nat.add_sub', take_app_length.
Qed.

Ltac solve_length :=
  repeat first [rewrite length_app | progress simpl]; lia.

Lemma run_Alt r1 r2 pos s c k :
  run (Alt r1 r2) pos s c k
  = match run r1 pos s c k with Some m => Some m | None => run r2 pos s c k end.
Proof. done. Qed.

Lemma run_Eot_nil pos c k : run Eot pos [] c k = k pos [] c.
Proof. done. Qed.

Lemma search_first r n pos s m :
  run r pos s (replicate (S n) [])
      (λ pos' s' c', Some (<[0 := take (pos' - pos) s]> c')) = Some m →
  search r n pos s = Some m.
Proof. intros H. destruct s; simpl in *; by rewrite H. Qed.

Lemma run_flavorRE i fl pos c k m :
  (∀ f, fl = Some f → some_of is_word f) →
  k (pos + length (flavorText fl)) []
    (match fl with Some f => <[i := "-"%char :: f]> c | None => c end) = Some m →
  run (Cat (Opt (Grp i (Cat (Lit "-") (Plus (Cls is_word))))) Eot)
      pos (flavorText fl) c k = Some m.
Proof.
  intros Hfl Hk. destruct fl as [f|]; simpl flavorText in *.
  - rewrite run_Cat. apply run_Opt_taken. rewrite run_Grp, run_Cat, run_Lit.
    match goal with
    | |- run _ _ _ _ ?K = _ =>
        pose proof (run_Plus is_word f [] (S pos) c K m (Hfl _ eq_refl) I) as H
    end.
    rewrite app_nil_r in H. apply H. clear H. rewrite run_Eot_nil.
    replace (S pos + length f - pos) with (length ("-"%char :: f)).
    2:{ simpl. lia. }
    rewrite firstn_all. rewrite <- Hk. f_equal. simpl. lia.
  - simpl. by rewrite Nat.add_0_r in Hk.
Qed.

Lemma run_numbersRE g ma mi pa fl pos c k m :
  some_of is_digit ma → some_of is_digit mi →
  (∀ p, pa = Some p → some_of is_digit p) →
  (∀ f, fl = Some f → some_of is_word f) →
  k (pos + length (numbersText ma mi pa fl)) []
    (numbersCaps g ma mi pa fl c) = Some m →
  run (numbersRE g) pos (numbersText ma mi pa fl) c k = Some m.
Proof.
  intros Hma Hmi Hpa Hfl Hk. unfold numbersRE, numbersText, numbersCaps in *.
  rewrite run_Cat. apply run_Grp_Plus; [done|done|].
  rewrite run_Cat, run_Lit, run_Cat.
  apply run_Grp_Plus; [done|by destruct pa, fl|].
  rewrite run_Cat. destruct pa as [p|]; simpl patchText in *.
  - apply run_Opt_taken. rewrite <- app_comm_cons, run_Cat, run_Lit.
    apply run_Grp_Plus; [by apply Hpa|by destruct fl|].
    apply run_flavorRE; [done|]. rewrite <- Hk. f_equal.
    solve_length.
  - rewrite run_Opt_skipped by (by destruct fl).
    apply run_flavorRE; [done|]. rewrite <- Hk. f_equal.
    solve_length.
Qed.

Lemma is_digit_word a : is_digit a = true → is_word a = true.
Proof. intros H. unfold is_word. by rewrite H. Qed.

Lemma prefix_word_fails ws rest pos c k :
  Forall (λ a, is_word a = true) ws →
  run (Cat (Star (Cls is_word)) (Lit "-")) pos (ws ++ "."%char :: rest) c k = None.
Proof.
  intros Hws. rewrite run_Cat, run_Star. apply star_none; [done|done|].
  intros i Hi. rewrite <- (take_drop i ws) in Hws.
  apply Forall_app in Hws as [_ Hws].
  destruct (drop i ws) as [|b l]; simpl app; apply run_Lit_other; [done|].
  apply Forall_cons in Hws as [Hb _]. by intros ->.
Qed.

Lemma run_prefixRE_none ma rest pos c k :
  some_of is_digit ma → run prefixRE pos (ma ++ "."%char :: rest) c k = None.
Proof.
  intros [Hne Hma]. unfold prefixRE. rewrite run_Alt, prefix_word_fails.
  - destruct ma as [|a ma]; [done|]. apply Forall_cons in Hma as [Ha _].
    apply run_Lit_other. by intros ->.
  - eapply Forall_impl; [done|]. apply is_digit_word.
Qed.

Lemma run_prefixRE p ma rest pos c k m :
  prefixOK p → p ≠ [] → some_of is_digit ma →
  k (pos + length p) (ma ++ "."%char :: rest) c = Some m →
  run prefixRE pos (p ++ ma ++ "."%char :: rest) c k = Some m.
Proof.
  intros Hp Hne [_ Hma] Hk. unfold prefixRE. rewrite run_Alt.
  assert (Forall (λ a, is_word a = true) ma) as Hw
    by (eapply Forall_impl; [done|]; apply is_digit_word).
  destruct Hp as [| |w Hw']; [done|..].
  - change (["v"%char] ++ ma ++ "."%char :: rest)
      with (("v"%char :: ma) ++ "."%char :: rest).
    rewrite prefix_word_fails by (by constructor).
    simpl app. rewrite run_Lit. by rewrite Nat.add_1_r in Hk.
  - rewrite run_Cat, run_Star, <- app_assoc.
    rewrite star_greedy with (m := m); [done|done|done|lia|].
    simpl app. rewrite run_Lit. rewrite <- Hk. f_equal.
    rewrite length_app. simpl. lia.
Qed.

Lemma run_Bot_start s c k : run Bot 0 s c k = k 0 s c.
Proof. done. Qed.

Section version_patterns.

Variables (p ma mi : gostring) (pa fl : option gostring).
Hypothesis Hp : prefixOK p.
Hypothesis Hma : some_of is_digit ma.
Hypothesis Hmi : some_of is_digit mi.
Hypothesis Hpa : ∀ x, pa = Some x → some_of is_digit x.
Hypothesis Hfl : ∀ f, fl = Some f → some_of is_word f.

(** [styleRE] on [prefix]MAJOR.MINOR[.PATCH][-FLAVOR]. *)
Lemma styleRE_match :
  ∃ m, FindStringSubmatch styleRE (p ++ numbersText ma mi pa fl) = Some m
       ∧ sub m 1 = p ∧ sub m 4 = default [] pa.
Proof using All.
  unfold FindStringSubmatch, styleRE; simpl re_syntax; simpl re_groups.
  destruct (decide (p = [])) as [->|Hne].
  - eexists. split.
    + apply search_first. rewrite run_Cat, run_Bot_start, run_Cat.
      simpl app. rewrite run_Opt_skipped
        by (rewrite run_Grp; by apply run_prefixRE_none).
      apply run_numbersRE; [done..|]. reflexivity.
    + unfold sub, numbersCaps. by destruct pa, fl.
  - eexists. split.
    + apply search_first. rewrite run_Cat, run_Bot_start, run_Cat.
      apply run_Opt_taken. rewrite run_Grp.
      apply run_prefixRE; [done..|].
      apply (run_numbersRE 2 ma mi pa fl); [done..|]. reflexivity.
    + unfold sub, numbersCaps.
      destruct pa, fl; simpl; by rewrite Nat.sub_0_r, take_app_length.
Qed.

(** [versionRE] on the same text. *)
Lemma versionRE_match :
  ∃ m, FindStringSubmatch versionRE (p ++ numbersText ma mi pa fl) = Some m
       ∧ sub m 1 = ma ∧ sub m 2 = mi ∧ sub m 3 = default [] pa
       ∧ sub m 4 = flavorText fl.
Proof using All.
  unfold FindStringSubmatch, versionRE; simpl re_syntax; simpl re_groups.
  destruct (decide (p = [])) as [->|Hne].
  - eexists. split.
    + apply search_first. rewrite run_Cat, run_Bot_start, run_Cat.
      simpl app. rewrite run_Opt_skipped by (by apply run_prefixRE_none).
      apply run_numbersRE; [done..|]. reflexivity.
    + unfold sub, numbersCaps. by destruct pa, fl.
  - eexists. split.
    + apply search_first. rewrite run_Cat, run_Bot_start, run_Cat.
      apply run_Opt_taken. apply run_prefixRE; [done..|].
      apply (run_numbersRE 1 ma mi pa fl); [done..|]. reflexivity.
    + unfold sub, numbersCaps. by destruct pa, fl.
Qed.

End version_patterns.

(** ** Formatting a parsed version *)

Lemma itoa_digits (z : Z) : (0 ≤ z)%Z → some_of is_digit (itoa z).
Proof. intros. rewrite itoa_nonneg by done. apply decimal_digits. Qed.

(** C5, as the code has it: a well-formed version string whose numbers are
    written in decimal without superfluous leading zeros and fit a 64-bit
    integer is parsed, its style is found, and formatting the parsed version
    under that style gives the string back. *)
Theorem Format_Parse_roundtrip (p : gostring) (major minor : Z)
    (patch : option Z) (flavor : option gostring) :
  prefixOK p →
  (0 ≤ major ≤ maxInt)%Z → (0 ≤ minor ≤ maxInt)%Z →
  (∀ x, patch = Some x → (0 ≤ x ≤ maxInt)%Z) →
  (∀ f, flavor = Some f → some_of is_word f) →
  let s := versionString p major minor patch flavor in
  let st := {| Prefix := p; OmitPatch := bool_decide (patch = None) |} in
  let v := {| Major := major; Minor := minor; Patch := default 0%Z patch;
              Flavor := default [] flavor |} in
  ParseStyle s = Some st ∧ Parse s = inr v ∧ Format st v = s.
Proof.
  intros Hp Hma Hmi Hpa Hfl s st v.
  assert (∀ x, itoa <$> patch = Some x → some_of is_digit x) as Hpa'.
  { intros x Hx. destruct patch as [z|]; simplify_eq/=.
    apply itoa_digits. by apply Hpa. }
  pose proof (itoa_digits major (proj1 Hma)) as Hd1.
  pose proof (itoa_digits minor (proj1 Hmi)) as Hd2.
  destruct (styleRE_match p _ _ _ flavor Hp Hd1 Hd2 Hpa' Hfl)
    as (m1 & Hm1 & Hs1 & Hs4).
  destruct (versionRE_match p _ _ _ flavor Hp Hd1 Hd2 Hpa' Hfl)
    as (m2 & Hm2 & Hv1 & Hv2 & Hv3 & Hv4).
  split; [|split].
  - unfold ParseStyle, s, versionString. rewrite Hm1, Hs1, Hs4.
    unfold st. destruct patch as [z|]; simpl; [|done].
    pose proof (itoa_digits z (proj1 (Hpa z eq_refl))) as [Hz _].
    by rewrite (proj2 (str_empty_false _) Hz).
  - unfold Parse, s, versionString. rewrite Hm2, Hv1, Hv2, Hv3, Hv4.
    rewrite !Atoi_itoa by done. unfold v.
    destruct patch as [z|]; simpl.
    + pose proof (itoa_digits z (proj1 (Hpa z eq_refl))) as [Hz _].
      rewrite (proj2 (str_empty_false _) Hz). simpl.
      rewrite Atoi_itoa by (by apply Hpa).
      destruct flavor; simpl; [|done]. by rewrite drop_0.
    + destruct flavor; simpl; [|done]. by rewrite drop_0.
  - unfold Format, s, st, v, versionString, numbersText. simpl.
    destruct patch as [z|], flavor as [f|]; simpl;
      rewrite ?orb_true_r;
      try (destruct (Hfl f eq_refl) as [Hf _];
           rewrite (proj2 (str_empty_false _) Hf));
      simpl; rewrite <- ?app_assoc; simpl; rewrite ?app_nil_r; done.
Qed.

Lemma Format_Parse_roundtrip_witness :
  let s := go "v2.3-dev" in
  ParseStyle s = Some {| Prefix := go "v"; OmitPatch := true |} ∧
  Parse s = inr {| Major := 2; Minor := 3; Patch := 0; Flavor := go "dev" |} ∧
  Format {| Prefix := go "v"; OmitPatch := true |}
         {| Major := 2; Minor := 3; Patch := 0; Flavor := go "dev" |} = s.
Proof.
  apply (Format_Parse_roundtrip (go "v") 2 3 None (Some (go "dev"))).
  - apply prefix_v.
  - by vm_compute.
  - by vm_compute.
  - intros x [=].
  - intros f [= <-]. split; [done|]. by repeat constructor.
Defined.

(** The string 1.02 is well formed and its minor number is read as 2: its
    format is 1.2.  A number that does not fit 64 bits is well formed and
    is not parsed. *)
Lemma Format_Parse_leading_zero :
  go "1.02" = [] ++ numbersText (go "1") (go "02") None None ∧
  prefixOK [] ∧ some_of is_digit (go "1") ∧ some_of is_digit (go "02") ∧
  ParseStyle (go "1.02") = Some {| Prefix := []; OmitPatch := true |} ∧
  Parse (go "1.02") = inr {| Major := 1; Minor := 2; Patch := 0; Flavor := [] |} ∧
  Format {| Prefix := []; OmitPatch := true |}
         {| Major := 1; Minor := 2; Patch := 0; Flavor := [] |} = go "1.2" ∧
  go "1.2" ≠ go "1.02" ∧
  Parse (go "1.99999999999999999999")
    = inl (BadMinor (go "99999999999999999999")).
Proof.
  split; [done|]. split; [constructor|].
  split; [split; [done|by repeat constructor]|].
  split; [split; [done|by repeat constructor]|].
  by vm_compute.
Qed.

(** ** What a match consumes *)

Lemma star_sound body (L : gostring → Prop) :
  (∀ pos s c k m, body pos s c k = Some m → consumes L s k m) →
  ∀ fuel pos s c k m,
    star body fuel pos s c k = Some m → consumes (star_lang L) s k m.
Proof.
  intros Hbody fuel. induction fuel as [|fuel IH]; intros pos s c k m H.
  - exists [], s, pos, c. split; [done|]. split; [constructor|done].
  - simpl in H.
    destruct (body pos s c _) as [m'|] eqn:Hb.
    + simplify_eq. apply Hbody in Hb as (s1 & s2 & pos' & c' & -> & Hs1 & Hk).
      case_decide; [|done].
      apply IH in Hk as (t1 & t2 & pos'' & c'' & -> & Ht1 & Hk).
      exists (s1 ++ t1), t2, pos'', c''. rewrite app_assoc.
      split; [done|]. split; [by constructor|done].
    + exists [], s, pos, c. split; [done|]. split; [constructor|done].
Qed.

Lemma run_sound r pos s c k m :
  run r pos s c k = Some m → consumes (lang r) s k m.
Proof.
  revert pos s c k m.
  induction r as [|p|r1 IH1 r2 IH2|r1 IH1 r2 IH2|r IH|i r IH| |];
    intros pos s c k m H.
  - by exists [], s, pos, c.
  - destruct s as [|a s]; [done|]. rewrite run_Cls in H.
    destruct (p a) eqn:Hp; [|done].
    exists [a], s, (S pos), c. split; [done|]. split; [by exists a|done].
  - rewrite run_Cat in H.
    apply IH1 in H as (s1 & s2 & pos' & c' & -> & Hs1 & H).
    apply IH2 in H as (t1 & t2 & pos'' & c'' & -> & Ht1 & H).
    exists (s1 ++ t1), t2, pos'', c''. rewrite app_assoc.
    split; [done|]. split; [by exists s1, t1|done].
  - rewrite run_Alt in H. destruct (run r1 pos s c k) as [m'|] eqn:H1.
    + simplify_eq. apply IH1 in H1 as (s1 & s2 & pos' & c' & -> & Hs1 & H).
      exists s1, s2, pos', c'. split; [done|]. split; [by left|done].
    + apply IH2 in H as (s1 & s2 & pos' & c' & -> & Hs1 & H).
      exists s1, s2, pos', c'. split; [done|]. split; [by right|done].
  - rewrite run_Star in H. by apply (star_sound (run r) (lang r)) in H.
  - rewrite run_Grp in H.
    apply IH in H as (s1 & s2 & pos' & c' & -> & Hs1 & H).
    by exists s1, s2, pos', (<[i := take (pos' - pos) (s1 ++ s2)]> c').
  - simpl in H. case_decide; [|done]. by exists [], s, pos, c.
  - destruct s; [|done]. by exists [], [], pos, c.
Qed.

Lemma search_sound r n pos s m :
  search r n pos s = Some m → ∃ s0 s1 s2, s = s0 ++ s1 ++ s2 ∧ lang r s1.
Proof.
  revert pos. induction s as [|a s IH]; intros pos H; simpl in H.
  - destruct (run r pos [] _ _) eqn:Hr; [|done].
    apply run_sound in Hr as (s1 & s2 & _ & _ & Hs & Hs1 & _).
    by exists [], s1, s2.
  - destruct (run r pos (a :: s) _ _) eqn:Hr.
    + apply run_sound in Hr as (s1 & s2 & _ & _ & Hs & Hs1 & _).
      by exists [], s1, s2.
    + apply IH in H as (s0 & s1 & s2 & -> & Hs1).
      by exists (a :: s0), s1, s2.
Qed.

(** A heading has a digit. *)
Lemma tokenRE_digit (s : gostring) :
  lang tokenRE s → Exists (λ a, is_digit a = true) s.
Proof.
  intros (s1 & s2 & -> & _ & (t1 & t2 & -> & Hd & _)).
  destruct Hd as (u1 & u2 & -> & (a & -> & Ha) & _).
  apply Exists_app. right. apply Exists_app. left. by left.
Qed.

Lemma heading_digit (l : gostring) (m : caps) :
  FindStringSubmatch changesVersionRE l = Some m →
  Exists (λ a, is_digit a = true) l.
Proof.
  intros H. apply search_sound in H as (s0 & s1 & s2 & -> & H).
  destruct H as (? & t & -> & _ & (g1 & t' & -> & _ & (tok & t'' & -> & Ht & _))).
  apply tokenRE_digit in Ht. rewrite !Exists_app. tauto.
Qed.

(** A line with a digit is not blank. *)
Lemma digit_val (a : ascii) :
  is_digit a = true ↔ (48 ≤ byte_val a ≤ 57)%N.
Proof.
  unfold is_digit, in_range. change (byte_val "0") with 48%N.
  change (byte_val "9") with 57%N.
  by rewrite andb_true_iff, !N.leb_le.
Qed.

Lemma space1_not_digit (a : ascii) :
  ascii_space (byte_val a) = true → ¬ is_digit a = true.
Proof.
  rewrite digit_val. unfold ascii_space.
  rewrite orb_true_iff, andb_true_iff, !N.leb_le, N.eqb_eq. lia.
Qed.

Lemma space2_not_digit (a b : ascii) :
  space2 (byte_val a) (byte_val b) = true →
  ¬ is_digit a = true ∧ ¬ is_digit b = true.
Proof.
  rewrite !digit_val. unfold space2.
  rewrite andb_true_iff, orb_true_iff, !N.eqb_eq. lia.
Qed.

Lemma space3_not_digit (a b c : ascii) :
  space3 (byte_val a) (byte_val b) (byte_val c) = true →
  ¬ is_digit a = true ∧ ¬ is_digit b = true ∧ ¬ is_digit c = true.
Proof.
  rewrite !digit_val. unfold space3.
  rewrite !orb_true_iff, !andb_true_iff, !orb_true_iff, !andb_true_iff,
    !N.leb_le, !N.eqb_eq. lia.
Qed.

Lemma isBlank_digit (l : gostring) :
  Exists (λ a, is_digit a = true) l → isBlank l = false.
Proof.
  remember (length l) as n eqn:Hn. assert (length l ≤ n) as Hle by lia.
  clear Hn. revert l Hle. induction n as [|n IH]; intros l Hle Hex.
  { destruct l; [by inversion Hex|simpl in Hle; lia]. }
  destruct l as [|a s1]; [by inversion Hex|]. simpl in Hle.
  apply Exists_cons in Hex. cbn [isBlank].
  destruct (ascii_space (byte_val a)) eqn:E1.
  { apply space1_not_digit in E1. apply IH; [lia|tauto]. }
  destruct s1 as [|b s2]; [done|]. simpl in Hle.
  rewrite Exists_cons in Hex.
  destruct (space2 (byte_val a) (byte_val b)) eqn:E2.
  { apply space2_not_digit in E2. apply IH; [lia|tauto]. }
  destruct s2 as [|c s3]; [done|]. simpl in Hle.
  rewrite Exists_cons in Hex.
  destruct (space3 (byte_val a) (byte_val b) (byte_val c)) eqn:E3; [|done].
  apply space3_not_digit in E3. apply IH; [lia|tauto].
Qed.

(** ** The entries of a document that was read *)

Lemma parse_lines_entries (i : Z) (ls : list gostring) (vs vs' : list version) :
  parse_lines i ls vs = inr vs' →
  ∃ new, vs' = vs ++ new ∧ Forall (entry_of i ls) new ∧
         StronglySorted line_lt new.
Proof.
  revert i vs. induction ls as [|l ls IH]; intros i vs H; simpl in H.
  - simplify_eq. exists []. rewrite app_nil_r. by repeat constructor.
  - assert (∀ x, entry_of (i + 1) ls x → entry_of i (l :: ls) x) as Hshift.
    { intros x (n & l' & Hx & Hl & Hh). exists (S n), l'.
      split; [lia|done]. }
    destruct (FindStringSubmatch changesVersionRE l) as [m|] eqn:Hm.
    + destruct (Parse (sub m 2)) as [e|v]; [done|].
      apply IH in H as (new & -> & Hnew & Hsorted).
      eexists (_ :: new). rewrite <- app_assoc. split; [done|]. split.
      * constructor; [|by eapply Forall_impl].
        exists 0, l. simpl. split; [lia|]. by rewrite Hm.
      * constructor; [done|]. eapply Forall_impl; [done|].
        intros x (n & _ & Hx & _). unfold line_lt. simpl. lia.
    + apply IH in H as (new & -> & Hnew & Hsorted).
      exists new. split; [done|]. split; [by eapply Forall_impl|done].
Qed.

Lemma Read_entries (text : gostring) (c : Content) :
  Read text = inr c →
  Forall (entry_of 0 (lines c)) (versions c) ∧
  StronglySorted line_lt (versions c).
Proof.
  intros H. unfold Read, parse in H. simpl in H.
  destruct (parse_lines _ _ _) as [|vs] eqn:Hp; [done|]. simplify_eq. simpl.
  by apply parse_lines_entries in Hp as (new & -> & ? & ?).
Qed.

(** ** Release notes *)

Lemma slice_of_nat {A} (l : list A) (a b : nat) :
  a ≤ b → b ≤ length l →
  slice l (Z.of_nat a) (Z.of_nat b) = Some (take (b - a) (drop a l)).
Proof.
  intros Hab Hb. unfold slice. rewrite decide_True by lia.
  by rewrite !Nat2Z.id.
Qed.

Lemma blankPrefix_le (ls : list gostring) : blankPrefix ls ≤ length ls.
Proof. induction ls as [|l ls IH]; simpl; [done|]. case_match; lia. Qed.

Lemma blankPrefix_stop (xs ys : list gostring) (h : gostring) :
  isBlank h = false → blankPrefix (xs ++ h :: ys) = blankPrefix xs.
Proof.
  intros Hh. induction xs as [|x xs IH]; simpl; [by rewrite Hh|].
  by rewrite IH.
Qed.

Lemma trimBlank_take_drop (ls : list gostring) :
  trimBlank ls
  = take (length ls - blankPrefix ls
          - blankPrefix (reverse (drop (blankPrefix ls) ls)))
         (drop (blankPrefix ls) ls).
Proof.
  unfold trimBlank, dropBlank.
  by rewrite drop_reverse, reverse_involutive, length_drop.
Qed.

Lemma trimBlank_id (ls : list gostring) :
  blankPrefix ls = 0 → blankPrefix (reverse ls) = 0 → trimBlank ls = ls.
Proof.
  intros H1 H2. unfold trimBlank, dropBlank.
  rewrite H1, drop_0, H2, drop_0. apply reverse_involutive.
Qed.

Lemma findNotes_top (v0 v1 : version) (rest : list version) :
  line v0 ≠ (-1)%Z →
  findNotes (v0 :: v1 :: rest) (ver v0) (-1) (-1) = (line v0, (line v1 - 1)%Z).
Proof.
  intros H. simpl. rewrite decide_True by done. by rewrite decide_True.
Qed.

Lemma notes_between (c : Content) (v0 v1 : version) (rest : list version)
    (pre block post : list gostring) (h : gostring) :
  versions c = v0 :: v1 :: rest →
  lines c = pre ++ block ++ h :: post →
  line v0 = len pre → line v1 = (len pre + len block + 1)%Z →
  isBlank h = false →
  CurrentVersionNotes c = Some (Join block [newline]) ∧
  ReleaseNotes c (ver v0) = Some (Join (trimBlank block) [newline], true).
Proof.
  intros Hvs Hls H0 H1 Hh. unfold len in *. split.
  - unfold CurrentVersionNotes. rewrite Hvs, Hls.
    destruct (decide (block = [])) as [->|Hne].
    + simpl in H1. rewrite decide_False by lia. done.
    + assert (0 < length block) by (destruct block; [done|simpl; lia]).
      rewrite decide_True by lia.
      replace (line v0 + 1 - 1)%Z with (Z.of_nat (length pre)) by lia.
      replace (line v1 - 1)%Z with (Z.of_nat (length pre + length block)) by lia.
      rewrite slice_of_nat; [|lia|solve_length].
      rewrite drop_app_length, Nat.add_sub', take_app_length. done.
  - unfold ReleaseNotes. rewrite Hvs, findNotes_top by lia.
    rewrite decide_False by lia.
    set (bp := blankPrefix block).
    pose proof (blankPrefix_le block) as Hbp. fold bp in Hbp.
    set (b1 := drop bp block).
    set (t := blankPrefix (reverse b1)).
    assert (t ≤ length block - bp) as Ht.
    { unfold t. etrans; [apply blankPrefix_le|].
      unfold b1. by rewrite length_reverse, length_drop. }
    assert (skipBlankForward (lines c) (line v0)
            = Some (Z.of_nat (length pre + bp))) as ->.
    { unfold skipBlankForward, len. rewrite Hls, H0.
      rewrite decide_True by solve_length. rewrite decide_True by lia.
      rewrite Nat2Z.id, drop_app_length, blankPrefix_stop by done.
      f_equal. fold bp. lia. }
    simpl. rewrite decide_False by lia.
    assert (slice (lines c) (Z.of_nat (length pre + bp))
              (Z.of_nat (length pre + length block)) = Some b1) as Hb1.
    { rewrite Hls, slice_of_nat; [|lia|solve_length]. f_equal.
      rewrite drop_app_add, drop_app_le by done. fold b1.
      apply take_app_length'. unfold b1. rewrite length_drop. lia. }
    assert (skipBlankBackward (lines c) (Z.of_nat (length pre + bp))
              (line v1 - 1)
            = Some (Z.of_nat (length pre + length block - t))) as ->.
    { unfold skipBlankBackward.
      replace (line v1 - 1)%Z with (Z.of_nat (length pre + length block)) by lia.
      case_decide as Hgt.
      - rewrite Hb1. f_equal. fold t. lia.
      - f_equal. assert (length b1 = 0) as Hz
          by (unfold b1; rewrite length_drop; lia).
        assert (t = 0) as ->; [|lia].
        unfold t. destruct b1; [done|discriminate]. }
    simpl. rewrite Hls, slice_of_nat; [|lia|solve_length]. simpl.
    do 3 f_equal. rewrite trimBlank_take_drop. fold bp b1 t.
    rewrite drop_app_add, drop_app_le by done. fold b1.
    rewrite take_app_le by (unfold b1; rewrite length_drop; lia).
    f_equal. lia.
Qed.

(** C7, as the code has it: in a document that was read and has at least
    two entries, [CurrentVersionNotes] returns the lines strictly between the
    topmost heading and the next heading, joined by newlines, blank lines
    included; [ReleaseNotes] of the topmost version returns these lines
    without the blank lines at both ends.  The two agree when the lines
    neither start nor end with a blank line. *)
Theorem CurrentVersionNotes_between (text : gostring) (c : Content)
    (v0 v1 : version) (rest : list version) :
  Read text = inr c →
  versions c = v0 :: v1 :: rest →
  let block := between c v0 v1 in
  CurrentVersionNotes c = Some (Join block [newline]) ∧
  ReleaseNotes c (ver v0) = Some (Join (trimBlank block) [newline], true) ∧
  (blankPrefix block = 0 → blankPrefix (reverse block) = 0 →
   ReleaseNotes c (ver v0) = Some (Join block [newline], true)).
Proof.
  intros HR Hvs block.
  apply Read_entries in HR as [Hent Hsorted]. rewrite Hvs in Hent, Hsorted.
  apply Forall_cons in Hent as [(n0 & h0 & Hl0 & Hn0 & _) Hent].
  apply Forall_cons in Hent as [(n1 & h1 & Hl1 & Hn1 & [m Hm]) _].
  apply StronglySorted_inv in Hsorted as [_ Hlt].
  apply Forall_cons in Hlt as [Hlt _]. unfold line_lt in Hlt.
  assert (n0 < n1) as Hn by lia.
  assert (block = take (n1 - S n0) (drop (S n0) (lines c))) as Hblock.
  { unfold block, between. f_equal; [lia|]. f_equal. lia. }
  assert (drop (S n0) (lines c) !! (n1 - S n0) = Some h1) as Hd.
  { rewrite lookup_drop. rewrite <- Hn1. f_equal. lia. }
  apply lookup_lt_Some in Hn0 as Hlen0.
  apply lookup_lt_Some in Hd as Hlen1.
  assert (isBlank h1 = false) as Hh
    by (eapply isBlank_digit, heading_digit; done).
  destruct (notes_between c v0 v1 rest (take (S n0) (lines c)) block
              (drop (S (n1 - S n0)) (drop (S n0) (lines c))) h1)
    as [HC HN]; try done.
  - rewrite Hblock, take_drop_middle by done. by rewrite take_drop.
  - unfold len. rewrite length_take_le by lia. lia.
  - unfold len. rewrite Hblock, !length_take_le by lia. lia.
  - split; [done|]. split; [done|]. intros H1 H2.
    by rewrite HN, trimBlank_id.
Qed.

Lemma CurrentVersionNotes_between_witness :
  CurrentVersionNotes notes_content
  = Some (Join (between notes_content notes_top notes_next) [newline]).
Proof.
  apply (CurrentVersionNotes_between notes_doc notes_content
           notes_top notes_next []); by vm_compute.
Defined.

(** On the document of the example [CurrentVersionNotes] keeps the blank
    line before the next heading, and [ReleaseNotes] of the topmost version
    does not. *)
Lemma CurrentVersionNotes_not_trimmed :
  Read notes_doc = inr notes_content ∧
  CurrentVersion notes_content = v2_2_1_dev ∧
  CurrentVersionNotes notes_content
  = Some (Join [go "xxx"; go "Notes about the 2.2.1 patch release";
                go "yyy"; []] [newline]) ∧
  ReleaseNotes notes_content v2_2_1_dev
  = Some (Join [go "xxx"; go "Notes about the 2.2.1 patch release";
                go "yyy"] [newline], true) ∧
  CurrentVersionNotes notes_content
  ≠ fst <$> ReleaseNotes notes_content v2_2_1_dev.
Proof. by vm_compute. Qed.

Lemma Read_String_witness :
  lines notes_content = Split notes_doc newline ∧
  changes.String notes_content = notes_doc.
Proof. apply (Read_String notes_doc notes_content). by vm_compute. Defined.

(** ** Style inference and missing artifacts *)

Lemma tallyStyles_app (xs ys : list gostring) (st : gmap gostring Z * bool) :
  tallyStyles (xs ++ ys) st = tallyStyles ys (tallyStyles xs st).
Proof. unfold tallyStyles. by rewrite foldl_app. Qed.

Lemma tallyStyles_usesPatch (names : list gostring) (pu : gmap gostring Z)
    (up : bool) :
  (tallyStyles names (pu, up)).2
  = up && forallb (λ n, negb (omitsPatch n)) names.
Proof.
  revert pu up. induction names as [|n names IH]; intros pu up; simpl.
  - by rewrite andb_true_r.
  - unfold omitsPatch at 1. destruct (ParseStyle n) as [s|]; rewrite IH.
    + destruct (OmitPatch s), up; done.
    + done.
Qed.

Lemma tallyStyles_none (names : list gostring) (st : gmap gostring Z * bool) :
  Forall (λ n, ParseStyle n = None) names → tallyStyles names st = st.
Proof.
  intros H. revert st. induction H as [|n names Hn _ IH]; intros [pu up]; simpl.
  - done.
  - rewrite Hn. apply IH.
Qed.

Lemma forallb_false_elem {A} (f : A → bool) (l : list A) :
  forallb f l = false ↔ ∃ x, x ∈ l ∧ f x = false.
Proof.
  induction l as [|a l IH]; simpl.
  - split; [done|]. intros (x & Hx & _). by apply not_elem_of_nil in Hx.
  - rewrite andb_false_iff, IH. setoid_rewrite elem_of_cons. naive_solver.
Qed.

Section map_range_facts.

Variable enum : ∀ A : Type, gmap gostring A → list (gostring * A).
Hypothesis enum_perm : ∀ A (m : gmap gostring A), enum A m ≡ₚ map_to_list m.

Lemma enum_names (r : repo) :
  (b_name ∘ snd <$> enum _ (branches r))
  ++ (t_name ∘ snd <$> enum _ (tags r))
  ++ (r_name ∘ snd <$> enum _ (releases r))
  ≡ₚ artifactNames r.
Proof using enum_perm. unfold artifactNames. by rewrite !enum_perm. Qed.

Lemma determineVersionStyle_tally (r : repo) :
  ∃ pu up,
    tallyStyles ((b_name ∘ snd <$> enum _ (branches r))
                 ++ (t_name ∘ snd <$> enum _ (tags r))
                 ++ (r_name ∘ snd <$> enum _ (releases r))) (∅, true)
    = (pu, up) ∧
    versionStyle (determineVersionStyle enum r)
    = {| Prefix := (mostCommon (enum _ pu)).1; OmitPatch := negb up |}.
Proof.
  unfold determineVersionStyle. rewrite !tallyStyles_app.
  destruct (tallyStyles _ (tallyStyles _ (tallyStyles _ _))) as [pu up].
  exists pu, up. split; [done|]. by destruct (mostCommon _).
Qed.

(** C3, as the code has it: the inferred style omits the patch digit
    exactly when at least one name that parses under the style grammar
    omitted it, and includes it when every parsed name carried it; when no
    name parses, the inferred style is the prefix "release-" with the patch
    digit included. *)
Theorem determineVersionStyle_OmitPatch (r : repo) :
  let st := versionStyle (determineVersionStyle enum r) in
  (OmitPatch st = true ↔
     ∃ name s, name ∈ artifactNames r ∧ ParseStyle name = Some s
               ∧ OmitPatch s = true) ∧
  ((∀ name, name ∈ artifactNames r → ParseStyle name = None) →
     st = {| Prefix := go "release-"; OmitPatch := false |}).
Proof using enum_perm.
  intros st. destruct (determineVersionStyle_tally r) as (pu & up & Ht & Hst).
  unfold st. rewrite Hst. simpl. split.
  - match type of Ht with
    | tallyStyles ?ns _ = _ =>
        pose proof (tallyStyles_usesPatch ns ∅ true) as Hup
    end.
    rewrite Ht in Hup. simpl in Hup. rewrite Hup, negb_true_iff.
    rewrite forallb_false_elem. setoid_rewrite enum_names.
    split.
    + intros (n & Hin & Ho). unfold omitsPatch in Ho.
      destruct (ParseStyle n) as [s|] eqn:Hs; [|done].
      exists n, s. by rewrite negb_false_iff in Ho.
    + intros (n & s & Hin & Hs & Ho). exists n. split; [done|].
      unfold omitsPatch. by rewrite Hs, Ho.
  - intros Hnone. rewrite tallyStyles_none in Ht.
    + simplify_eq. pose proof (enum_perm Z ∅) as Hp.
      rewrite map_to_list_empty in Hp. apply Permutation_nil_r in Hp.
      by rewrite Hp.
    + apply Forall_forall. intros n Hn. apply Hnone.
      by rewrite <- enum_names.
Qed.

End map_range_facts.

Lemma enum_list_perm A (m : gmap gostring A) : enum_list A m ≡ₚ map_to_list m.
Proof. done. Qed.

Lemma artifactNames_mixed_repo :
  artifactNames mixed_repo ≡ₚ [go "v1.2"; go "v1.2.3"].
Proof.
  unfold artifactNames, mixed_repo; simpl.
  rewrite !map_to_list_empty, map_to_list_insert by done.
  by rewrite map_to_list_singleton.
Qed.

Lemma determineVersionStyle_OmitPatch_witness :
  OmitPatch (versionStyle (determineVersionStyle enum_list mixed_repo)) = true.
Proof.
  apply (determineVersionStyle_OmitPatch enum_list enum_list_perm mixed_repo).
  exists (go "v1.2"), {| Prefix := go "v"; OmitPatch := true |}.
  split; [|by vm_compute].
  rewrite artifactNames_mixed_repo. apply elem_of_cons. by left.
Defined.

(** With the tags v1.2 and v1.2.3 one parsed name carries the patch digit
    and one does not: the inferred style omits the patch digit. *)
Lemma determineVersionStyle_mixed :
  artifactNames mixed_repo ≡ₚ [go "v1.2"; go "v1.2.3"] ∧
  ParseStyle (go "v1.2") = Some {| Prefix := go "v"; OmitPatch := true |} ∧
  ParseStyle (go "v1.2.3") = Some {| Prefix := go "v"; OmitPatch := false |} ∧
  versionStyle (determineVersionStyle enum_list mixed_repo)
  = {| Prefix := go "v"; OmitPatch := true |}.
Proof.
  split; [apply artifactNames_mixed_repo|]. by vm_compute.
Qed.

Lemma elem_of_Versions (c : Content) (v : Version) :
  v ∈ Versions c ↔ v ∈ (ver <$> versions c).
Proof. unfold Versions. by rewrite Sort_Permutation. Qed.

Lemma collectMissing_spec (r : repo) (isMain : bool) (vs : List)
    (mb mt mr : Set_) (v : Version) :
  let st := collectMissing r isMain vs (mb, mt, mr) in
  let missing v := isMain = true ∧ v ∈ vs ∧ Flavor v = [] in
  (v ∈ st.1.1 ↔
     v ∈ mb ∨ (missing v ∧ branches r !! branchNameForVersion r v = None)) ∧
  (v ∈ st.1.2 ↔
     v ∈ mt ∨ (missing v ∧ tags r !! tagNameForVersion r v = None)) ∧
  (v ∈ st.2 ↔
     v ∈ mr ∨ (missing v ∧ releases r !! releaseNameForVersion r v = None)).
Proof.
  revert mb mt mr. induction vs as [|v0 vs IH]; intros mb mt mr; simpl.
  { set_solver. }
  destruct (str_empty (Flavor v0)) eqn:E; simpl.
  - apply str_empty_true in E. destruct isMain.
    + destruct (IH (if decide (branches r !! branchNameForVersion r v0 = None)
                    then Add mb v0 else mb)
                   (if decide (tags r !! tagNameForVersion r v0 = None)
                    then Add mt v0 else mt)
                   (if decide (releases r !! releaseNameForVersion r v0 = None)
                    then Add mr v0 else mr)) as (I1 & I2 & I3).
      rewrite I1, I2, I3. clear IH I1 I2 I3. unfold Add.
      repeat case_decide;
        rewrite ?elem_of_union, ?elem_of_singleton; setoid_rewrite elem_of_cons;
        naive_solver.
    + destruct (IH mb mt mr) as (I1 & I2 & I3). rewrite I1, I2, I3.
      naive_solver.
  - apply str_empty_false in E.
    destruct (IH mb mt mr) as (I1 & I2 & I3). rewrite I1, I2, I3.
    setoid_rewrite elem_of_cons. naive_solver.
Qed.

Lemma validateBranch_missing (r : repo) (st : validation) (key : gostring)
    (b : branch) :
  let st' := validateBranch r st (key, b) in
  (v_missingBranches st', v_missingTags st', v_missingReleases st')
  = collectMissing r (bool_decide (mainBranch r = Some key))
      (Versions (b_changes b))
      (v_missingBranches st, v_missingTags st, v_missingReleases st).
Proof. simpl. by destruct (collectMissing _ _ _ _) as [[??]?]. Qed.

Lemma validate_fold (r : repo) (l : list (gostring * branch)) (st : validation)
    (v : Version) :
  let st' := foldl (validateBranch r) st l in
  let declared v :=
    ∃ key b, (key, b) ∈ l ∧ mainBranch r = Some key
             ∧ declaredUnflavored (b_changes b) v in
  (v ∈ v_missingBranches st' ↔
     v ∈ v_missingBranches st
     ∨ (declared v ∧ branches r !! branchNameForVersion r v = None)) ∧
  (v ∈ v_missingTags st' ↔
     v ∈ v_missingTags st
     ∨ (declared v ∧ tags r !! tagNameForVersion r v = None)) ∧
  (v ∈ v_missingReleases st' ↔
     v ∈ v_missingReleases st
     ∨ (declared v ∧ releases r !! releaseNameForVersion r v = None)).
Proof.
  revert st. induction l as [|[key b] l IH]; intros st.
  { simpl. setoid_rewrite elem_of_nil. naive_solver. }
  cbn [foldl]. destruct (IH (validateBranch r st (key, b))) as (I1 & I2 & I3).
  rewrite I1, I2, I3. clear IH I1 I2 I3.
  pose proof (validateBranch_missing r st key b) as Hm. cbv zeta in Hm.
  pose proof (collectMissing_spec r (bool_decide (mainBranch r = Some key))
                (Versions (b_changes b)) (v_missingBranches st)
                (v_missingTags st) (v_missingReleases st) v) as Hc.
  cbv zeta in Hc. rewrite <- Hm in Hc. cbn [fst snd] in Hc.
  destruct Hc as (C1 & C2 & C3). rewrite C1, C2, C3. clear C1 C2 C3 Hm.
  rewrite bool_decide_eq_true, elem_of_Versions.
  assert ((∃ key' b', (key', b') ∈ (key, b) :: l ∧ mainBranch r = Some key'
                      ∧ declaredUnflavored (b_changes b') v)
          ↔ (mainBranch r = Some key ∧ declaredUnflavored (b_changes b) v)
            ∨ (∃ key' b', (key', b') ∈ l ∧ mainBranch r = Some key'
                          ∧ declaredUnflavored (b_changes b') v)) as ->.
  { setoid_rewrite elem_of_cons. split.
    - intros (key' & b' & [[= -> ->]|Hl] & Hk & Hv); [by left|].
      right. by exists key', b'.
    - intros [[Hk Hv]|(key' & b' & Hl & Hk & Hv)].
      + exists key, b. split; [by left|done].
      + exists key', b'. split; [by right|done]. }
  unfold declaredUnflavored. tauto.
Qed.

Section missing_sets.

Variable enum : ∀ A : Type, gmap gostring A → list (gostring * A).
Hypothesis enum_perm : ∀ A (m : gmap gostring A), enum A m ≡ₚ map_to_list m.

(** C8: after [validate], a version is in a missing set exactly when the
    document of the main branch declares it without a flavor and the name of
    its artifact, formatted in the style of the repository, is not among the
    existing branches, tags or releases; no flavored version is in a missing
    set. *)
Theorem validate_missing_sets (r : repo) (key : gostring) (b : branch) :
  mainBranch r = Some key →
  branches r !! key = Some b →
  let r' := (validate enum r).2 in
  let declared := declaredUnflavored (b_changes b) in
  (∀ v, v ∈ missingBranches r' ↔
          declared v ∧ branches r !! branchNameForVersion r v = None) ∧
  (∀ v, v ∈ missingTags r' ↔
          declared v ∧ tags r !! tagNameForVersion r v = None) ∧
  (∀ v, v ∈ missingReleases r' ↔
          declared v ∧ releases r !! releaseNameForVersion r v = None) ∧
  (∀ v, v ∈ missingBranches r' ∨ v ∈ missingTags r' ∨ v ∈ missingReleases r' →
        Flavor v = []).
Proof using enum_perm.
  intros Hmain Hb r' declared.
  assert (∀ v, (∃ key' b', (key', b') ∈ enum _ (branches r)
                  ∧ mainBranch r = Some key'
                  ∧ declaredUnflavored (b_changes b') v) ↔ declared v) as Hd.
  { intros v. setoid_rewrite enum_perm. setoid_rewrite elem_of_map_to_list.
    split.
    - intros (key' & b' & Hl & Hk & Hv). by simplify_eq.
    - intros Hv. by exists key, b. }
  assert (∀ v,
    (v ∈ missingBranches r' ↔
       declared v ∧ branches r !! branchNameForVersion r v = None) ∧
    (v ∈ missingTags r' ↔
       declared v ∧ tags r !! tagNameForVersion r v = None) ∧
    (v ∈ missingReleases r' ↔
       declared v ∧ releases r !! releaseNameForVersion r v = None)) as H.
  { intros v. unfold r', validate. cbn [snd missingBranches missingTags
                                         missingReleases].
    match goal with
    | |- context [foldl (validateBranch r) ?st ?l] =>
        destruct (validate_fold r l st v) as (F1 & F2 & F3)
    end.
    rewrite F1, F2, F3, Hd. cbn [v_missingBranches v_missingTags
                                 v_missingReleases].
    set_solver. }
  split; [apply H|]. split; [apply H|]. split; [apply H|].
  intros v Hv. destruct (H v) as (H1 & H2 & H3). unfold declared in *.
  unfold declaredUnflavored in *. naive_solver.
Qed.

End missing_sets.

Lemma validate_missing_sets_witness :
  v2_1_0 ∈ missingTags (validate enum_list main_repo).2.
Proof.
  destruct (validate_missing_sets enum_list enum_list_perm main_repo
              (go "main") main_branch) as (_ & H & _); [by vm_compute..|].
  apply H. split; [split; [|done]|by vm_compute].
  apply elem_of_cons. right. apply elem_of_cons. by left.
Defined.

Example validate_main_repo :
  missingTags (validate enum_list main_repo).2 = {[ v2_1_0 ]}.
Proof. by vm_compute. Qed.

(** ** The scan of the history *)

Lemma picks_app (p1 p2 : list (Version * Hash)) (v : Version) :
  picks (p1 ++ p2) v = picks p1 v ++ picks p2 v.
Proof. unfold picks. by rewrite filter_app, fmap_app. Qed.

Lemma picks_fresh (l : List) (h : Hash) (v : Version) :
  v ∉ l → picks ((λ u, (u, h)) <$> l) v = [].
Proof.
  unfold picks. induction l as [|u l IH]; intros Hv; [done|].
  apply not_elem_of_cons in Hv as [Hne Hv]. simpl.
  rewrite filter_cons_False by (simpl; congruence). by apply IH.
Qed.

Lemma picks_one (l : List) (h : Hash) (v : Version) :
  NoDup l → v ∈ l → picks ((λ u, (u, h)) <$> l) v = [h].
Proof.
  induction l as [|u l IH]; intros Hnd Hv; [by apply elem_of_nil in Hv|].
  apply NoDup_cons in Hnd as [Hu Hnd].
  change ((λ u, (u, h)) <$> u :: l) with ([(u, h)] ++ ((λ u, (u, h)) <$> l)).
  rewrite picks_app. apply elem_of_cons in Hv as [->|Hv].
  - rewrite picks_fresh by done. unfold picks.
    by rewrite filter_cons_True by done.
  - rewrite IH by done. unfold picks.
    rewrite filter_cons_False; [done|]. simpl. by intros ->.
Qed.

Lemma resolve_loop (l : List) (h : Hash) (missing : Set_)
    (toCreate : list (Version * Hash)) :
  foldl (λ '(missing, toCreate) v, (Remove missing v, toCreate ++ [(v, h)]))
        (missing, toCreate) l
  = (missing ∖ list_to_set l, toCreate ++ ((λ v, (v, h)) <$> l)).
Proof.
  revert missing toCreate. induction l as [|v l IH]; intros missing toCreate.
  - simpl. rewrite app_nil_r. f_equal. set_solver.
  - cbn [foldl]. rewrite IH. unfold Remove. f_equal; [set_solver|].
    by rewrite <- app_assoc.
Qed.

Lemma resolve_spec (versions missing : Set_) (h : Hash)
    (toCreate : list (Version * Hash)) :
  resolve versions missing h toCreate
  = (missing ∖ versions,
     toCreate ++ ((λ v, (v, h)) <$> SetList (versions ∩ missing))).
Proof.
  unfold resolve. rewrite resolve_loop, Union_inter. f_equal.
  apply set_eq. intros v.
  rewrite !elem_of_difference, elem_of_list_to_set, elem_of_SetList. set_solver.
Qed.

Section history_facts.

Variable gitShow : Hash → option gostring.

Lemma declaredAt_dec cl v : Decision (declaredAt gitShow cl v).
Proof.
  unfold declaredAt. destruct (gitShow (cl_Hash cl)) as [content|].
  - destruct (Read content) as [e|c] eqn:HR.
    + right. intros (? & ? & ? & ? & ?). congruence.
    + destruct (decide (v ∈ (ver <$> versions c))) as [Hv|Hv].
      * left. by exists content, c.
      * right. intros (? & ? & ? & ? & ?). congruence.
  - right. by intros (? & ? & ? & ?).
Qed.

Lemma elem_of_declaredSet (c : Content) (v : Version) :
  v ∈ declaredSet c ↔ v ∈ (ver <$> versions c).
Proof.
  unfold declaredSet. by rewrite ListSet_spec, elem_of_list_to_set,
    elem_of_Versions.
Qed.

Lemma scanCommit_fails (st : scanState) (cl : ChangeList) :
  snapshotFails gitShow cl →
  ∃ e, (e = FailedToRead (cl_Hash cl) ∨ ∃ pe, e = FailedToParse (cl_Hash cl) pe)
       ∧ scanCommit gitShow st cl
         = {| s_missingBranches := s_missingBranches st;
              s_missingTags := s_missingTags st;
              branchesToCreate := branchesToCreate st;
              tagsToCreate := tagsToCreate st;
              errs := errs st ++ [e] |}.
Proof.
  unfold scanCommit. intros [Hs|(content & e & Hs & HR)]; rewrite Hs.
  - eexists. split; [by left|done].
  - rewrite HR. eexists. split; [right; by eexists|done].
Qed.

Lemma scanCommit_parsed (st : scanState) (cl : ChangeList)
    (content : gostring) (c : Content) (tags : bool) :
  gitShow (cl_Hash cl) = Some content → Read content = inr c →
  missingOf tags (scanCommit gitShow st cl) = missingOf tags st ∖ declaredSet c ∧
  planOf tags (scanCommit gitShow st cl)
  = planOf tags st
    ++ ((λ v, (v, cl_Hash cl)) <$> SetList (declaredSet c ∩ missingOf tags st)) ∧
  errs (scanCommit gitShow st cl) = errs st.
Proof.
  intros Hs HR. unfold scanCommit. rewrite Hs, HR, !resolve_spec.
  by destruct tags.
Qed.

Lemma scanCommit_cases (st : scanState) (cl : ChangeList) :
  snapshotFails gitShow cl
  ∨ ∃ content c, gitShow (cl_Hash cl) = Some content ∧ Read content = inr c.
Proof.
  unfold snapshotFails. destruct (gitShow (cl_Hash cl)) as [content|]; [|by left; left].
  destruct (Read content) as [e|c] eqn:HR.
  - left. right. by exists content, e.
  - right. by exists content, c.
Qed.

Lemma scanCommit_fails_same (st : scanState) (cl : ChangeList) (tags : bool) :
  snapshotFails gitShow cl →
  missingOf tags (scanCommit gitShow st cl) = missingOf tags st ∧
  planOf tags (scanCommit gitShow st cl) = planOf tags st.
Proof.
  intros H. destruct (scanCommit_fails st cl H) as (e & _ & ->).
  by destruct tags.
Qed.

(** A version that is not missing gets no commit. *)
Lemma scanFrom_not_missing (tags : bool) (v : Version)
    (commits : list ChangeList) (st : scanState) :
  v ∉ missingOf tags st →
  (v ∉ missingOf tags (scanFrom gitShow st commits)) ∧
  picks (planOf tags (scanFrom gitShow st commits)) v = picks (planOf tags st) v.
Proof.
  revert st. induction commits as [|cl commits IH]; intros st Hv; [done|].
  cbn [scanFrom foldl].
  destruct (scanCommit_cases st cl) as [Hf|(content & c & Hs & HR)].
  - destruct (scanCommit_fails_same st cl tags Hf) as [Hm Hp].
    destruct (IH (scanCommit gitShow st cl)) as [I1 I2]; [by rewrite Hm|].
    split; [done|]. unfold scanFrom in I2. by rewrite I2, Hp.
  - destruct (scanCommit_parsed st cl content c tags Hs HR) as (Hm & Hp & _).
    destruct (IH (scanCommit gitShow st cl)) as [I1 I2]; [rewrite Hm; set_solver|].
    split; [done|]. unfold scanFrom in I2. rewrite I2, Hp, picks_app.
    rewrite picks_fresh, app_nil_r; [done|].
    rewrite elem_of_SetList. set_solver.
Qed.

(** A missing version stays missing as long as no snapshot declares it. *)
Lemma scanFrom_not_declared (tags : bool) (v : Version)
    (commits : list ChangeList) (st : scanState) :
  v ∈ missingOf tags st →
  Forall (λ cl, ¬ declaredAt gitShow cl v) commits →
  v ∈ missingOf tags (scanFrom gitShow st commits) ∧
  picks (planOf tags (scanFrom gitShow st commits)) v = picks (planOf tags st) v.
Proof.
  revert st. induction commits as [|cl commits IH]; intros st Hv Hnone; [done|].
  apply Forall_cons in Hnone as [Hcl Hnone]. cbn [scanFrom foldl].
  destruct (scanCommit_cases st cl) as [Hf|(content & c & Hs & HR)].
  - destruct (scanCommit_fails_same st cl tags Hf) as [Hm Hp].
    destruct (IH (scanCommit gitShow st cl)) as [I1 I2]; [by rewrite Hm|done|].
    split; [done|]. unfold scanFrom in I2. by rewrite I2, Hp.
  - destruct (scanCommit_parsed st cl content c tags Hs HR) as (Hm & Hp & _).
    assert (v ∉ declaredSet c) as Hnd.
    { rewrite elem_of_declaredSet. intros Hd. apply Hcl. by exists content, c. }
    destruct (IH (scanCommit gitShow st cl)) as [I1 I2];
      [rewrite Hm; set_solver|done|].
    split; [done|]. unfold scanFrom in I2. rewrite I2, Hp, picks_app.
    rewrite picks_fresh, app_nil_r; [done|].
    rewrite elem_of_SetList. set_solver.
Qed.

(** The first commit whose snapshot declares a missing version is the one
    that the plan gives to it. *)
Lemma scanFrom_first (tags : bool) (v : Version)
    (older newer : list ChangeList) (cl : ChangeList) (st : scanState) :
  v ∈ missingOf tags st →
  Forall (λ cl', ¬ declaredAt gitShow cl' v) older → declaredAt gitShow cl v →
  let st' := scanFrom gitShow st (older ++ cl :: newer) in
  (v ∉ missingOf tags st') ∧
  picks (planOf tags st') v = picks (planOf tags st) v ++ [cl_Hash cl].
Proof.
  intros Hv Hnone (content & c & Hs & HR & Hd) st'.
  unfold st', scanFrom. rewrite foldl_app. cbn [foldl].
  destruct (scanFrom_not_declared tags v older st Hv Hnone) as [Hv1 Hp1].
  fold (scanFrom gitShow st older) in *. set (st1 := scanFrom gitShow st older) in *.
  destruct (scanCommit_parsed st1 cl content c tags Hs HR) as (Hm & Hp & _).
  apply elem_of_declaredSet in Hd.
  destruct (scanFrom_not_missing tags v newer (scanCommit gitShow st1 cl)) as [I1 I2].
  { rewrite Hm. set_solver. }
  split; [done|]. unfold scanFrom in I2. rewrite I2, Hp, picks_app, Hp1.
  f_equal. apply picks_one; [apply NoDup_SetList|].
  rewrite elem_of_SetList. set_solver.
Qed.

End history_facts.

Lemma first_declared (P : ChangeList → Prop) `{∀ cl, Decision (P cl)}
    (l : list ChangeList) :
  Exists P l →
  ∃ older cl newer, l = older ++ cl :: newer ∧ P cl ∧ Forall (λ x, ¬ P x) older.
Proof.
  induction l as [|x l IH]; intros Hex; [by inversion Hex|].
  destruct (decide (P x)) as [Hx|Hx].
  - by exists [], x, l.
  - apply Exists_cons in Hex as [?|Hex]; [done|].
    destruct (IH Hex) as (older & cl & newer & -> & Hcl & Hold).
    exists (x :: older), cl, newer. split; [done|]. split; [done|].
    by constructor.
Qed.

Section backfill.

Variable gitShow : Hash → option gostring.

(** C2: a missing version that a snapshot of the history declares is paired
    by the scan with the oldest commit whose snapshot is read, parses and
    declares it, and with no other commit; it is then no longer unresolved.
    The commits [older] come before this commit in time. *)
Theorem backfill_earliest_commit (r : repo) (log : list ChangeList)
    (v : Version) :
  (∃ cl, cl ∈ log ∧ declaredAt gitShow cl v) →
  ∃ older cl newer,
    reverse log = older ++ cl :: newer ∧
    declaredAt gitShow cl v ∧
    Forall (λ cl', ¬ declaredAt gitShow cl' v) older ∧
    let st := scanHistory gitShow r log in
    (v ∈ missingBranches r →
       picks (branchesToCreate st) v = [cl_Hash cl] ∧ v ∉ s_missingBranches st) ∧
    (v ∈ missingTags r →
       picks (tagsToCreate st) v = [cl_Hash cl] ∧ v ∉ s_missingTags st).
Proof.
  intros (cl0 & Hin & Hd0).
  destruct (@first_declared (λ cl, declaredAt gitShow cl v)
              (λ cl, declaredAt_dec gitShow cl v) (reverse log))
    as (older & cl & newer & Hlog & Hd & Hold).
  { apply Exists_exists. exists cl0. split; [|done].
    by rewrite elem_of_reverse. }
  exists older, cl, newer. split; [done|]. split; [done|]. split; [done|].
  unfold scanHistory. rewrite Hlog, !Clone_id. split; intros Hv.
  - destruct (scanFrom_first gitShow false v older newer cl
                {| s_missingBranches := missingBranches r;
                   s_missingTags := missingTags r;
                   branchesToCreate := []; tagsToCreate := []; errs := [] |})
      as [H1 H2]; done.
  - destruct (scanFrom_first gitShow true v older newer cl
                {| s_missingBranches := missingBranches r;
                   s_missingTags := missingTags r;
                   branchesToCreate := []; tagsToCreate := []; errs := [] |})
      as [H1 H2]; done.
Qed.

Lemma scanCommit_progress (st st' : scanState) (cl : ChangeList) :
  progress st = progress st' →
  progress (scanCommit gitShow st cl) = progress (scanCommit gitShow st' cl).
Proof.
  unfold progress. intros [= H1 H2 H3 H4]. unfold scanCommit.
  rewrite H1, H2, H3, H4. repeat case_match; by simplify_eq.
Qed.

Lemma scanFrom_progress (commits : list ChangeList) (st st' : scanState) :
  progress st = progress st' →
  progress (scanFrom gitShow st commits) = progress (scanFrom gitShow st' commits).
Proof.
  revert st st'. induction commits as [|cl commits IH]; intros st st' H; [done|].
  cbn [scanFrom foldl]. apply IH. by apply scanCommit_progress.
Qed.

Lemma scanFrom_plan_prefix (tags : bool) (commits : list ChangeList)
    (st : scanState) :
  planOf tags st `prefix_of` planOf tags (scanFrom gitShow st commits).
Proof.
  revert st. induction commits as [|cl commits IH]; intros st; [done|].
  cbn [scanFrom foldl]. etrans; [|apply IH].
  destruct (scanCommit_cases gitShow st cl) as [Hf|(content & c & Hs & HR)].
  - by destruct (scanCommit_fails_same gitShow st cl tags Hf) as [_ ->].
  - destruct (scanCommit_parsed gitShow st cl content c tags Hs HR)
      as (_ & -> & _).
    by apply prefix_app_r.
Qed.

(** C9: a commit whose snapshot is not read or does not parse adds one
    error for this commit and changes nothing else; the scan goes on with
    the commits that follow; the pairs found before the failure stay in the
    plans, and the plans and the unresolved sets at the end are those of the
    scan without this commit. *)
Theorem scan_continues_after_failure (st : scanState)
    (older newer : list ChangeList) (cl : ChangeList) :
  snapshotFails gitShow cl →
  let before := scanFrom gitShow st older in
  let final := scanFrom gitShow st (older ++ cl :: newer) in
  ∃ e,
    (e = FailedToRead (cl_Hash cl) ∨ ∃ pe, e = FailedToParse (cl_Hash cl) pe) ∧
    scanCommit gitShow before cl
    = {| s_missingBranches := s_missingBranches before;
         s_missingTags := s_missingTags before;
         branchesToCreate := branchesToCreate before;
         tagsToCreate := tagsToCreate before;
         errs := errs before ++ [e] |} ∧
    final = scanFrom gitShow (scanCommit gitShow before cl) newer ∧
    branchesToCreate before `prefix_of` branchesToCreate final ∧
    tagsToCreate before `prefix_of` tagsToCreate final ∧
    progress final = progress (scanFrom gitShow st (older ++ newer)).
Proof.
  intros Hf before final.
  destruct (scanCommit_fails gitShow before cl Hf) as (e & He & Hc).
  assert (final = scanFrom gitShow (scanCommit gitShow before cl) newer) as Hfinal.
  { unfold final, before, scanFrom. by rewrite foldl_app. }
  exists e. split; [done|]. split; [done|]. split; [done|].
  assert (progress (scanCommit gitShow before cl) = progress before) as Hp
    by (by rewrite Hc).
  split; [|split].
  - pose proof (scanFrom_plan_prefix false newer (scanCommit gitShow before cl))
      as Hpre.
    rewrite Hfinal. by rewrite Hc in Hpre |- *.
  - pose proof (scanFrom_plan_prefix true newer (scanCommit gitShow before cl))
      as Hpre.
    rewrite Hfinal. by rewrite Hc in Hpre |- *.
  - rewrite Hfinal. unfold before, scanFrom at 3. rewrite foldl_app.
    by apply scanFrom_progress.
Qed.

End backfill.

Example scanHistory_example :
  let st := scanHistory history_show history_repo history_log in
  branchesToCreate st = [(v2_1_0, go "c2")] ∧
  tagsToCreate st = [(v2_1_0, go "c2")] ∧ errs st = [].
Proof. by vm_compute. Qed.

Lemma backfill_earliest_commit_witness :
  ∃ older cl newer,
    reverse history_log = older ++ cl :: newer ∧
    declaredAt history_show cl v2_1_0 ∧
    Forall (λ cl', ¬ declaredAt history_show cl' v2_1_0) older ∧
    let st := scanHistory history_show history_repo history_log in
    (v2_1_0 ∈ missingBranches history_repo →
       picks (branchesToCreate st) v2_1_0 = [cl_Hash cl]
       ∧ v2_1_0 ∉ s_missingBranches st) ∧
    (v2_1_0 ∈ missingTags history_repo →
       picks (tagsToCreate st) v2_1_0 = [cl_Hash cl]
       ∧ v2_1_0 ∉ s_missingTags st).
Proof.
  apply (backfill_earliest_commit history_show history_repo history_log v2_1_0).
  exists (commit "c3"). split; [apply elem_of_cons; by left|].
  eexists _, _. split; [by vm_compute|]. split; [by vm_compute|].
  apply elem_of_cons. right. apply elem_of_cons. by left.
Defined.

Lemma scan_continues_after_failure_witness :
  progress (scanFrom history_show history_start
              ([commit "c1"] ++ commit "bad" :: [commit "c2"; commit "c3"]))
  = progress (scanFrom history_show history_start
                ([commit "c1"] ++ [commit "c2"; commit "c3"])).
Proof.
  destruct (scan_continues_after_failure history_show history_start
              [commit "c1"] [commit "c2"; commit "c3"] (commit "bad"))
    as (e & _ & _ & _ & _ & _ & H); [|exact H].
  right.
  exists (Join [go "## 2.1.0"; go "## 99999999999999999999.0"] [newline]),
         (ErrOnLine (BadMajor (go "99999999999999999999")) 1).
  split; [done|]. by vm_compute.
Defined.

Example scan_with_failures :
  let st := scanFrom history_show history_start
              [commit "c1"; commit "bad"; commit "gone"; commit "c2"; commit "c3"] in
  branchesToCreate st = [(v2_1_0, go "c2")] ∧
  tagsToCreate st = [(v2_1_0, go "c2")] ∧
  errs st = [FailedToParse (go "bad")
               (ErrOnLine (BadMajor (go "99999999999999999999")) 1);
             FailedToRead (go "gone")].
Proof. by vm_compute. Qed.

(** * Further properties *)

(** ** The order of the versions *)

Lemma byte_val_inj (a b : ascii) : byte_val a = byte_val b → a = b.
Proof.
  unfold byte_val. intros H.
  by rewrite <- (ascii_N_embedding a), <- (ascii_N_embedding b), H.
Qed.

Lemma strcmp_Eq (a b : gostring) : strcmp a b = Eq ↔ a = b.
Proof.
  split; [|intros ->; apply strcmp_refl].
  revert b. induction a as [|x a IH]; intros [|y b]; simpl; try done.
  destruct (N.compare_spec (byte_val x) (byte_val y)) as [E| |]; try done.
  intros H. apply byte_val_inj in E. by rewrite E, (IH b H).
Qed.

Lemma strcmp_Gt_trans (a b c : gostring) :
  strcmp a b = Gt → strcmp b c = Gt → strcmp a c = Gt.
Proof.
  revert b c. induction a as [|x a IH]; intros [|y b] [|z c]; simpl; try done.
  destruct (N.compare_spec (byte_val x) (byte_val y)) as [E1|L1|G1];
    destruct (N.compare_spec (byte_val y) (byte_val z)) as [E2|L2|G2];
    try done; intros H1 H2.
  - rewrite E1, E2, N.compare_refl. by apply (IH b c).
  - rewrite E1. by rewrite (proj2 (N.compare_gt_iff _ _)).
  - rewrite <- E2. by rewrite (proj2 (N.compare_gt_iff _ _)).
  - assert (byte_val z < byte_val x)%N as H by lia.
    by rewrite (proj2 (N.compare_gt_iff _ _)).
Qed.

Lemma compare3_Gt (x y : Z * Z * Z) :
  compare3 x y = Gt ↔
  (x.1.1 > y.1.1 ∨ (x.1.1 = y.1.1 ∧
     (x.1.2 > y.1.2 ∨ (x.1.2 = y.1.2 ∧ x.2 > y.2))))%Z.
Proof.
  destruct x as [[a1 b1] c1], y as [[a2 b2] c2]; simpl.
  destruct (Z.compare_spec a1 a2), (Z.compare_spec b1 b2),
    (Z.compare_spec c1 c2); split; intros; try done; lia.
Qed.

Lemma compare3_antisym (x y : Z * Z * Z) :
  compare3 y x = CompOpp (compare3 x y).
Proof.
  destruct x as [[a1 b1] c1], y as [[a2 b2] c2]; simpl.
  rewrite (Z.compare_antisym a1 a2), (Z.compare_antisym b1 b2),
    (Z.compare_antisym c1 c2).
  destruct (a1 ?= a2)%Z, (b1 ?= b2)%Z, (c1 ?= c2)%Z; done.
Qed.

Lemma sign_CompOpp (c : comparison) : sign (CompOpp c) = (- sign c)%Z.
Proof. by destruct c. Qed.

Lemma Compare_compare4 (a b : Version) :
  Compare a b true = sign (compare4 a b).
Proof.
  unfold compare4. destruct (decide (triple a = triple b)) as [E|N].
  - rewrite Compare_same_triple by done.
    rewrite (proj2 (compare3_Eq _ _) E).
    destruct (Flavor a), (Flavor b); done.
  - rewrite Compare_triple by done.
    destruct (compare3 (triple a) (triple b)) eqn:Hc; [|done..].
    by apply compare3_Eq in Hc.
Qed.

Lemma Compare_ignoring (a b : Version) :
  Compare a b false = sign (compare3 (triple a) (triple b)).
Proof.
  destruct (decide (triple a = triple b)) as [E|N].
  - rewrite Compare_same_triple by done.
    by rewrite (proj2 (compare3_Eq _ _) E).
  - by apply Compare_triple.
Qed.

Lemma compare4_antisym (a b : Version) : compare4 b a = CompOpp (compare4 a b).
Proof.
  unfold compare4. rewrite (compare3_antisym (triple a) (triple b)).
  rewrite (strcmp_antisym (Flavor a) (Flavor b)).
  by destruct (compare3 (triple a) (triple b)).
Qed.

Lemma Version_eq (a b : Version) :
  triple a = triple b → Flavor a = Flavor b → a = b.
Proof. destruct a, b. unfold triple. simpl. by intros [= -> -> ->] ->. Qed.

Lemma Compare_opp (a b : Version) (compareFlavor : bool) :
  Compare b a compareFlavor = (- Compare a b compareFlavor)%Z ∧
  GreaterEqualTo a b compareFlavor = negb (GreaterThan b a compareFlavor).
Proof.
  assert (Compare b a compareFlavor = (- Compare a b compareFlavor)%Z) as H.
  { destruct compareFlavor.
    - by rewrite !Compare_compare4, compare4_antisym, sign_CompOpp.
    - by rewrite !Compare_ignoring, compare3_antisym, sign_CompOpp. }
  split; [done|]. unfold GreaterEqualTo, GreaterThan. rewrite H.
  destruct (Z.geb_spec (Compare a b compareFlavor) 0),
    (Z.gtb_spec (- Compare a b compareFlavor) 0); simpl; try done; lia.
Qed.

(** X1: [Compare] is antisymmetric in both modes: exchanging the
    arguments negates the result; and [GreaterEqualTo] is the negation of
    [GreaterThan] with the arguments exchanged. *)
Theorem Compare_antisymmetric (a b : Version) (compareFlavor : bool) :
  Compare b a compareFlavor = (- Compare a b compareFlavor)%Z ∧
  GreaterEqualTo a b compareFlavor = negb (GreaterThan b a compareFlavor).
Proof. apply Compare_opp. Qed.

Lemma Compare_0_iff (a b : Version) :
  (Compare a b true = 0%Z ↔ a = b) ∧
  (Compare a b false = 0%Z ↔ triple a = triple b).
Proof.
  split.
  - rewrite Compare_compare4. unfold compare4. split.
    + intros H. destruct (compare3 (triple a) (triple b)) eqn:H3; [|done..].
      destruct (strcmp (Flavor a) (Flavor b)) eqn:Hs; [|done..].
      apply Version_eq; [by apply compare3_Eq|by apply strcmp_Eq].
    + intros ->. rewrite (proj2 (compare3_Eq _ _) eq_refl).
      by rewrite strcmp_refl.
  - rewrite Compare_ignoring, <- compare3_Eq.
    by destruct (compare3 (triple a) (triple b)).
Qed.

(** X2: under flavor-aware comparison two versions compare equal exactly
    when they are the same version; with the flavors ignored, exactly when
    their numbers are the same. *)
Theorem Compare_zero (a b : Version) :
  (Compare a b true = 0%Z ↔ a = b) ∧
  (Compare a b false = 0%Z ↔ triple a = triple b).
Proof. apply Compare_0_iff. Qed.

Lemma GreaterThan_flavors (a b : Version) :
  GreaterThan a b true = true ↔
  compare3 (triple a) (triple b) = Gt
  ∨ (triple a = triple b ∧ strcmp (Flavor a) (Flavor b) = Gt).
Proof.
  unfold GreaterThan. rewrite Compare_compare4. unfold compare4.
  destruct (compare3 (triple a) (triple b)) eqn:H3.
  - apply compare3_Eq in H3.
    destruct (strcmp (Flavor a) (Flavor b)); simpl;
      split; try done; try (by intros [?|[_ ?]]); auto.
  - simpl. split; [done|]. intros [?|[E _]]; [done|].
    apply compare3_Eq in E. congruence.
  - simpl. split; auto.
Qed.

Lemma GreaterThan_order (compareFlavor : bool) :
  (∀ a, GreaterThan a a compareFlavor = false) ∧
  (∀ a b c, GreaterThan a b compareFlavor = true →
            GreaterThan b c compareFlavor = true →
            GreaterThan a c compareFlavor = true).
Proof.
  split.
  - intros a. unfold GreaterThan.
    destruct (Compare_opp a a compareFlavor) as [H _].
    destruct (Z.gtb_spec (Compare a a compareFlavor) 0); [lia|done].
  - intros a b c. destruct compareFlavor.
    + rewrite !GreaterThan_flavors, !compare3_Gt.
      intros [H1|[E1 S1]] [H2|[E2 S2]].
      * left. lia.
      * left. rewrite <- E2. lia.
      * left. rewrite E1. lia.
      * right. split; [congruence|]. by eapply strcmp_Gt_trans.
    + rewrite !GreaterThan_triple, !compare3_Gt. lia.
Qed.

(** X3: [GreaterThan] is a strict order in both modes: it is irreflexive
    and transitive. *)
Theorem GreaterThan_strict_order (compareFlavor : bool) :
  (∀ a, GreaterThan a a compareFlavor = false) ∧
  (∀ a b c, GreaterThan a b compareFlavor = true →
            GreaterThan b c compareFlavor = true →
            GreaterThan a c compareFlavor = true).
Proof. apply GreaterThan_order. Qed.

(** ** Sorting *)

Lemma notBefore_total (a b : Version) :
  ¬ Is_true (GreaterThan a b true) → notBefore b a.
Proof.
  intros H. unfold notBefore.
  destruct (Compare_opp b a true) as [_ ->].
  by destruct (GreaterThan a b true).
Qed.

Lemma notBefore_of_GreaterThan (a b : Version) :
  Is_true (GreaterThan a b true) → notBefore a b.
Proof.
  unfold notBefore, GreaterEqualTo, GreaterThan. intros H.
  apply Is_true_true in H.
  destruct (Z.gtb_spec (Compare a b true) 0); [|done].
  destruct (Z.geb_spec (Compare a b true) 0); [done|lia].
Qed.

Lemma notBefore_trans (a b c : Version) :
  notBefore a b → notBefore b c → notBefore a c.
Proof.
  unfold notBefore.
  destruct (Compare_opp a b true) as [_ ->].
  destruct (Compare_opp b c true) as [_ ->].
  destruct (Compare_opp a c true) as [_ ->].
  rewrite !negb_true_iff. intros H1 H2.
  destruct (GreaterThan c a true) eqn:H3; [|done].
  destruct (decide (a = b)) as [->|Hab]; [congruence|].
  assert (GreaterThan a b true = true) as Hgt.
  { destruct (Compare_opp a b true) as [Ha _].
    unfold GreaterThan in *.
    destruct (Z.gtb_spec (Compare a b true) 0) as [|Hle]; [done|].
    destruct (Z.gtb_spec (Compare b a true) 0) as [|Hle']; [done|].
    destruct Hab. apply Compare_0_iff. lia. }
  destruct (GreaterThan_order true) as [_ Htrans].
  by rewrite (Htrans c a b H3 Hgt) in H2.
Qed.

Lemma notBefore_antisym (a b : Version) : notBefore a b → notBefore b a → a = b.
Proof.
  unfold notBefore, GreaterEqualTo. intros H1 H2.
  destruct (Compare_opp a b true) as [Ha _].
  destruct (Z.geb_spec (Compare a b true) 0); [|done].
  destruct (Z.geb_spec (Compare b a true) 0); [|done].
  apply Compare_0_iff. lia.
Qed.

Section merge_sort_keeps.

Context {A : Type} (R : relation A) `{∀ x y, Decision (R x y)}.
Variable Q : relation A.
Hypothesis R_Q : ∀ x y, R x y → Q x y.
Hypothesis notR_Q : ∀ x y, ¬ R x y → Q y x.

Lemma HdRel_list_merge_2 x l1 l2 :
  HdRel Q x l1 → HdRel Q x l2 → HdRel Q x (list_merge R l1 l2).
Proof using Type.
  intros [|x1 l1' H1] [|x2 l2' H2]; rewrite ?list_merge_cons; simpl;
    try case_decide; by constructor.
Qed.

Lemma Sorted_list_merge_2 l1 l2 :
  Sorted Q l1 → Sorted Q l2 → Sorted Q (list_merge R l1 l2).
Proof using R_Q notR_Q.
  intros Hl1. revert l2. induction Hl1 as [|x1 l1 Hs1 IH1 Hh1]; intros l2 Hl2.
  { by rewrite list_merge_nil_l. }
  induction Hl2 as [|x2 l2 Hs2 IH2 Hh2].
  { rewrite list_merge_nil_r. by constructor. }
  rewrite list_merge_cons. case_decide as HR.
  - constructor; [apply IH1; by constructor|].
    apply HdRel_list_merge_2; [done|]. constructor. by apply R_Q.
  - constructor; [done|].
    apply HdRel_list_merge_2; [|done]. constructor. by apply notR_Q.
Qed.

Lemma Sorted_merge_list_to_stack_2 st l :
  Forall (λ o, ∀ l', o = Some l' → Sorted Q l') st → Sorted Q l →
  Forall (λ o, ∀ l', o = Some l' → Sorted Q l') (merge_list_to_stack R st l).
Proof using R_Q notR_Q.
  intros Hst. revert l. induction Hst as [|[l0|] st H0 Hst IH]; intros l Hl; simpl.
  - constructor; [|done]. by intros ? [= <-].
  - constructor; [done|]. apply IH. apply Sorted_list_merge_2; [|done].
    by apply H0.
  - constructor; [|done]. by intros ? [= <-].
Qed.

Lemma Sorted_merge_stack_2 st :
  Forall (λ o, ∀ l', o = Some l' → Sorted Q l') st → Sorted Q (merge_stack R st).
Proof using R_Q notR_Q.
  induction 1 as [|[l0|] st H0 Hst IH]; simpl; [constructor| |done].
  apply Sorted_list_merge_2; [by apply H0|done].
Qed.

Lemma Sorted_merge_sort_2 l : Sorted Q (merge_sort R l).
Proof using R_Q notR_Q.
  unfold merge_sort.
  assert (Forall (λ o : option (list A), ∀ l', o = Some l' → Sorted Q l') [])
    as Hst by constructor.
  revert Hst. generalize (@nil (option (list A))) as st.
  induction l as [|x l IH]; intros st Hst; simpl.
  - by apply Sorted_merge_stack_2.
  - apply IH. apply Sorted_merge_list_to_stack_2; [done|].
    by repeat constructor.
Qed.

End merge_sort_keeps.

#[local] Instance notBefore_transitive : Transitive notBefore.
Proof. intros a b c. apply notBefore_trans. Qed.

#[local] Instance notBefore_antisymm : AntiSymm (=) notBefore.
Proof. intros a b. apply notBefore_antisym. Qed.

Lemma Sort_sorted (l : List) : StronglySorted notBefore (Sort l).
Proof.
  apply Sorted_StronglySorted; [apply _|]. unfold Sort.
  apply Sorted_merge_sort_2.
  - apply notBefore_of_GreaterThan.
  - apply notBefore_total.
Qed.

(** X4: [Sort] returns the versions of the list, each as often as in the
    list, from the most recent to the oldest in the order with flavors; it
    is the only such arrangement, so the result does not depend on how
    [sort.Slice] sorts. *)
Theorem Sort_descending (l : List) :
  Sort l ≡ₚ l ∧ StronglySorted notBefore (Sort l) ∧
  (∀ l', l' ≡ₚ l → StronglySorted notBefore l' → l' = Sort l).
Proof.
  split; [apply Sort_Permutation|]. split; [apply Sort_sorted|].
  intros l' Hp Hs. apply (StronglySorted_unique notBefore); [done| |].
  - apply Sort_sorted.
  - by rewrite Hp, Sort_Permutation.
Qed.

Lemma Sort_descending_witness :
  [v2_2_1_dev; v2_2_1; v2_1_0] = Sort [v2_1_0; v2_2_1; v2_2_1_dev].
Proof.
  apply (Sort_descending [v2_1_0; v2_2_1; v2_2_1_dev]).
  - exact (reverse_Permutation [v2_1_0; v2_2_1; v2_2_1_dev]).
  - repeat constructor; by vm_compute.
Defined.

(** X5: listing a set and collecting the list gives the set back; the list
    has no duplicates and goes strictly down in the order with flavors. *)
Theorem SetList_ListSet (s : Set_) :
  ListSet (SetList s) = s ∧ NoDup (SetList s) ∧
  StronglySorted (λ a b, GreaterThan a b true = true) (SetList s).
Proof.
  split; [|split; [apply NoDup_SetList|]].
  - rewrite ListSet_spec. apply set_eq. intros v.
    by rewrite elem_of_list_to_set, elem_of_SetList.
  - pose proof (NoDup_SetList s) as Hnd. unfold SetList in *.
    pose proof (Sort_sorted (elements s)) as Hs.
    induction Hs as [|a l Hs IH Hall]; [constructor|].
    apply NoDup_cons in Hnd as [Ha Hnd]. constructor; [by apply IH|].
    apply Forall_forall. intros b Hb. rewrite Forall_forall in Hall.
    specialize (Hall b Hb). unfold notBefore in Hall.
    destruct (Compare_opp b a true) as [_ Hba].
    destruct (Compare_opp a b true) as [Hab _].
    unfold GreaterEqualTo, GreaterThan in *.
    destruct (Z.gtb_spec (Compare a b true) 0) as [|Hle]; [done|].
    destruct (Z.geb_spec (Compare a b true) 0) as [Hge|]; [|done].
    assert (a = b) as -> by (apply Compare_0_iff; lia).
    done.
Qed.

(** ** Formatting, then parsing *)

Lemma Format_versionString (st : Style) (v : Version) :
  Format st v
  = versionString (Prefix st) (Major v) (Minor v) (formattedPatch st v)
      (formattedFlavor v).
Proof.
  unfold Format, versionString, numbersText, formattedPatch, formattedFlavor.
  destruct (negb (Patch v =? 0)%Z || negb (OmitPatch st)),
    (negb (str_empty (Flavor v))); simpl;
    rewrite <- ?app_assoc; simpl; rewrite ?app_nil_r; done.
Qed.

Lemma Parse_versionString (p : gostring) (major minor : Z) (patch : option Z)
    (flavor : option gostring) :
  prefixOK p →
  (0 ≤ major ≤ maxInt)%Z → (0 ≤ minor ≤ maxInt)%Z →
  (∀ x, patch = Some x → (0 ≤ x ≤ maxInt)%Z) →
  (∀ f, flavor = Some f → some_of is_word f) →
  ParseStyle (versionString p major minor patch flavor)
  = Some {| Prefix := p; OmitPatch := bool_decide (patch = None) |} ∧
  Parse (versionString p major minor patch flavor)
  = inr {| Major := major; Minor := minor; Patch := default 0%Z patch;
           Flavor := default [] flavor |}.
Proof.
  intros Hp Hma Hmi Hpa Hfl.
  assert (∀ x, itoa <$> patch = Some x → some_of is_digit x) as Hpa'.
  { intros x Hx. destruct patch as [z|]; simplify_eq/=.
    apply itoa_digits. by apply Hpa. }
  pose proof (itoa_digits major (proj1 Hma)) as Hd1.
  pose proof (itoa_digits minor (proj1 Hmi)) as Hd2.
  destruct (styleRE_match p _ _ _ flavor Hp Hd1 Hd2 Hpa' Hfl)
    as (m1 & Hm1 & Hs1 & Hs4).
  destruct (versionRE_match p _ _ _ flavor Hp Hd1 Hd2 Hpa' Hfl)
    as (m2 & Hm2 & Hv1 & Hv2 & Hv3 & Hv4).
  split.
  - unfold ParseStyle, versionString. rewrite Hm1, Hs1, Hs4.
    destruct patch as [z|]; simpl; [|done].
    pose proof (itoa_digits z (proj1 (Hpa z eq_refl))) as [Hz _].
    by rewrite (proj2 (str_empty_false _) Hz).
  - unfold Parse, versionString. rewrite Hm2, Hv1, Hv2, Hv3, Hv4.
    rewrite !Atoi_itoa by done.
    destruct patch as [z|]; simpl.
    + pose proof (itoa_digits z (proj1 (Hpa z eq_refl))) as [Hz _].
      rewrite (proj2 (str_empty_false _) Hz). simpl.
      rewrite Atoi_itoa by (by apply Hpa).
      destruct flavor; simpl; [|done]. by rewrite drop_0.
    + destruct flavor; simpl; [|done]. by rewrite drop_0.
Qed.

Lemma Parse_Format_valid (st : Style) (v : Version) :
  prefixOK (Prefix st) → validVersion v →
  Parse (Format st v) = inr v ∧
  ParseStyle (Format st v)
  = Some {| Prefix := Prefix st; OmitPatch := OmitPatch st && (Patch v =? 0)%Z |}.
Proof.
  intros Hp (Hma & Hmi & Hpa & Hfl). rewrite Format_versionString.
  destruct (Parse_versionString (Prefix st) (Major v) (Minor v)
              (formattedPatch st v) (formattedFlavor v)) as [HS HP];
    try done.
  - unfold formattedPatch. intros x. case_match; by intros [= <-].
  - unfold formattedFlavor. intros f. destruct (Flavor v) eqn:E; [done|].
    simpl. intros [= <-]. by split.
  - rewrite HS, HP. split.
    + destruct v as [ma mi pa fl]. simpl in *. f_equal. f_equal.
      * unfold formattedPatch. simpl.
        destruct (Z.eqb_spec pa 0) as [->|]; simpl; [|done].
        by destruct (OmitPatch st).
      * unfold formattedFlavor. simpl. by destruct fl.
    + do 2 f_equal. unfold formattedPatch.
      destruct (Z.eqb_spec (Patch v) 0), (OmitPatch st); done.
Qed.

(** X6: a version whose numbers are not negative and fit 64 bits and whose
    flavor is made of word characters, formatted under a style with a
    prefix of the grammar, parses back to the same version; the style found
    in the text has the prefix of the style, and omits the patch digit
    exactly when the style omits it and the patch is zero. *)
Theorem Parse_Format (st : Style) (v : Version) :
  prefixOK (Prefix st) → validVersion v →
  Parse (Format st v) = inr v ∧
  ParseStyle (Format st v)
  = Some {| Prefix := Prefix st; OmitPatch := OmitPatch st && (Patch v =? 0)%Z |}.
Proof. apply Parse_Format_valid. Qed.

Lemma validVersion_v2_2_1_dev : validVersion v2_2_1_dev.
Proof.
  unfold validVersion, maxInt. simpl. repeat split; try lia.
  by repeat constructor.
Qed.

Lemma Parse_Format_witness :
  Parse (Format {| Prefix := go "release-"; OmitPatch := true |} v2_2_1_dev)
  = inr v2_2_1_dev.
Proof.
  apply (Parse_Format {| Prefix := go "release-"; OmitPatch := true |}
           v2_2_1_dev).
  - apply (prefix_word (go "release")). by repeat constructor.
  - apply validVersion_v2_2_1_dev.
Defined.

Lemma String_Format (v : Version) :
  semver.String v = Format {| Prefix := []; OmitPatch := false |} v.
Proof.
  unfold semver.String, Format. simpl. rewrite orb_true_r.
  destruct (negb (str_empty (Flavor v)));
    rewrite <- ?app_assoc; simpl; rewrite <- ?app_assoc; done.
Qed.

(** X7: [Version.String] always writes the patch number, and [Parse] reads
    the version back. *)
Theorem Parse_String (v : Version) :
  validVersion v → Parse (semver.String v) = inr v.
Proof.
  intros Hv. rewrite String_Format. apply Parse_Format_valid; [|done].
  constructor.
Qed.

Lemma Parse_String_witness : Parse (semver.String v2_2_1_dev) = inr v2_2_1_dev.
Proof. apply Parse_String, validVersion_v2_2_1_dev. Defined.

(** ** Release branches *)

Lemma branchVersionRE_match (p ma : gostring) (two : bool) :
  prefixOK p → some_of is_digit ma →
  ∃ m, FindStringSubmatch branchVersionRE
         (p ++ ma ++ go ".x" ++ (if two then go ".x" else [])) = Some m
       ∧ sub m 1 = ma.
Proof.
  intros Hp Hma.
  assert (∀ pos c k m,
    k (pos + length (ma ++ go ".x" ++ (if two then go ".x" else []))) []
      (<[1 := ma]> c) = Some m →
    run (Cat (Grp 1 (Plus (Cls is_digit)))
        (Cat (Lit ".")
        (Cat (Plus (Lit "x"))
        (Cat (Opt (Cat (Lit ".") (Plus (Lit "x")))) Eot))))
      pos (ma ++ go ".x" ++ (if two then go ".x" else [])) c k = Some m)
    as Hrest.
  { intros pos c k m Hk. rewrite run_Cat.
    apply run_Grp_Plus; [done|done|].
    simpl app. rewrite run_Cat, run_Lit, run_Cat.
    destruct two; simpl;
      match goal with
      | |- context [k ?n [] _] =>
          match type of Hk with
          | k ?n' _ _ = _ => replace n with n' by solve_length
          end
      end; by rewrite Hk. }
  unfold FindStringSubmatch, branchVersionRE; simpl re_syntax; simpl re_groups.
  destruct (decide (p = [])) as [->|Hne].
  - eexists. split.
    + apply search_first. rewrite run_Cat, run_Bot_start, run_Cat.
      simpl app. rewrite run_Opt_skipped
        by (by apply (run_prefixRE_none ma)).
      apply Hrest. reflexivity.
    + done.
  - eexists. split.
    + apply search_first. rewrite run_Cat, run_Bot_start, run_Cat.
      apply run_Opt_taken.
      apply (run_prefixRE p ma); [done..|].
      apply Hrest. reflexivity.
    + done.
Qed.

Lemma parseReleaseBranch_name (r : repo) (v : Version) :
  prefixOK (Prefix (versionStyle r)) → (0 ≤ Major v ≤ maxInt)%Z →
  parseReleaseBranch (branchNameForVersion r v) = Some (Major v).
Proof.
  intros Hp Hma. unfold parseReleaseBranch, branchNameForVersion.
  destruct (branchVersionRE_match (Prefix (versionStyle r)) (itoa (Major v))
              (negb (OmitPatch (versionStyle r))) Hp
              (itoa_digits _ (proj1 Hma))) as (m & Hm & Hs).
  destruct (OmitPatch (versionStyle r)); cbn [negb] in Hm.
  - rewrite app_nil_r in Hm. rewrite Hm, Hs. by apply Atoi_itoa.
  - change (go ".x.x") with (go ".x" ++ go ".x").
    rewrite Hm, Hs. by apply Atoi_itoa.
Qed.

(** X8: the name that [branchNameForVersion] gives to the release branch
    of a version is read by [parseReleaseBranch] as the major number of the
    version, whether the style omits the patch digit or not. *)
Theorem parseReleaseBranch_branchName (r : repo) (v : Version) :
  prefixOK (Prefix (versionStyle r)) → (0 ≤ Major v ≤ maxInt)%Z →
  parseReleaseBranch (branchNameForVersion r v) = Some (Major v).
Proof. apply parseReleaseBranch_name. Qed.

Lemma parseReleaseBranch_branchName_witness :
  parseReleaseBranch (branchNameForVersion main_repo v2_1_0) = Some 2%Z.
Proof.
  apply (parseReleaseBranch_branchName main_repo v2_1_0).
  - apply (prefix_word (go "release")). by repeat constructor.
  - by vm_compute.
Defined.

(** ** What the groups of a match hold *)

Lemma star_exact body (L : gostring → Prop) :
  (∀ pos s c k m, body pos s c k = Some m →
     ∃ s1 s2, s = s1 ++ s2 ∧ L s1 ∧ k (pos + length s1) s2 c = Some m) →
  ∀ fuel pos s c k m,
    star body fuel pos s c k = Some m →
    ∃ s1 s2, s = s1 ++ s2 ∧ star_lang L s1 ∧ k (pos + length s1) s2 c = Some m.
Proof.
  intros Hbody fuel. induction fuel as [|fuel IH]; intros pos s c k m H.
  - exists [], s. rewrite Nat.add_0_r. split; [done|]. split; [constructor|done].
  - simpl in H. destruct (body pos s c _) as [m'|] eqn:Hb.
    + simplify_eq. apply Hbody in Hb as (s1 & s2 & -> & Hs1 & Hk).
      case_decide; [|done].
      apply IH in Hk as (t1 & t2 & -> & Ht1 & Hk).
      exists (s1 ++ t1), t2. rewrite app_assoc. split; [done|].
      split; [by constructor|]. rewrite <- Hk. f_equal. solve_length.
    + exists [], s. rewrite Nat.add_0_r.
      split; [done|]. split; [constructor|done].
Qed.

(** A pattern without groups leaves the captures alone and moves by the
    length of what it matched. *)
Lemma run_exact r pos s c k m :
  groupless r = true → run r pos s c k = Some m →
  ∃ s1 s2, s = s1 ++ s2 ∧ lang r s1 ∧ k (pos + length s1) s2 c = Some m.
Proof.
  revert pos s c k m.
  induction r as [|p|r1 IH1 r2 IH2|r1 IH1 r2 IH2|r IH|i r IH| |];
    intros pos s c k m Hg H; simpl in Hg.
  - exists [], s. by rewrite Nat.add_0_r.
  - destruct s as [|a s]; [done|]. rewrite run_Cls in H.
    destruct (p a) eqn:Hp; [|done].
    exists [a], s. split; [done|]. split; [by exists a|].
    by rewrite Nat.add_1_r.
  - apply andb_true_iff in Hg as [Hg1 Hg2]. rewrite run_Cat in H.
    apply IH1 in H as (s1 & s2 & -> & Hs1 & H); [|done].
    apply IH2 in H as (t1 & t2 & -> & Ht1 & H); [|done].
    exists (s1 ++ t1), t2. rewrite app_assoc. split; [done|].
    split; [by exists s1, t1|]. rewrite <- H. f_equal. solve_length.
  - apply andb_true_iff in Hg as [Hg1 Hg2]. rewrite run_Alt in H.
    destruct (run r1 pos s c k) as [m'|] eqn:H1.
    + simplify_eq. apply IH1 in H1 as (s1 & s2 & -> & Hs1 & H); [|done].
      exists s1, s2. split; [done|]. split; [by left|done].
    + apply IH2 in H as (s1 & s2 & -> & Hs1 & H); [|done].
      exists s1, s2. split; [done|]. split; [by right|done].
  - rewrite run_Star in H.
    apply (star_exact (run r) (lang r)) in H; [done|].
    intros ?????. by apply IH.
  - done.
  - simpl in H. case_decide; [|done]. exists [], s. by rewrite Nat.add_0_r.
  - destruct s; [|done]. exists [], []. by rewrite Nat.add_0_r.
Qed.

(** A group over a pattern without groups holds what the pattern matched. *)
Lemma run_Grp_exact i r pos s c k m :
  groupless r = true → run (Grp i r) pos s c k = Some m →
  ∃ s1 s2, s = s1 ++ s2 ∧ lang r s1
           ∧ k (pos + length s1) s2 (<[i := s1]> c) = Some m.
Proof.
  intros Hg H. rewrite run_Grp in H.
  apply run_exact in H as (s1 & s2 & -> & Hs1 & H); [|done].
  exists s1, s2. split; [done|]. split; [done|].
  by rewrite Nat.add_sub', take_app_length in H.
Qed.

Lemma run_Opt_cases r pos s c k m :
  run (Opt r) pos s c k = Some m →
  run r pos s c k = Some m ∨ (run r pos s c k = None ∧ k pos s c = Some m).
Proof.
  unfold Opt. rewrite run_Alt. destruct (run r pos s c k); [by left|].
  intros H. by right.
Qed.

Lemma search_Bot_later r n pos s :
  pos ≠ 0 → search (Cat Bot r) n pos s = None.
Proof.
  revert pos. induction s as [|a s IH]; intros pos Hpos; simpl.
  - by rewrite decide_False.
  - rewrite decide_False by done. by apply IH.
Qed.

Lemma search_Bot r n s m :
  search (Cat Bot r) n 0 s = Some m →
  run r 0 s (replicate (S n) [])
      (λ pos' s' c', Some (<[0 := take (pos' - 0) s]> c')) = Some m.
Proof.
  intros H. destruct s as [|a s]; simpl in H.
  - by destruct (run r 0 [] _ _).
  - destruct (run r 0 (a :: s) _ _) eqn:Hr; [done|].
    by rewrite search_Bot_later in H.
Qed.

Lemma star_lang_Cls (p : ascii → bool) (s : gostring) :
  star_lang (lang (Cls p)) s → Forall (λ a, p a = true) s.
Proof.
  induction 1 as [|s1 s2 (a & -> & Ha) _ IH]; [constructor|].
  by constructor.
Qed.

Lemma lang_Plus_Cls (p : ascii → bool) (s : gostring) :
  lang (Plus (Cls p)) s → some_of p s.
Proof.
  intros (s1 & s2 & -> & (a & -> & Ha) & Hs). apply star_lang_Cls in Hs.
  split; [done|]. by constructor.
Qed.

Lemma lang_Lit (a : ascii) (s : gostring) : lang (Lit a) s → s = [a].
Proof. intros (b & -> & Hb). by apply bool_decide_eq_true in Hb as ->. Qed.

Lemma lang_prefixRE (p : gostring) : lang prefixRE p → prefixOK p ∧ p ≠ [].
Proof.
  intros [(w & d & -> & Hw & Hd)|Hv].
  - apply lang_Lit in Hd as ->. apply star_lang_Cls in Hw.
    split; [by constructor|]. by destruct w.
  - apply lang_Lit in Hv as ->. split; [constructor|done].
Qed.

Lemma run_flavorRE_inv i pos s c k m :
  run (Cat (Opt (Grp i (Cat (Lit "-") (Plus (Cls is_word))))) Eot) pos s c k
  = Some m →
  ∃ fl, s = flavorText fl ∧ (∀ f, fl = Some f → some_of is_word f) ∧
        k (pos + length s) []
          (match fl with Some f => <[i := "-"%char :: f]> c | None => c end)
        = Some m.
Proof.
  rewrite run_Cat. intros H. apply run_Opt_cases in H as [H|[_ H]].
  - apply run_Grp_exact in H as (s1 & s2 & -> & Hs1 & H); [|done].
    destruct s2; [|done]. rewrite run_Eot_nil in H.
    destruct Hs1 as (d & f & -> & Hd & Hf). apply lang_Lit in Hd as ->.
    apply lang_Plus_Cls in Hf. exists (Some f). rewrite app_nil_r in *.
    split; [done|]. split; [by intros ? [= <-]|done].
  - destruct s; [|done]. rewrite run_Eot_nil in H. exists None.
    rewrite Nat.add_0_r. split; [done|]. split; [done|]. done.
Qed.

Lemma run_numbersRE_inv g pos s c k m :
  run (numbersRE g) pos s c k = Some m →
  ∃ ma mi pa fl,
    s = numbersText ma mi pa fl ∧
    some_of is_digit ma ∧ some_of is_digit mi ∧
    (∀ x, pa = Some x → some_of is_digit x) ∧
    (∀ f, fl = Some f → some_of is_word f) ∧
    k (pos + length s) [] (numbersCaps g ma mi pa fl c) = Some m.
Proof.
  unfold numbersRE. rewrite run_Cat. intros H.
  apply run_Grp_exact in H as (ma & s1 & -> & Hma & H); [|done].
  apply lang_Plus_Cls in Hma. rewrite run_Cat in H.
  apply run_exact in H as (d & s2 & -> & Hd & H); [|done].
  apply lang_Lit in Hd as ->. rewrite run_Cat in H.
  apply run_Grp_exact in H as (mi & s3 & -> & Hmi & H); [|done].
  apply lang_Plus_Cls in Hmi. rewrite run_Cat in H.
  apply run_Opt_cases in H as [H|[_ H]].
  - rewrite run_Cat in H.
    apply run_exact in H as (d & s4 & -> & Hd & H); [|done].
    apply lang_Lit in Hd as ->.
    apply run_Grp_exact in H as (pa & s5 & -> & Hpa & H); [|done].
    apply lang_Plus_Cls in Hpa.
    apply run_flavorRE_inv in H as (fl & -> & Hfl & H).
    exists ma, mi, (Some pa), fl. unfold numbersText, numbersCaps. simpl.
    split; [done|]. split; [done|]. split; [done|].
    split; [by intros ? [= <-]|]. split; [done|].
    rewrite <- H. f_equal. solve_length.
  - apply run_flavorRE_inv in H as (fl & -> & Hfl & H).
    exists ma, mi, None, fl. unfold numbersText, numbersCaps. simpl.
    split; [done|]. split; [done|]. split; [done|].
    split; [done|]. split; [done|].
    rewrite <- H. f_equal. solve_length.
Qed.

Lemma sub_numbersCaps (g n : nat) ma mi pa fl (whole : gostring) (c : caps) :
  0 < g → g + 3 < length c →
  let m := <[0 := whole]> (numbersCaps g ma mi pa fl c) in
  sub m g = ma ∧ sub m (g + 1) = mi ∧
  sub m (g + 2) = default (sub c (g + 2)) pa ∧
  sub m (g + 3) = match fl with Some f => "-"%char :: f | None => sub c (g + 3) end
  ∧ ∀ j, 0 < j → j < g → sub m j = sub c j.
Proof.
  intros Hg Hlen m. unfold m, sub, numbersCaps.
  destruct pa, fl; simpl;
    repeat split; intros;
    repeat first
      [ rewrite list_lookup_insert_ne by lia
      | rewrite list_lookup_insert_eq by (rewrite ?length_insert; lia) ];
    done.
Qed.

(** The texts that [versionRE] matches, and its groups. *)
Lemma versionRE_inv (s : gostring) (m : caps) :
  FindStringSubmatch versionRE s = Some m →
  ∃ p ma mi pa fl,
    versionParts s p ma mi pa fl ∧
    sub m 1 = ma ∧ sub m 2 = mi ∧ sub m 3 = default [] pa ∧
    sub m 4 = flavorText fl.
Proof.
  unfold FindStringSubmatch, versionRE; simpl re_syntax; simpl re_groups.
  intros H. apply search_Bot in H. rewrite run_Cat in H.
  apply run_exact in H as (p & s1 & -> & Hp & H); [|done].
  assert (prefixOK p) as Hp'.
  { destruct Hp as [Hp| ->]; [by apply lang_prefixRE in Hp as [? _]|constructor]. }
  apply run_numbersRE_inv in H as (ma & mi & pa & fl & -> & Hma & Hmi & Hpa & Hfl & H).
  exists p, ma, mi, pa, fl. split; [done|]. simplify_eq.
  destruct (sub_numbersCaps 1 0 ma mi pa fl
              (take (0 + length p + length (numbersText ma mi pa fl) - 0)
                 (p ++ numbersText ma mi pa fl))
              (replicate 5 [])) as (E1 & E2 & E3 & E4 & _);
    [lia|simpl; lia|].
  cbv zeta in *. simpl in *. rewrite E1, E2, E3, E4. by destruct fl.
Qed.

(** The texts that [styleRE] matches, and its groups. *)
Lemma styleRE_inv (s : gostring) (m : caps) :
  FindStringSubmatch styleRE s = Some m →
  ∃ p ma mi pa fl,
    versionParts s p ma mi pa fl ∧ sub m 1 = p ∧ sub m 4 = default [] pa.
Proof.
  unfold FindStringSubmatch, styleRE; simpl re_syntax; simpl re_groups.
  intros H. apply search_Bot in H. rewrite run_Cat in H.
  apply run_Opt_cases in H as [H|[_ H]].
  - apply run_Grp_exact in H as (p & s1 & -> & Hp & H); [|done].
    apply lang_prefixRE in Hp as [Hp Hne].
    apply run_numbersRE_inv in H as (ma & mi & pa & fl & -> & Hma & Hmi & Hpa & Hfl & H).
    exists p, ma, mi, pa, fl. split; [done|]. simplify_eq.
    destruct (sub_numbersCaps 2 0 ma mi pa fl
                (take (0 + length p + length (numbersText ma mi pa fl) - 0)
                   (p ++ numbersText ma mi pa fl))
                (<[1 := p]> (replicate 6 []))) as (_ & _ & E3 & _ & E1);
      [lia|simpl; lia|].
    cbv zeta in *. simpl in *. rewrite E3, (E1 1) by lia. by destruct pa.
  - apply run_numbersRE_inv in H as (ma & mi & pa & fl & -> & Hma & Hmi & Hpa & Hfl & H).
    exists [], ma, mi, pa, fl.
    split; [split; [done|]; split; [apply prefix_none|done]|].
    simplify_eq.
    destruct (sub_numbersCaps 2 0 ma mi pa fl
                (take (0 + length (numbersText ma mi pa fl) - 0)
                   (numbersText ma mi pa fl))
                (replicate 6 [])) as (_ & _ & E3 & _ & E1);
      [lia|simpl; lia|].
    cbv zeta in *. simpl in *. rewrite E3, (E1 1) by lia. by destruct pa.
Qed.

(** ** Numbers of any length *)

Lemma uint_of_digits (s : gostring) :
  Forall (λ a, is_digit a = true) s →
  is_Some (NilEmpty.uint_of_string (String.string_of_list_ascii s)).
Proof.
  induction 1 as [|a s Ha _ [d IH]]; simpl; [done|]. rewrite IH.
  destruct a as [[] [] [] [] [] [] [] []]; try done; by eexists.
Qed.

Lemma Atoi_digits (ds : gostring) :
  some_of is_digit ds →
  ∃ n, digits_value ds = Some n ∧
       Atoi ds = if decide (Z.of_N n ≤ maxInt)%Z then Some (Z.of_N n) else None.
Proof.
  intros [Hne Hd]. destruct (uint_of_digits ds Hd) as [d Hu].
  exists (N.of_uint d). unfold Atoi, digits_value.
  destruct ds as [|a ds]; [done|]. rewrite Hu. split; [done|].
  apply Forall_cons in Hd as [Ha _].
  rewrite decide_False by (by intros ->).
  rewrite decide_False by (by intros ->). simpl.
  unfold minInt, maxInt. repeat case_decide; try done; lia.
Qed.

Lemma Atoi_digits_Some (ds : gostring) (z : Z) :
  some_of is_digit ds → Atoi ds = Some z → (0 ≤ z ≤ maxInt)%Z.
Proof.
  intros Hd H. destruct (Atoi_digits ds Hd) as (n & _ & Hn).
  rewrite Hn in H. case_decide; [|done]. simplify_eq. lia.
Qed.

Lemma Atoi_digits_None (ds : gostring) :
  some_of is_digit ds → Atoi ds = None → tooLarge ds.
Proof.
  intros Hd H. destruct (Atoi_digits ds Hd) as (n & Hv & Hn).
  rewrite Hn in H. case_decide; [done|]. split; [done|]. exists n.
  split; [done|lia].
Qed.

Lemma tooLarge_Atoi (ds : gostring) : tooLarge ds → Atoi ds = None.
Proof.
  intros (Hd & n & Hv & Hn). destruct (Atoi_digits ds Hd) as (n' & Hv' & ->).
  simplify_eq. by rewrite decide_False by lia.
Qed.

(** ** What [Parse] and [ParseStyle] accept *)

Lemma versionRE_matches (s : gostring) :
  is_Some (FindStringSubmatch versionRE s) ↔ isVersionText s.
Proof.
  split.
  - intros [m Hm]. apply versionRE_inv in Hm as (p & ma & mi & pa & fl & H & _).
    by exists p, ma, mi, pa, fl.
  - intros (p & ma & mi & pa & fl & -> & Hp & Hma & Hmi & Hpa & Hfl).
    destruct (versionRE_match p ma mi pa fl Hp Hma Hmi Hpa Hfl) as (m & -> & _).
    by eexists.
Qed.

Lemma styleRE_matches (s : gostring) :
  is_Some (FindStringSubmatch styleRE s) ↔ isVersionText s.
Proof.
  split.
  - intros [m Hm]. apply styleRE_inv in Hm as (p & ma & mi & pa & fl & H & _).
    by exists p, ma, mi, pa, fl.
  - intros (p & ma & mi & pa & fl & -> & Hp & Hma & Hmi & Hpa & Hfl).
    destruct (styleRE_match p ma mi pa fl Hp Hma Hmi Hpa Hfl) as (m & -> & _).
    by eexists.
Qed.

Lemma ParseStyle_prefixOK (s : gostring) (st : Style) :
  ParseStyle s = Some st → prefixOK (Prefix st).
Proof.
  unfold ParseStyle. destruct (FindStringSubmatch styleRE s) as [m|] eqn:Hm; [|done].
  intros [= <-]. simpl.
  apply styleRE_inv in Hm as (p & ma & mi & pa & fl & (_ & Hp & _) & -> & _).
  done.
Qed.

Lemma Parse_validVersion (s : gostring) (v : Version) :
  Parse s = inr v → validVersion v.
Proof.
  unfold Parse.
  destruct (FindStringSubmatch versionRE s) as [m|] eqn:Hm; [|done].
  apply versionRE_inv in Hm
    as (p & ma & mi & pa & fl & (_ & _ & Hma & Hmi & Hpa & Hfl)
        & -> & -> & -> & ->).
  destruct (Atoi ma) as [a|] eqn:Ha; [|done].
  destruct (Atoi mi) as [b|] eqn:Hb; [|done].
  apply Atoi_digits_Some in Ha; [|done]. apply Atoi_digits_Some in Hb; [|done].
  destruct pa as [x|]; simpl.
  - destruct (Hpa x eq_refl) as [Hx Hx'].
    rewrite (proj2 (str_empty_false _) Hx). simpl.
    destruct (Atoi x) as [c|] eqn:Hc; [|done]. intros [= <-].
    apply Atoi_digits_Some in Hc; [|done].
    repeat split; simpl; try lia.
    destruct fl as [f|]; simpl; [|done]. rewrite drop_0. by apply Hfl.
  - intros [= <-]. unfold maxInt. repeat split; simpl; try lia.
    destruct fl as [f|]; simpl; [|done]. rewrite drop_0. by apply Hfl.
Qed.

(** X9: a version that [Parse] returns has its three numbers between 0 and
    the largest Go int and a flavor of word characters; [ParseStyle] finds
    the style of the same text, and the version formatted in that style is
    parsed back to the same version and the same style. *)
Theorem Parse_stable (s : gostring) (v : Version) :
  Parse s = inr v →
  validVersion v ∧
  ∃ st, ParseStyle s = Some st ∧
        Parse (Format st v) = inr v ∧ ParseStyle (Format st v) = Some st.
Proof.
  intros HP. pose proof (Parse_validVersion s v HP) as Hv. split; [done|].
  assert (isVersionText s) as Hs.
  { apply versionRE_matches. unfold Parse in HP.
    by destruct (FindStringSubmatch versionRE s). }
  pose proof Hs as Hs'. apply styleRE_matches in Hs' as [m Hm].
  exists {| Prefix := sub m 1; OmitPatch := str_empty (sub m 4) |}.
  assert (ParseStyle s
          = Some {| Prefix := sub m 1; OmitPatch := str_empty (sub m 4) |})
    as HS by (unfold ParseStyle; by rewrite Hm).
  split; [done|].
  destruct (Parse_Format_valid
              {| Prefix := sub m 1; OmitPatch := str_empty (sub m 4) |} v)
    as [H1 H2]; [by apply (ParseStyle_prefixOK s)|done|].
  split; [done|]. rewrite H2. simpl. f_equal. f_equal.
  (* the patch was left out of the text only if it is 0 *)
  pose proof Hm as Hm'.
  apply styleRE_inv in Hm' as (p & ma & mi & pa & fl & Hparts & _ & E4).
  rewrite E4. destruct pa as [x|]; simpl.
  - destruct Hparts as (_ & _ & _ & _ & Hpa & _).
    destruct (Hpa x eq_refl) as [Hx _].
    by rewrite (proj2 (str_empty_false _) Hx).
  - destruct Hparts as (-> & Hp & Hma & Hmi & Hpa & Hfl).
    unfold Parse in HP.
    destruct (versionRE_match p ma mi None fl Hp Hma Hmi Hpa Hfl)
      as (m2 & Hm2 & Hv1 & Hv2 & Hv3 & Hv4).
    rewrite Hm2, Hv1, Hv2, Hv3 in HP. simpl in HP.
    destruct (Atoi ma); [|done]. destruct (Atoi mi); [|done].
    by simplify_eq.
Qed.

Lemma Parse_inl (s : gostring) :
  (∀ s', Parse s = inl (CannotParse s') ↔ s' = s ∧ ¬ isVersionText s) ∧
  (ParseStyle s = None ↔ ¬ isVersionText s) ∧
  (∀ e, Parse s = inl e → isVersionText s →
        ∃ ds, tooLarge ds ∧ (e = BadMajor ds ∨ e = BadMinor ds ∨ e = BadPatch ds)
              ∧ ∃ s1 s2, s = s1 ++ ds ++ s2).
Proof.
  split; [|split].
  - intros s'. rewrite <- versionRE_matches. unfold Parse.
    destruct (FindStringSubmatch versionRE s) as [m|] eqn:Hm.
    + split.
      * intros H. exfalso. repeat case_match; simplify_eq.
      * intros [_ H]. destruct H. by eexists.
    + split.
      * intros [= <-]. split; [done|]. by intros [? ?].
      * by intros [-> _].
  - rewrite <- styleRE_matches. unfold ParseStyle.
    destruct (FindStringSubmatch styleRE s) as [m|].
    + split; [done|]. intros H. destruct H. by eexists.
    + split; [|done]. intros _ [? ?]. done.
  - intros e He Hs. unfold Parse in He.
    pose proof (proj2 (versionRE_matches s) Hs) as [m Hm]. rewrite Hm in He.
    apply versionRE_inv in Hm
      as (p & ma & mi & pa & fl & (-> & _ & Hma & Hmi & Hpa & Hfl)
          & E1 & E2 & E3 & E4).
    rewrite E1, E2, E3 in He. clear E1 E2 E3 E4.
    destruct (Atoi ma) as [a|] eqn:Ha.
    2:{ exists ma. split; [by apply Atoi_digits_None|]. simplify_eq.
        split; [by left|]. exists p. eexists. unfold numbersText. done. }
    destruct (Atoi mi) as [b|] eqn:Hb.
    2:{ exists mi. split; [by apply Atoi_digits_None|]. simplify_eq.
        split; [by right; left|].
        exists (p ++ ma ++ ["."%char]). eexists. unfold numbersText.
        rewrite <- !app_assoc. simpl. done. }
    destruct pa as [x|]; simpl in He; [|done].
    destruct (Hpa x eq_refl) as [Hx Hx'].
    rewrite (proj2 (str_empty_false _) Hx) in He. simpl in He.
    destruct (Atoi x) as [c|] eqn:Hc; [done|].
    exists x. split; [by apply Atoi_digits_None|]. simplify_eq.
    split; [by right; right|].
    exists (p ++ ma ++ "."%char :: mi ++ ["."%char]). eexists.
    unfold numbersText, patchText. rewrite <- !app_assoc. simpl.
    rewrite <- !app_assoc. simpl. done.
Qed.

(** X10: [Parse] fails in two ways only.  It answers [CannotParse], with
    the text, exactly for the texts outside the grammar, which are also the
    texts for which [ParseStyle] has no style; any other error names a run
    of digits of the text whose number is larger than a Go int. *)
Theorem Parse_errors (s : gostring) :
  (∀ s', Parse s = inl (CannotParse s') ↔ s' = s ∧ ¬ isVersionText s) ∧
  (ParseStyle s = None ↔ ¬ isVersionText s) ∧
  (∀ e, Parse s = inl e → isVersionText s →
        ∃ ds, tooLarge ds ∧ (e = BadMajor ds ∨ e = BadMinor ds ∨ e = BadPatch ds)
              ∧ ∃ s1 s2, s = s1 ++ ds ++ s2).
Proof. apply Parse_inl. Qed.

(** ** Headings of a CHANGES file *)

Lemma lang_dateRE (d : gostring) : lang dateRE d → isDate d.
Proof.
  unfold dateRE, digitRE.
  intros (a1 & r1 & -> & (y1 & -> & H1) & (a2 & r2 & -> & (y2 & -> & H2)
    & (a3 & r3 & -> & (y3 & -> & H3) & (a4 & r4 & -> & (y4 & -> & H4)
    & (a5 & r5 & -> & L1 & (a6 & r6 & -> & (m1 & -> & H5)
    & (a7 & r7 & -> & (m2 & -> & H6) & (a8 & r8 & -> & L2
    & (a9 & r9 & -> & (d1 & -> & H7) & (d2 & -> & H8)))))))))).
  apply lang_Lit in L1 as ->. apply lang_Lit in L2 as ->.
  exists y1, y2, y3, y4, m1, m2, d1, d2. split; [done|].
  by repeat constructor.
Qed.

Lemma lang_tokenRE (tok : gostring) : lang tokenRE tok → isVersionText tok.
Proof.
  unfold tokenRE, digitRE.
  intros (p & r1 & -> & Hp & (ma & r2 & -> & Hma & (d1 & r3 & -> & Hd1
    & (mi & r4 & -> & Hmi & (pa & fl & -> & Hpa & Hfl))))).
  apply lang_Lit in Hd1 as ->.
  apply lang_Plus_Cls in Hma. apply lang_Plus_Cls in Hmi.
  assert (prefixOK p) as Hp'.
  { destruct Hp as [Hp| ->]; [by apply lang_prefixRE in Hp as [? _]|constructor]. }
  assert (∃ pa', pa = patchText pa' ∧ ∀ x, pa' = Some x → some_of is_digit x)
    as (pa' & -> & Hpa').
  { destruct Hpa as [(d & x & -> & Hd & Hx)| ->].
    - apply lang_Lit in Hd as ->. apply lang_Plus_Cls in Hx.
      exists (Some x). split; [done|]. by intros ? [= <-].
    - by exists None. }
  assert (∃ fl', fl = flavorText fl' ∧ ∀ f, fl' = Some f → some_of is_word f)
    as (fl' & -> & Hfl').
  { destruct Hfl as [(d & x & -> & Hd & Hx)| ->].
    - apply lang_Lit in Hd as ->. apply lang_Plus_Cls in Hx.
      exists (Some x). split; [done|]. by intros ? [= <-].
    - by exists None. }
  exists p, ma, mi, pa', fl'. split; [|done]. unfold numbersText. simpl.
  done.
Qed.

(** The lines that [changesVersionRE] matches, and its groups. *)
Lemma changesVersionRE_inv (l : gostring) (m : caps) :
  FindStringSubmatch changesVersionRE l = Some m →
  headingParts l (sub m 1) (sub m 2) (sub m 3) (sub m 4).
Proof.
  unfold FindStringSubmatch, changesVersionRE; simpl re_syntax; simpl re_groups.
  intros H. apply search_Bot in H. rewrite run_Cat in H.
  apply run_Grp_exact in H as (pre & r1 & -> & Hpre & H); [|done].
  rewrite run_Cat in H.
  apply run_Grp_exact in H as (tok & r2 & -> & Htok & H); [|done].
  rewrite run_Cat in H.
  apply run_Grp_exact in H as (sp & r3 & -> & Hsp & H); [|done].
  rewrite run_Cat in H.
  destruct Hpre as (h & s & -> & Hh & Hs).
  apply star_lang_Cls in Hh, Hs, Hsp. apply lang_tokenRE in Htok.
  assert (∀ d r pos c,
    run (Cat (Star (Cls is_space)) Eot) pos r c
      (λ pos' _ c', Some (<[0 := take (pos' - 0)
         ((h ++ s) ++ tok ++ sp ++ d ++ r)]> c')) = Some m →
    spaces r ∧ m = <[0 := take (pos + length r)
                              ((h ++ s) ++ tok ++ sp ++ d ++ r)]> c) as Hend.
  { intros d r pos c Hr. rewrite run_Cat in Hr.
    apply run_exact in Hr as (tr & r' & -> & Htr & Hr); [|done].
    destruct r'; [|done]. rewrite run_Eot_nil in Hr.
    rewrite !app_nil_r in *. apply star_lang_Cls in Htr. split; [done|].
    rewrite Nat.sub_0_r in Hr. by simplify_eq. }
  apply run_Opt_cases in H as [H|[_ H]].
  - apply run_Grp_exact in H as (d & r4 & -> & Hd & H); [|done].
    apply lang_dateRE in Hd.
    apply (Hend d) in H as [Htr ->].
    unfold sub. simpl.
    repeat split; [by exists h, s|done|done|by right|].
    exists r4. done.
  - apply (Hend []) in H as [Htr ->].
    unfold sub. simpl.
    repeat split; [by exists h, s|done|done|by left|].
    exists r3. done.
Qed.

(** ** The entries that [parse] finds *)

Lemma parse_lines_entriesFrom (i : Z) (ls : list gostring) (vs : list version) :
  parse_lines i ls vs
  = match entriesFrom i ls with inl e => inl e | inr xs => inr (vs ++ xs) end.
Proof.
  revert i vs. induction ls as [|l ls IH]; intros i vs; simpl.
  - by rewrite app_nil_r.
  - unfold entryOf. destruct (FindStringSubmatch changesVersionRE l) as [m|].
    + destruct (Parse (sub m 2)) as [e|v]; [done|]. rewrite IH.
      destruct (entriesFrom (i + 1) ls); [done|]. by rewrite <- app_assoc.
    + apply IH.
Qed.

Lemma Read_entriesFrom (text : gostring) :
  Read text
  = match entriesFrom 0 (Split text newline) with
    | inl e => inl e
    | inr xs => inr {| versions := xs; lines := Split text newline |}
    end.
Proof.
  unfold Read, parse. simpl. rewrite parse_lines_entriesFrom.
  by destruct (entriesFrom 0 (Split text newline)).
Qed.

Lemma entriesFrom_inr (i : Z) (ls : list gostring) (xs : list version) :
  entriesFrom i ls = inr xs →
  StronglySorted line_lt xs ∧
  Forall (λ x, (i < line x)%Z) xs ∧
  ∀ x, x ∈ xs ↔ ∃ (n : nat) l,
         ls !! n = Some l ∧ entryOf (i + Z.of_nat n) l = Some (inr x).
Proof.
  revert i xs. induction ls as [|l ls IH]; intros i xs H; simpl in H.
  - simplify_eq. split; [constructor|]. split; [constructor|].
    intros x. split; [by intros ?%elem_of_nil|]. by intros (n & l & ? & _).
  - assert (∀ x, (∃ (n : nat) l', ls !! n = Some l'
                   ∧ entryOf (i + 1 + Z.of_nat n) l' = Some (inr x))
               ↔ (∃ (n : nat) l', (l :: ls) !! S n = Some l'
                   ∧ entryOf (i + Z.of_nat (S n)) l' = Some (inr x))) as Hshift.
    { intros x. split; intros (n & l' & Hn & He); exists n, l';
        (split; [done|]); rewrite <- He; f_equal; lia. }
    destruct (entryOf i l) as [[e|x]|] eqn:He; [done|..].
    + destruct (entriesFrom (i + 1) ls) as [|xs'] eqn:Hxs; [done|].
      simplify_eq. destruct (IH _ _ Hxs) as (Hsorted & Hlines & Hmem).
      assert (line x = (i + 1)%Z) as Hx.
      { unfold entryOf in He. repeat case_match; by simplify_eq. }
      split; [|split].
      * constructor; [done|]. eapply Forall_impl; [done|].
        unfold line_lt. intros; simpl in *; lia.
      * constructor; [lia|]. eapply Forall_impl; [done|]. simpl. lia.
      * intros y. rewrite elem_of_cons, Hmem, Hshift. split.
        -- intros [->|(n & l' & ? & ?)]; [|by exists (S n), l'].
           exists 0, l. by rewrite Z.add_0_r.
        -- intros ([|n] & l' & Hn & Hy).
           ++ left. rewrite Z.add_0_r in Hy. by simplify_eq/=.
           ++ right. by exists n, l'.
    + destruct (IH _ _ H) as (Hsorted & Hlines & Hmem).
      split; [done|]. split.
      * eapply Forall_impl; [done|]. simpl. lia.
      * intros y. rewrite Hmem, Hshift. split.
        -- intros (n & l' & ? & ?). by exists (S n), l'.
        -- intros ([|n] & l' & Hn & Hy); [|by exists n, l'].
           rewrite Z.add_0_r in Hy. by simplify_eq/=.
Qed.

Lemma entriesFrom_inl (i : Z) (ls : list gostring) (e : error) :
  entriesFrom i ls = inl e ↔
  ∃ (n : nat) l,
    ls !! n = Some l ∧ entryOf (i + Z.of_nat n) l = Some (inl e) ∧
    ∀ (j : nat) l' e', j < n → ls !! j = Some l' →
                       entryOf (i + Z.of_nat j) l' ≠ Some (inl e').
Proof.
  revert e i. induction ls as [|l ls IH]; intros e i; simpl.
  - split; [done|]. by intros (n & l & ? & _).
  - assert (∀ n : nat, (i + 1 + Z.of_nat n = i + Z.of_nat (S n))%Z) as Hn
      by (intros; lia).
    destruct (entryOf i l) as [[e0|x]|] eqn:He.
    + split.
      * intros [= ->]. exists 0, l. rewrite Z.add_0_r.
        split; [done|]. split; [done|]. intros; lia.
      * intros ([|n] & l' & Hl & Hn' & Hbefore).
        -- rewrite Z.add_0_r in Hn'. by simplify_eq/=.
        -- destruct (Hbefore 0 l e0); [lia|done|by rewrite Z.add_0_r].
    + destruct (entriesFrom (i + 1) ls) as [e1|xs] eqn:Hxs.
      * destruct (proj1 (IH e1 (i + 1)%Z) Hxs) as (n & l' & Hl & Hn' & Hbefore).
        split.
        -- intros [= <-]. exists (S n), l'. rewrite <- Hn.
           split; [done|]. split; [done|].
           intros [|j] l'' e' Hj Hl''.
           ++ rewrite Z.add_0_r. simplify_eq/=. by rewrite He.
           ++ rewrite <- Hn. apply Hbefore; [lia|done].
        -- intros H.
           assert (entriesFrom (i + 1) ls = inl e) as Hc; [|congruence].
           apply IH.
           destruct H as ([|n'] & l'' & Hl'' & Hn'' & Hbefore').
           ++ rewrite Z.add_0_r in Hn''. simplify_eq/=.
           ++ exists n', l''. rewrite Hn. split; [done|]. split; [done|].
              intros j l3 e3 Hj Hl3. rewrite Hn.
              apply (Hbefore' (S j)); [lia|done].
      * split; [done|].
        intros ([|n'] & l'' & Hl'' & Hn'' & Hbefore').
        -- rewrite Z.add_0_r in Hn''. simplify_eq/=.
        -- assert (entriesFrom (i + 1) ls = inl e) as Hc; [|by rewrite Hxs in Hc].
           apply IH. exists n', l''. rewrite Hn. split; [done|]. split; [done|].
           intros j l3 e3 Hj Hl3. rewrite Hn.
           apply (Hbefore' (S j)); [lia|done].
    + rewrite IH. split.
      * intros (n & l' & Hl & Hn' & Hbefore). exists (S n), l'. rewrite <- Hn.
        split; [done|]. split; [done|].
        intros [|j] l'' e' Hj Hl''.
        -- rewrite Z.add_0_r. simplify_eq/=. by rewrite He.
        -- rewrite <- Hn. apply Hbefore; [lia|done].
      * intros ([|n'] & l'' & Hl'' & Hn'' & Hbefore').
        -- rewrite Z.add_0_r in Hn''. simplify_eq/=.
        -- exists n', l''. rewrite Hn. split; [done|]. split; [done|].
           intros j l3 e3 Hj Hl3. rewrite Hn.
           apply (Hbefore' (S j)); [lia|done].
Qed.

Lemma entryOf_inr (i : Z) (l : gostring) (x : version) :
  entryOf i l = Some (inr x) →
  line x = (i + 1)%Z ∧
  ∃ tok, headingParts l (prefix x) tok (sep x) (date x) ∧
         Parse tok = inr (ver x) ∧ ParseStyle tok = Some (style x).
Proof.
  unfold entryOf.
  destruct (FindStringSubmatch changesVersionRE l) as [m|] eqn:Hm; [|done].
  destruct (Parse (sub m 2)) as [e|v] eqn:HP; [done|].
  intros [= <-]. simpl. split; [done|]. exists (sub m 2).
  apply changesVersionRE_inv in Hm. split; [done|]. split; [done|].
  destruct Hm as (_ & Htok & _). apply styleRE_matches in Htok as [m' Hm'].
  unfold ParseStyle. by rewrite Hm'.
Qed.

Lemma entryOf_inl (i : Z) (l : gostring) (e : error) :
  entryOf i l = Some (inl e) →
  ∃ ds, tooLarge ds ∧ (∃ s1 s2, l = s1 ++ ds ++ s2) ∧
        (e = ErrOnLine (BadMajor ds) i ∨ e = ErrOnLine (BadMinor ds) i
         ∨ e = ErrOnLine (BadPatch ds) i).
Proof.
  unfold entryOf.
  destruct (FindStringSubmatch changesVersionRE l) as [m|] eqn:Hm; [|done].
  destruct (Parse (sub m 2)) as [e'|v] eqn:HP; [|done].
  intros [= <-]. apply changesVersionRE_inv in Hm
    as (_ & Htok & _ & _ & tr & _ & Hl).
  destruct (Parse_inl (sub m 2)) as (_ & _ & Hbad).
  destruct (Hbad e' HP Htok) as (ds & Hds & He & s1 & s2 & Hs).
  exists ds. split; [done|]. split.
  - rewrite Hl, Hs. exists (sub m 1 ++ s1). eexists.
    rewrite <- !app_assoc. done.
  - naive_solver.
Qed.

Lemma entriesFrom_inr_heading (i : Z) (ls : list gostring) (xs : list version)
    (n : nat) (l : gostring) (m : caps) :
  entriesFrom i ls = inr xs → ls !! n = Some l →
  FindStringSubmatch changesVersionRE l = Some m →
  ∃ x, entryOf (i + Z.of_nat n) l = Some (inr x).
Proof.
  intros Hxs Hl Hm.
  destruct (entryOf (i + Z.of_nat n) l) as [[e|x]|] eqn:He.
  - exfalso. revert i xs n Hxs Hl He.
    induction ls as [|l0 ls IH]; intros i xs n Hxs Hl He; [done|].
    simpl in Hxs. destruct n as [|n]; simplify_eq/=.
    + rewrite Z.add_0_r in He. by rewrite He in Hxs.
    + destruct (entryOf i l0) as [[e0|x0]|]; [done|..];
        destruct (entriesFrom (i + 1) ls) as [|xs'] eqn:Hxs'; try done;
        (eapply (IH (i + 1)%Z); [done|done|]); rewrite <- He; f_equal; lia.
  - by exists x.
  - unfold entryOf in He. by rewrite Hm in He.
Qed.

Lemma Read_parts (text : gostring) (c : Content) :
  Read text = inr c →
  lines c = Split text newline ∧
  StronglySorted line_lt (versions c) ∧
  (∀ x, x ∈ versions c →
     ∃ (n : nat) l tok,
       line x = (Z.of_nat n + 1)%Z ∧ lines c !! n = Some l ∧
       headingParts l (prefix x) tok (sep x) (date x) ∧
       Parse tok = inr (ver x) ∧ ParseStyle tok = Some (style x)) ∧
  (∀ (n : nat) l, lines c !! n = Some l → isHeading l →
     ∃ x, x ∈ versions c ∧ line x = (Z.of_nat n + 1)%Z).
Proof.
  rewrite Read_entriesFrom.
  destruct (entriesFrom 0 (Split text newline)) as [|xs] eqn:Hxs; [done|].
  intros [= <-]. simpl. split; [done|].
  destruct (entriesFrom_inr _ _ _ Hxs) as (Hsorted & _ & Hmem).
  split; [done|]. split.
  - intros x (n & l & Hl & He)%Hmem. apply entryOf_inr in He as (Hx & tok & ?).
    exists n, l, tok. split; [lia|done].
  - intros n l Hl [m Hm].
    destruct (entriesFrom_inr_heading _ _ _ n l m Hxs Hl Hm) as [x Hx].
    exists x. split; [apply Hmem; by exists n, l|].
    apply entryOf_inr in Hx as [Hx _]. lia.
Qed.

(** X11: the entries of a document that [Read] accepts.  Its lines are the
    text split at the newlines.  The entries stand in the order of their
    lines, one for each line that is a heading and none for any other line.
    An entry has the number of its line, counted from 1, and its fields are
    the parts of that line: hashes and spaces, the version text, spaces, a
    date or nothing, and then only spaces; its version and its style are
    those that [Parse] and [ParseStyle] find in the version text. *)
Theorem Read_headings (text : gostring) (c : Content) :
  Read text = inr c →
  lines c = Split text newline ∧
  StronglySorted line_lt (versions c) ∧
  (∀ x, x ∈ versions c →
     ∃ (n : nat) l tok,
       line x = (Z.of_nat n + 1)%Z ∧ lines c !! n = Some l ∧
       headingParts l (prefix x) tok (sep x) (date x) ∧
       Parse tok = inr (ver x) ∧ ParseStyle tok = Some (style x)) ∧
  (∀ (n : nat) l, lines c !! n = Some l → isHeading l →
     ∃ x, x ∈ versions c ∧ line x = (Z.of_nat n + 1)%Z).
Proof. apply Read_parts. Qed.

Lemma Read_accepts (text : gostring) :
  (∀ l m, l ∈ Split text newline →
          FindStringSubmatch changesVersionRE l = Some m →
          ∃ v, Parse (sub m 2) = inr v) →
  ∃ c, Read text = inr c.
Proof.
  intros Hall. rewrite Read_entriesFrom.
  destruct (entriesFrom 0 (Split text newline)) as [e|xs] eqn:Hxs;
    [|by eexists].
  apply entriesFrom_inl in Hxs as (n & l & Hl & He & _). exfalso.
  unfold entryOf in He.
  destruct (FindStringSubmatch changesVersionRE l) as [m|] eqn:Hm; [|done].
  destruct (Hall l m) as [v Hv]; [by eapply list_elem_of_lookup_2|done|].
  by rewrite Hv in He.
Qed.

(** X12: [Read] fails only on a heading with a number that is larger than
    a Go int.  The error is that of the first such heading in the text; it
    names the digits of the number, which stand in that line, and it gives
    the index of the line counted from 0, one less than the line number that
    an entry of the same line would have.  A text all of whose headings have
    a version text that [Parse] accepts is read. *)
Theorem Read_error (text : gostring) :
  (∀ err, Read text = inl err →
     ∃ (n : nat) l ds,
       Split text newline !! n = Some l ∧ isHeading l ∧
       tooLarge ds ∧ (∃ s1 s2, l = s1 ++ ds ++ s2) ∧
       (err = ErrOnLine (BadMajor ds) (Z.of_nat n)
        ∨ err = ErrOnLine (BadMinor ds) (Z.of_nat n)
        ∨ err = ErrOnLine (BadPatch ds) (Z.of_nat n)) ∧
       ∀ (j : nat) l' m, j < n → Split text newline !! j = Some l' →
         FindStringSubmatch changesVersionRE l' = Some m →
         ∃ v, Parse (sub m 2) = inr v) ∧
  ((∀ l m, l ∈ Split text newline →
           FindStringSubmatch changesVersionRE l = Some m →
           ∃ v, Parse (sub m 2) = inr v) →
   ∃ c, Read text = inr c).
Proof.
  split; [|apply Read_accepts]. intros err. rewrite Read_entriesFrom.
  destruct (entriesFrom 0 (Split text newline)) as [e|xs] eqn:Hxs; [|done].
  intros [= <-]. apply entriesFrom_inl in Hxs as (n & l & Hl & He & Hbefore).
  simpl in He. pose proof He as He'.
  apply entryOf_inl in He' as (ds & Hds & Hin & Herr).
  exists n, l, ds. split; [done|]. split.
  { unfold isHeading. unfold entryOf in He.
    by destruct (FindStringSubmatch changesVersionRE l). }
  split; [done|]. split; [done|]. split; [done|].
  intros j l' m Hj Hl' Hm. specialize (Hbefore j l'). simpl in Hbefore.
  unfold entryOf in Hbefore. rewrite Hm in Hbefore.
  destruct (Parse (sub m 2)) as [e'|v]; [|by exists v].
  by destruct (Hbefore _ Hj Hl' eq_refl).
Qed.

(** ** The matcher on a heading *)

Lemma run_Grp_fwd i r s1 rest pos c k m :
  (∀ k', k' (pos + length s1) rest c = Some m →
         run r pos (s1 ++ rest) c k' = Some m) →
  k (pos + length s1) rest (<[i := s1]> c) = Some m →
  run (Grp i r) pos (s1 ++ rest) c k = Some m.
Proof.
  intros Hr Hk. rewrite run_Grp. apply Hr.
  by rewrite Nat.add_sub', take_app_length.
Qed.

Lemma run_Star_Cls p ws rest pos c k m :
  Forall (λ a, p a = true) ws → stops p rest →
  k (pos + length ws) rest c = Some m →
  run (Star (Cls p)) pos (ws ++ rest) c k = Some m.
Proof. intros. rewrite run_Star. apply star_greedy; [done..|lia|done]. Qed.

Lemma run_Lit_nil a pos c k : run (Lit a) pos [] c k = None.
Proof. done. Qed.

Lemma tokenEnd_stops (rest : gostring) :
  tokenEnd rest → stops is_digit rest ∧ stops is_word rest ∧
  (∀ a pos c k, a ≠ " "%char → run (Lit a) pos rest c k = None).
Proof.
  destruct rest as [|b rest]; simpl; [done|]. intros ->.
  split; [done|]. split; [done|]. intros. by apply run_Lit_other.
Qed.

Lemma run_tokenRE p ma mi pa fl rest pos c k m :
  prefixOK p → some_of is_digit ma → some_of is_digit mi →
  (∀ x, pa = Some x → some_of is_digit x) →
  (∀ f, fl = Some f → some_of is_word f) →
  tokenEnd rest →
  k (pos + length (p ++ numbersText ma mi pa fl)) rest c = Some m →
  run tokenRE pos ((p ++ numbersText ma mi pa fl) ++ rest) c k = Some m.
Proof.
  intros Hp Hma Hmi Hpa Hfl Hend Hk.
  destruct (tokenEnd_stops rest Hend) as (Hd & Hw & Hlit).
  assert (∀ pos,
    k (pos + length (numbersText ma mi pa fl)) rest c = Some m →
    run (Cat (Plus digitRE) (Cat (Lit ".") (Cat (Plus digitRE)
          (Cat (Opt (Cat (Lit ".") (Plus digitRE)))
               (Opt (Cat (Lit "-") (Plus (Cls is_word))))))))
      pos (numbersText ma mi pa fl ++ rest) c k = Some m) as Hnum.
  { clear Hk. intros pos' Hk. unfold numbersText, digitRE in *.
    rewrite <- app_assoc. rewrite run_Cat. apply run_Plus; [done|done|].
    simpl app. rewrite run_Cat, run_Lit, run_Cat. rewrite <- !app_assoc.
    apply run_Plus; [done|by destruct pa, fl, rest|].
    rewrite run_Cat.
    assert (∀ pos,
      k (pos + length (flavorText fl)) rest c = Some m →
      run (Opt (Cat (Lit "-") (Plus (Cls is_word)))) pos
        (flavorText fl ++ rest) c k = Some m) as Hflav.
    { intros pos'' Hk'. destruct fl as [f|]; simpl flavorText in *.
      - apply run_Opt_taken. rewrite <- app_comm_cons, run_Cat, run_Lit.
        apply run_Plus; [by apply Hfl|done|].
        rewrite <- Hk'. f_equal. simpl. lia.
      - simpl app. rewrite run_Opt_skipped.
        + by rewrite Nat.add_0_r in Hk'.
        + rewrite run_Cat. by apply Hlit. }
    destruct pa as [x|]; simpl patchText in *.
    - apply run_Opt_taken. rewrite <- app_comm_cons, run_Cat, run_Lit.
      apply run_Plus; [by apply Hpa|by destruct fl, rest|].
      apply Hflav. rewrite <- Hk. f_equal. solve_length.
    - simpl app. rewrite run_Opt_skipped.
      + apply Hflav. rewrite <- Hk. f_equal. solve_length.
      + rewrite run_Cat. destruct fl; [done|]. simpl app. by apply Hlit. }
  unfold tokenRE. rewrite run_Cat, <- app_assoc.
  destruct (decide (p = [])) as [->|Hne].
  - simpl app. rewrite run_Opt_skipped.
    + apply Hnum. by rewrite <- Hk.
    + unfold numbersText. rewrite <- app_assoc, <- app_comm_cons.
      by apply run_prefixRE_none.
  - apply run_Opt_taken. unfold numbersText at 1.
    rewrite <- app_assoc. simpl app.
    apply run_prefixRE; [done..|].
    pose proof (Hnum (pos + length p)) as Hn. unfold numbersText in Hn at 2.
    rewrite <- app_assoc in Hn. simpl app in Hn. apply Hn.
    rewrite <- Hk. f_equal. solve_length.
Qed.

Lemma run_dateRE d rest pos c k m :
  isDate d → k (pos + length d) rest c = Some m →
  run dateRE pos (d ++ rest) c k = Some m.
Proof.
  intros (y1 & y2 & y3 & y4 & m1 & m2 & d1 & d2 & -> & Hd) Hk.
  repeat (apply Forall_cons in Hd as [? Hd]). unfold dateRE, digitRE.
  simpl app.
  repeat first [rewrite run_Cat | rewrite run_Lit
               | rewrite run_Cls; match goal with H : _ = true |- _ => rewrite H; clear H end].
  rewrite <- Hk. f_equal. simpl. lia.
Qed.

Lemma run_dateRE_nil pos c k : run dateRE pos [] c k = None.
Proof. done. Qed.

Lemma versionParts_head tok p ma mi pa fl :
  versionParts tok p ma mi pa fl →
  ∃ a t, tok = a :: t ∧ is_hash a = false ∧ is_space a = false.
Proof.
  intros (-> & Hp & [Hne Hma] & _).
  assert (∀ a, is_word a = true → is_hash a = false ∧ is_space a = false) as Hw.
  { intros a Ha. split; apply bool_decide_eq_false; by intros ->. }
  destruct Hp as [| |w Hw'].
  - destruct ma as [|a ma]; [done|]. apply Forall_cons in Hma as [Ha _].
    exists a. eexists. split; [done|]. by apply Hw, is_digit_word.
  - by eexists _, _.
  - destruct w as [|a w].
    + by eexists _, _.
    + apply Forall_cons in Hw' as [Ha _]. exists a. eexists.
      split; [done|]. by apply Hw.
Qed.

Lemma isDate_head d : isDate d → stops is_space d ∧ d ≠ [].
Proof.
  intros (y1 & ? & ? & ? & ? & ? & ? & ? & -> & Hd).
  apply Forall_cons in Hd as [H1 _]. split; [|done]. simpl.
  apply bool_decide_eq_false. by intros ->.
Qed.

Lemma spaces_head (s rest : gostring) :
  spaces s → s ≠ [] → tokenEnd (s ++ rest).
Proof.
  intros Hs Hne. destruct s as [|a s]; [done|].
  apply Forall_cons in Hs as [Ha _]. simpl. by apply bool_decide_eq_true in Ha.
Qed.

(** [changesVersionRE] on a heading without spaces at its end.  The date,
    when there is one, is set off by a space. *)
Lemma changesVersionRE_match (h s tok p ma mi : gostring)
    (pa fl : option gostring) (sp d : gostring) :
  hashes h → spaces s → versionParts tok p ma mi pa fl → spaces sp →
  d = [] ∨ isDate d → sp ≠ [] ∨ d = [] →
  ∃ m, FindStringSubmatch changesVersionRE ((h ++ s) ++ tok ++ sp ++ d) = Some m
       ∧ sub m 1 = h ++ s ∧ sub m 2 = tok ∧ sub m 3 = sp ∧ sub m 4 = d.
Proof.
  intros Hh Hs Htok Hsp Hd Hsep.
  destruct (versionParts_head _ _ _ _ _ _ Htok) as (a & t & Ha & Hah & Has).
  destruct Htok as (Htok & Hp & Hma & Hmi & Hpa & Hfl).
  assert (tokenEnd (sp ++ d)) as Hend.
  { destruct (decide (sp = [])) as [->|Hne]; [|by apply spaces_head].
    destruct Hsep as [?| ->]; done. }
  assert (stops is_space d) as Hstop.
  { destruct Hd as [->|Hd]; [done|]. by apply isDate_head in Hd as [? _]. }
  unfold FindStringSubmatch, changesVersionRE; simpl re_syntax; simpl re_groups.
  assert (∀ r k m,
    run r (length (h ++ s) + length tok + length sp) d
      (<[3 := sp]> (<[2 := tok]> (<[1 := h ++ s]> (replicate 5 [])))) k
    = Some m →
    run (Cat Bot
          (Cat (Grp 1 (Cat (Star (Cls is_hash)) (Star (Cls is_space))))
          (Cat (Grp 2 tokenRE) (Cat (Grp 3 (Star (Cls is_space))) r))))
      0 ((h ++ s) ++ tok ++ sp ++ d) (replicate 5 []) k = Some m) as Hfront.
  { intros r k m Hk. rewrite run_Cat, run_Bot_start, run_Cat.
    apply run_Grp_fwd.
    { intros k' Hk'. rewrite run_Cat, <- app_assoc.
      apply run_Star_Cls; [done| |].
      - rewrite Ha. destruct s as [|b s]; [done|].
        apply Forall_cons in Hs as [Hb _]. simpl.
        apply bool_decide_eq_true in Hb as ->. done.
      - apply run_Star_Cls; [done|by rewrite Ha|].
        rewrite <- Hk'. f_equal. solve_length. }
    rewrite run_Cat. apply run_Grp_fwd.
    { intros k' Hk'. rewrite Htok in *. by apply run_tokenRE. }
    rewrite run_Cat. apply run_Grp_fwd.
    { intros k' Hk'. by apply run_Star_Cls. }
    rewrite <- Hk. f_equal. }
  destruct Hd as [->|Hd].
  - eexists. split.
    + apply search_first. apply Hfront. simpl. reflexivity.
    + done.
  - eexists. split.
    + apply search_first. apply Hfront.
      rewrite run_Cat. apply run_Opt_taken.
      rewrite <- (app_nil_r d) at 1. apply run_Grp_fwd.
      { intros k' Hk'. by apply run_dateRE. }
      simpl. reflexivity.
    + done.
Qed.

(** ** The notes of any version *)

Lemma findNotes_started (vs : list version) (v : Version) (s e : Z) :
  s ≠ (-1)%Z →
  findNotes vs v s e
  = (s, match vs with y :: _ => (line y - 1)%Z | [] => e end).
Proof. intros Hs. destruct vs; simpl; [done|]. by rewrite decide_True. Qed.

Lemma findNotes_absent (vs : list version) (v : Version) :
  v ∉ ver <$> vs → findNotes vs v (-1) (-1) = ((-1)%Z, (-1)%Z).
Proof.
  induction vs as [|x vs IH]; simpl; [done|]. intros Hv.
  rewrite not_elem_of_cons in Hv. destruct Hv as [Hx Hv].
  rewrite decide_False by congruence. by apply IH.
Qed.

Lemma findNotes_found (pre rest : list version) (x : version) (v : Version) :
  v ∉ ver <$> pre → ver x = v → line x ≠ (-1)%Z →
  findNotes (pre ++ x :: rest) v (-1) (-1)
  = (line x, match rest with y :: _ => (line y - 1)%Z | [] => (-1)%Z end).
Proof.
  intros Hpre Hx Hl. induction pre as [|p pre IH]; simpl.
  - rewrite decide_True by done. by apply findNotes_started.
  - simpl in Hpre. rewrite not_elem_of_cons in Hpre. destruct Hpre as [Hp Hpre].
    rewrite decide_False by congruence. by apply IH.
Qed.

(** The notes that [ReleaseNotes] cuts out, given the two lines that its
    first loop has found. *)
Lemma notes_block (c : Content) (v : Version) (e : Z)
    (pre block post : list gostring) :
  findNotes (versions c) v (-1) (-1) = (len pre, e) →
  lines c = pre ++ block ++ post →
  (e = (-1)%Z ∧ post = []) ∨
  (e = (len pre + len block)%Z ∧ ∃ h post', post = h :: post' ∧ isBlank h = false) →
  ReleaseNotes c v = Some (Join (trimBlank block) [newline], true).
Proof.
  intros Hfind Hls Hend. unfold ReleaseNotes. rewrite Hfind. unfold len in *.
  rewrite decide_False by lia.
  set (bp := blankPrefix block).
  pose proof (blankPrefix_le block) as Hbp. fold bp in Hbp.
  set (b1 := drop bp block).
  set (t := blankPrefix (reverse b1)).
  assert (t ≤ length block - bp) as Ht.
  { unfold t. etrans; [apply blankPrefix_le|].
    unfold b1. by rewrite length_reverse, length_drop. }
  assert (blankPrefix (block ++ post) = bp) as Hstop.
  { destruct Hend as [[_ ->]|(_ & h & post' & -> & Hh)].
    - by rewrite app_nil_r.
    - by apply blankPrefix_stop. }
  assert (skipBlankForward (lines c) (Z.of_nat (length pre))
          = Some (Z.of_nat (length pre + bp))) as ->.
  { unfold skipBlankForward, len. rewrite Hls.
    case_decide as Hlt.
    - rewrite decide_True by lia.
      rewrite Nat2Z.id, drop_app_length, Hstop. f_equal. lia.
    - f_equal. assert (length (block ++ post) = 0) as Hz.
      { rewrite !length_app in Hlt. rewrite length_app. lia. }
      assert (bp = 0) as ->; [|lia].
      rewrite length_app in Hz. pose proof (blankPrefix_le block).
      unfold bp. lia. }
  simpl.
  assert ((if decide (e = (-1)%Z) then Z.of_nat (length (lines c)) else e)
          = Z.of_nat (length pre + length block)) as ->.
  { destruct Hend as [[-> ->]|(-> & _)].
    - rewrite decide_True by done. rewrite Hls. f_equal. solve_length.
    - rewrite decide_False by lia. lia. }
  assert (slice (lines c) (Z.of_nat (length pre + bp))
            (Z.of_nat (length pre + length block)) = Some b1) as Hb1.
  { rewrite Hls, slice_of_nat; [|lia|solve_length]. f_equal.
    rewrite drop_app_add, drop_app_le by done. fold b1.
    apply take_app_length'. unfold b1. rewrite length_drop. lia. }
  assert (skipBlankBackward (lines c) (Z.of_nat (length pre + bp))
            (Z.of_nat (length pre + length block))
          = Some (Z.of_nat (length pre + length block - t))) as ->.
  { unfold skipBlankBackward.
    case_decide as Hgt.
    - rewrite Hb1. f_equal. fold t. lia.
    - f_equal. assert (length b1 = 0) as Hz
        by (unfold b1; rewrite length_drop; lia).
      assert (t = 0) as ->; [|lia].
      unfold t. destruct b1; [done|discriminate]. }
  simpl. rewrite Hls, slice_of_nat; [|lia|solve_length]. simpl.
  do 3 f_equal. rewrite trimBlank_take_drop. fold bp b1 t.
  rewrite drop_app_add, drop_app_le by done. fold b1.
  rewrite take_app_le by (unfold b1; rewrite length_drop; lia).
  f_equal. lia.
Qed.

Lemma headingParts_not_blank (l pre tok sp d : gostring) :
  headingParts l pre tok sp d → isBlank l = false.
Proof.
  intros (_ & (p & ma & mi & pa & fl & -> & _ & [Hne Hma] & _)
          & _ & _ & tr & _ & ->).
  apply isBlank_digit. unfold numbersText.
  assert (Exists (λ a, is_digit a = true) ma) as Hex.
  { destruct ma as [|a ma]; [done|].
    apply Forall_cons in Hma as [Ha _]. by left. }
  rewrite !Exists_app. tauto.
Qed.

(** X13: [ReleaseNotes] on a document that was read never fails.  For a
    version that no entry has it answers the empty text and false.
    Otherwise it takes the first entry with the version and answers true
    with the lines after that heading, up to the next heading or, for the
    last entry, to the end of the document, without the blank lines at both
    ends, joined by newlines. *)
Theorem ReleaseNotes_spec (text : gostring) (c : Content) (v : Version) :
  Read text = inr c →
  (v ∉ ver <$> versions c → ReleaseNotes c v = Some ([], false)) ∧
  (∀ pre x rest,
     versions c = pre ++ x :: rest → ver x = v → v ∉ ver <$> pre →
     ReleaseNotes c v
     = Some (Join (trimBlank (notesOf c x rest)) [newline], true)).
Proof.
  intros HR. split.
  - intros Hv. unfold ReleaseNotes. by rewrite findNotes_absent.
  - intros pre x rest Hvs Hx Hpre.
    apply Read_parts in HR as (_ & Hsorted & Hent & _).
    destruct (Hent x) as (n & l & tok & Hl & Hn & _).
    { rewrite Hvs. set_solver. }
    apply lookup_lt_Some in Hn as Hlen.
    pose proof (findNotes_found pre rest x v Hpre Hx) as Hfind.
    rewrite <- Hvs in Hfind.
    destruct rest as [|y rest'].
    + apply (notes_block c v (-1) (take (S n) (lines c)) _ []).
      * rewrite Hfind by lia. f_equal. unfold len.
        rewrite length_take_le by lia. lia.
      * rewrite app_nil_r. unfold notesOf.
        replace (Z.to_nat (line x)) with (S n) by lia.
        by rewrite take_drop.
      * by left.
    + destruct (Hent y) as (n1 & l1 & tok1 & Hl1 & Hn1 & Hh1 & _).
      { rewrite Hvs. set_solver. }
      assert (n < n1) as Hlt.
      { rewrite Hvs in Hsorted. apply StronglySorted_app_1_r in Hsorted.
        apply StronglySorted_inv in Hsorted as [_ Hall].
        apply Forall_cons in Hall as [Hxy _]. unfold line_lt in Hxy. lia. }
      apply lookup_lt_Some in Hn1 as Hlen1.
      assert (isBlank l1 = false) as Hblank.
      { by eapply headingParts_not_blank. }
      apply (notes_block c v (line y - 1) (take (S n) (lines c)) _
               (drop n1 (lines c))).
      * rewrite Hfind by lia. f_equal. unfold len.
        rewrite length_take_le by lia. lia.
      * unfold notesOf, between.
        replace (Z.to_nat (line x)) with (S n) by lia.
        replace (Z.to_nat (line y - 1 - line x)) with (n1 - S n) by lia.
        rewrite <- (take_drop (S n) (lines c)) at 1. f_equal.
        rewrite <- (take_drop (n1 - S n) (drop (S n) (lines c))) at 1.
        f_equal. rewrite drop_drop. f_equal. lia.
      * right. split.
        -- unfold notesOf, between, len.
           replace (Z.to_nat (line x)) with (S n) by lia.
           replace (Z.to_nat (line y - 1 - line x)) with (n1 - S n) by lia.
           rewrite !length_take_le; [lia|rewrite length_drop; lia|lia].
        -- exists l1, (drop (S n1) (lines c)). split; [|done].
           by apply drop_S.
Qed.

Lemma ReleaseNotes_spec_witness :
  ReleaseNotes notes_content (ver notes_next) = Some ([], true).
Proof.
  destruct (ReleaseNotes_spec notes_doc notes_content (ver notes_next))
    as [_ H]; [by vm_compute|].
  apply (H [notes_top] notes_next []); [by vm_compute|done|].
  simpl. intros [Hin|Hin%elem_of_nil]%elem_of_cons; [discriminate Hin|done].
Defined.

(** ** A CHANGES file without findings *)

Lemma orderLoop_nil (next : version) (rest : list version) :
  orderLoop next rest = [] ↔
  Forall (λ x, Flavor (ver x) = []) rest ∧
  Forall (λ p, GreaterThan (ver p.1) (ver p.2) false = true)
         (zip (next :: rest) rest).
Proof.
  revert next. induction rest as [|curr rest IH]; intros next; simpl.
  - split; [by repeat constructor|done].
  - rewrite !Forall_cons, !app_nil, (IH curr). simpl.
    destruct (Flavor (ver curr)) as [|a f]; simpl;
      destruct (GreaterThan (ver next) (ver curr) false); simpl;
      naive_solver.
Qed.

Lemma GreaterThan_triple_flavor (a b : Version) :
  GreaterThan a b false = true → GreaterThan a b true = true.
Proof.
  intros H. apply GreaterThan_flavors. left. by apply GreaterThan_triple.
Qed.

Lemma descending_sorted (next : Version) (rest : list Version) :
  Forall (λ p, GreaterThan p.1 p.2 false = true) (zip (next :: rest) rest) →
  Sorted (λ a b, GreaterThan a b false = true) (next :: rest).
Proof.
  revert next. induction rest as [|curr rest IH]; intros next H.
  - by repeat constructor.
  - simpl in H. apply Forall_cons in H as [H1 H]. constructor.
    + by apply IH.
    + by constructor.
Qed.

Lemma Validate_nil (c : Content) (isDevelopmentBranch : bool) :
  Validate c isDevelopmentBranch = [] ↔ wellFormed c isDevelopmentBranch.
Proof.
  unfold Validate, wellFormed, CurrentVersion, adjacent.
  destruct (versions c) as [|top rest]; [naive_solver|].
  rewrite app_nil, orderLoop_nil. simpl.
  destruct isDevelopmentBranch, (Flavor (ver top)); simpl; naive_solver.
Qed.

Lemma wellFormed_Versions (c : Content) (isDevelopmentBranch : bool) :
  wellFormed c isDevelopmentBranch → Versions c = ver <$> versions c.
Proof.
  intros (Hne & _ & _ & Hdesc).
  unfold Versions. symmetry.
  apply (StronglySorted_unique notBefore); [|apply Sort_sorted|].
  - unfold adjacent in Hdesc. destruct (versions c) as [|top rest]; [done|].
    simpl in Hdesc.
    assert (Sorted (λ a b, GreaterThan a b false = true)
              (ver <$> top :: rest)) as Hs.
    { apply descending_sorted. simpl. clear Hne.
      revert top Hdesc. induction rest as [|x rest IH]; intros top Hd; simpl.
      - constructor.
      - simpl in Hd. apply Forall_cons in Hd as [H1 Hd].
        constructor; [done|]. by apply IH. }
    apply Sorted_StronglySorted in Hs.
    + induction Hs as [|a l Hs IH Hall]; constructor; [done|].
      eapply Forall_impl; [done|]. intros b Hab; simpl in *.
      by apply notBefore_of_GreaterThan, Is_true_true, GreaterThan_triple_flavor.
    + intros a b d. apply GreaterThan_order.
  - by rewrite Sort_Permutation.
Qed.

(** X14: [Validate] has nothing to report exactly when the document has
    an entry, the topmost entry is flavored if the branch is a development
    branch, no entry below the topmost is flavored, and each entry is
    greater than the next when the flavors are ignored.  The versions of
    such a document already stand from the most recent to the oldest:
    [Versions] returns them in the order of the document. *)
Theorem Validate_clean (c : Content) (isDevelopmentBranch : bool) :
  (Validate c isDevelopmentBranch = [] ↔ wellFormed c isDevelopmentBranch) ∧
  (Validate c isDevelopmentBranch = [] → Versions c = ver <$> versions c).
Proof.
  split; [apply Validate_nil|].
  intros H%Validate_nil. by eapply wellFormed_Versions.
Qed.

(** ** Lines and text *)

Lemma Split_line (l : gostring) (sep : ascii) : sep ∉ l → Split l sep = [l].
Proof.
  induction l as [|a l IH]; [done|]. intros [Ha Hl]%not_elem_of_cons. simpl.
  rewrite decide_False by done. by rewrite IH.
Qed.

Lemma Split_cons_line (l rest : gostring) (sep : ascii) :
  sep ∉ l → Split (l ++ sep :: rest) sep = l :: Split rest sep.
Proof.
  induction l as [|a l IH]; simpl.
  - intros _. by rewrite decide_True.
  - intros [Ha Hl]%not_elem_of_cons. rewrite decide_False by done.
    by rewrite IH.
Qed.

Lemma Split_Join (ls : list gostring) (sep : ascii) :
  ls ≠ [] → Forall (λ l, sep ∉ l) ls → Split (Join ls [sep]) sep = ls.
Proof.
  intros Hne Hall. induction Hall as [|l ls Hl Hall IH]; [done|].
  destruct ls as [|l' ls].
  - simpl. by apply Split_line.
  - change (Join (l :: l' :: ls) [sep]) with (l ++ sep :: Join (l' :: ls) [sep]).
    rewrite Split_cons_line by done. by rewrite IH.
Qed.

Lemma Split_no_sep (s : gostring) (sep : ascii) :
  Forall (λ l, sep ∉ l) (Split s sep).
Proof.
  induction s as [|a s IH]; simpl.
  - repeat constructor. by intros ?%elem_of_nil.
  - case_decide as Ha.
    + constructor; [by intros ?%elem_of_nil|done].
    + destruct (Split s sep) as [|l ls]; [repeat constructor; set_solver|].
      apply Forall_cons in IH as [Hl Hls]. constructor; [|done].
      by intros [->|?]%elem_of_cons.
Qed.

Lemma headingParts_no_newline (l pre tok sp d : gostring) :
  headingParts l pre tok sp d → newline ∉ l.
Proof.
  assert (∀ (p : ascii → bool) s, p newline = false →
            Forall (λ a, p a = true) s → newline ∉ s) as Hcls.
  { intros p s Hp Hs Hin. rewrite Forall_forall in Hs.
    apply Hs in Hin. congruence. }
  intros ((h & s & -> & Hh & Hs)
          & (p & ma & mi & pa & fl & -> & Hp & [_ Hma] & [_ Hmi] & Hpa & Hfl)
          & Hsp & Hd & tr & Htr & ->).
  apply (Hcls is_hash) in Hh; [|done]. apply (Hcls is_space) in Hs; [|done].
  apply (Hcls is_space) in Hsp; [|done]. apply (Hcls is_space) in Htr; [|done].
  apply (Hcls is_digit) in Hma; [|done]. apply (Hcls is_digit) in Hmi; [|done].
  assert (newline ∉ p) as Hp'.
  { destruct Hp as [| |w Hw]; [set_solver|set_solver|].
    apply (Hcls is_word) in Hw; [|done]. set_solver. }
  assert (newline ∉ patchText pa) as Hpa'.
  { destruct pa as [x|]; [|set_solver]. destruct (Hpa x eq_refl) as [_ Hx].
    apply (Hcls is_digit) in Hx; [|done]. unfold patchText. set_solver. }
  assert (newline ∉ flavorText fl) as Hfl'.
  { destruct fl as [f|]; [|set_solver]. destruct (Hfl f eq_refl) as [_ Hf].
    apply (Hcls is_word) in Hf; [|done]. unfold flavorText. set_solver. }
  assert (newline ∉ d) as Hd'.
  { destruct Hd as [->|(y1 & y2 & y3 & y4 & m1 & m2 & d1 & d2 & -> & Hd)];
      [set_solver|].
    apply (Hcls is_digit) in Hd; [|done]. set_solver. }
  unfold numbersText. rewrite !elem_of_app, elem_of_cons, !elem_of_app.
  intros H. decompose [or] H; try done.
Qed.

(** ** Entries of lines put together *)

Lemma entryOf_shift (i k : Z) (l : gostring) :
  entryOf (i + k) l
  = match entryOf i l with
    | None => None
    | Some (inl (ErrOnLine e j)) => Some (inl (ErrOnLine e (j + k)))
    | Some (inr x) => Some (inr (shiftEntry k x))
    end.
Proof.
  unfold entryOf. destruct (FindStringSubmatch changesVersionRE l) as [m|]; [|done].
  destruct (Parse (sub m 2)); [done|]. unfold shiftEntry. simpl.
  do 3 f_equal. lia.
Qed.

Lemma entriesFrom_shift (i k : Z) (ls : list gostring) (xs : list version) :
  entriesFrom i ls = inr xs →
  entriesFrom (i + k) ls = inr (shiftEntry k <$> xs).
Proof.
  revert i xs. induction ls as [|l ls IH]; intros i xs H; simpl in *.
  - by simplify_eq.
  - rewrite entryOf_shift. destruct (entryOf i l) as [[e|x]|]; [done|..].
    + destruct (entriesFrom (i + 1) ls) as [|xs'] eqn:Hxs; [done|].
      simplify_eq. replace (i + k + 1)%Z with (i + 1 + k)%Z by lia.
      by rewrite (IH _ _ Hxs).
    + replace (i + k + 1)%Z with (i + 1 + k)%Z by lia. by apply IH.
Qed.

Lemma entriesFrom_app (i : Z) (l1 l2 : list gostring) :
  entriesFrom i (l1 ++ l2)
  = match entriesFrom i l1 with
    | inl e => inl e
    | inr xs =>
        match entriesFrom (i + len l1) l2 with
        | inl e => inl e
        | inr ys => inr (xs ++ ys)
        end
    end.
Proof.
  revert i. induction l1 as [|l l1 IH]; intros i; simpl.
  - unfold len. simpl. rewrite Z.add_0_r. by destruct (entriesFrom i l2).
  - replace (i + len (l :: l1))%Z with (i + 1 + len l1)%Z
      by (unfold len; simpl; lia).
    destruct (entryOf i l) as [[e|x]|]; [done|..]; rewrite IH;
      destruct (entriesFrom (i + 1) l1); try done;
      destruct (entriesFrom (i + 1 + len l1) l2); done.
Qed.

Lemma entriesFrom_none (i : Z) (ls : list gostring) :
  Forall (λ l, ¬ isHeading l) ls → entriesFrom i ls = inr [].
Proof.
  intros H. revert i. induction H as [|l ls Hl _ IH]; intros i; simpl; [done|].
  unfold entryOf. destruct (FindStringSubmatch changesVersionRE l) eqn:Hm.
  - destruct Hl. unfold isHeading. by rewrite Hm.
  - apply IH.
Qed.

Lemma entriesFrom_lines (i : Z) (ls : list gostring) (xs : list version) :
  entriesFrom i ls = inr xs →
  Forall (λ x, (i < line x ≤ i + len ls)%Z) xs.
Proof.
  intros H. apply entriesFrom_inr in H as (_ & _ & Hmem).
  apply Forall_forall. intros x (n & l & Hl & He)%Hmem.
  apply entryOf_inr in He as [Hx _]. apply lookup_lt_Some in Hl.
  unfold len. lia.
Qed.

Lemma blank_not_heading : ¬ isHeading [].
Proof. by intros [m Hm]. Qed.

Lemma parse_loop_entriesFrom (i : Z) (ls : list gostring)
    (vs xs : list version) :
  entriesFrom i ls = inr xs → parse_loop i ls vs = (vs ++ xs, None).
Proof.
  revert i vs xs. induction ls as [|l ls IH]; intros i vs xs H; simpl in *.
  - simplify_eq. by rewrite app_nil_r.
  - unfold entryOf in H.
    destruct (FindStringSubmatch changesVersionRE l) as [m|]; [|by apply IH].
    destruct (Parse (sub m 2)) as [e|v]; [done|].
    destruct (entriesFrom (i + 1) ls) as [|xs'] eqn:Hxs; [done|].
    simplify_eq. rewrite (IH _ _ xs') by done. by rewrite <- app_assoc.
Qed.

(** The lines around the topmost heading. *)
Lemma entries_top (ls : list gostring) (top : version) (rest : list version) :
  entriesFrom 0 ls = inr (top :: rest) →
  ∃ (n : nat) h,
    line top = (Z.of_nat n + 1)%Z ∧ ls !! n = Some h ∧
    entryOf (Z.of_nat n) h = Some (inr top) ∧
    entriesFrom 0 (take n ls) = inr [] ∧
    entriesFrom (Z.of_nat n + 1) (drop (S n) ls) = inr rest.
Proof.
  intros Hp.
  pose proof (entriesFrom_inr _ _ _ Hp) as (_ & _ & Hmem).
  destruct (proj1 (Hmem top)) as (n & h & Hn & He); [set_solver|].
  rewrite Z.add_0_l in He. pose proof He as He'.
  apply entryOf_inr in He' as [Hl _].
  exists n, h. split; [done|]. split; [done|]. split; [done|].
  apply lookup_lt_Some in Hn as Hlen.
  rewrite <- (take_drop_middle _ _ _ Hn) in Hp.
  rewrite entriesFrom_app in Hp.
  destruct (entriesFrom 0 (take n ls)) as [|xs] eqn:Hxs; [done|].
  pose proof (entriesFrom_lines _ _ _ Hxs) as Hbound.
  assert (len (take n ls) = Z.of_nat n) as Hlen'
    by (unfold len; rewrite length_take_le by lia; done).
  rewrite Hlen' in *. simpl in Hp. rewrite !Z.add_0_l in *. rewrite He in Hp.
  destruct (entriesFrom (Z.of_nat n + 1) (drop (S n) ls)) as [|ys]
    eqn:Hys; [done|].
  destruct xs as [|x xs].
  - simpl in Hp. by simplify_eq.
  - simpl in Hp. simplify_eq. apply Forall_cons in Hbound as [Hb _]. lia.
Qed.

Lemma parsed_top (c : Content) (top : version) (rest : list version) :
  parsed c → versions c = top :: rest →
  ∃ (n : nat) h,
    line top = (Z.of_nat n + 1)%Z ∧ lines c !! n = Some h ∧
    entryOf (Z.of_nat n) h = Some (inr top) ∧
    entriesFrom 0 (take n (lines c)) = inr [] ∧
    entriesFrom (Z.of_nat n + 1) (drop (S n) (lines c)) = inr rest.
Proof.
  unfold parsed. intros Hp Hvs. rewrite Hvs in Hp. by apply entries_top.
Qed.

(** ** Headings written by the program *)

Lemma Format_versionParts (st : Style) (v : Version) :
  prefixOK (Prefix st) → validVersion v →
  versionParts (Format st v) (Prefix st) (itoa (Major v)) (itoa (Minor v))
    (itoa <$> formattedPatch st v) (formattedFlavor v).
Proof.
  intros Hp (Hma & Hmi & Hpa & Hfl). rewrite Format_versionString.
  split; [done|]. split; [done|].
  split; [apply itoa_digits; lia|]. split; [apply itoa_digits; lia|]. split.
  - unfold formattedPatch. intros x. case_match; [|done].
    intros [= <-]. apply itoa_digits; lia.
  - unfold formattedFlavor. intros f. destruct (Flavor v) eqn:E; [done|].
    simpl. intros [= <-]. by split.
Qed.

Lemma entryOf_inr_OK (i : Z) (l : gostring) (x : version) :
  entryOf i l = Some (inr x) → entryOK x.
Proof.
  intros (_ & tok & (Hpre & _ & Hsp & Hd & _) & _ & HS)%entryOf_inr.
  split; [done|]. split; [by apply (ParseStyle_prefixOK tok)|done].
Qed.

(** The heading that [version.String] writes is read back as the entry,
    with the style of its text.  The date, when there is one, has to be set
    off by a space. *)
Lemma entryOf_version_String (i : Z) (x : version) :
  entryOK x → validVersion (ver x) → sep x ≠ [] ∨ date x = [] →
  entryOf i (version_String x)
  = Some (inr {| ver := ver x; line := i + 1; prefix := prefix x;
                 style := styleOfFormat (style x) (ver x);
                 sep := sep x; date := date x |}).
Proof.
  intros ((h & s & Hpre & Hh & Hs) & Hp & Hsp & Hd) Hv Hsep.
  pose proof (Format_versionParts (style x) (ver x) Hp Hv) as Htok.
  destruct (changesVersionRE_match h s _ _ _ _ _ _ (sep x) (date x)
              Hh Hs Htok Hsp Hd Hsep) as (m & Hm & H1 & H2 & H3 & H4).
  unfold entryOf, version_String. rewrite Hpre, Hm, H1, H2, H3, H4.
  destruct (Parse_Format_valid (style x) (ver x) Hp Hv) as [-> ->]. done.
Qed.

Lemma Read_parsed (text : gostring) (c : Content) :
  Read text = inr c → parsed c ∧ lines c = Split text newline.
Proof.
  rewrite Read_entriesFrom.
  destruct (entriesFrom 0 (Split text newline)) as [|xs] eqn:Hxs; [done|].
  by intros [= <-].
Qed.

Lemma Read_String_lines (ls : list gostring) (xs : list version) :
  ls ≠ [] → Forall (λ l, newline ∉ l) ls → entriesFrom 0 ls = inr xs →
  Read (Join ls [newline]) = inr {| versions := xs; lines := ls |}.
Proof.
  intros Hne Hnl Hxs. rewrite Read_entriesFrom, Split_Join by done.
  by rewrite Hxs.
Qed.

Lemma Adjust_reread (text : gostring) (c : Content)
    (v : Version) (today : gostring) (top : version) (rest : list version) :
  Read text = inr c → versions c = top :: rest →
  validVersion v → isDate today →
  let top' := adjusted top v today in
  let lines' := <[Z.to_nat (line top - 1) := version_String top']> (lines c) in
  AdjustCurrentVersion c v today
  = Some ({| versions := top' :: rest; lines := lines' |}, true) ∧
  Read (String {| versions := top' :: rest; lines := lines' |})
  = inr {| versions := restyled top' :: rest; lines := lines' |}.
Proof.
  intros [Hp Hls]%Read_parsed Hvs Hv Hd top' lines'.
  destruct (parsed_top c top rest Hp Hvs) as (n & h & Hl & Hn & He & Hpre & Hpost).
  apply lookup_lt_Some in Hn as Hlen.
  split.
  - unfold AdjustCurrentVersion. rewrite Hvs. simpl.
    rewrite decide_True by (unfold len; lia). done.
  - unfold String. simpl.
    assert (entryOK top' ∧ (sep top' ≠ [] ∨ date top' = [])) as [HOK Hsep].
    { apply entryOf_inr_OK in He as (Hpr & Hst & Hsp & _).
      split; [split; [done|]; split; [done|]; split; [|by right]|left]; simpl.
      - destruct (sep top); [by repeat constructor|done].
      - by destruct (sep top). }
    pose proof (entryOf_version_String (Z.of_nat n) top' HOK Hv Hsep) as He'.
    apply Read_String_lines.
    + unfold lines'. intros Hnil%(f_equal length).
      rewrite length_insert in Hnil. simpl in Hnil. lia.
    + unfold lines'. apply Forall_insert.
      * rewrite Hls. apply Split_no_sep.
      * apply entryOf_inr in He' as (_ & tok & Hparts & _).
        by eapply headingParts_no_newline.
    + unfold lines'. replace (Z.to_nat (line top - 1)) with n by lia.
      rewrite insert_take_drop by done. rewrite entriesFrom_app, Hpre.
      unfold len. rewrite length_take_le by lia. simpl.
      rewrite !Z.add_0_l, He', Hpost. unfold restyled. simpl.
      do 3 f_equal. lia.
Qed.

(** X15: [AdjustCurrentVersion] on a document that was read, with a
    version of numbers in range and a flavor of word characters, and with a
    date of the form YYYY-MM-DD.  The call does not fail; it changes the
    topmost entry and the line of its heading and nothing else, and it puts
    two spaces before the date where the heading had no space after its
    version.  The text of
    the new content is read back as the new content, the style of the
    topmost entry being that of its new text: the entries in memory and the
    file that is written agree. *)
Theorem AdjustCurrentVersion_reread (text : gostring) (c : Content)
    (v : Version) (today : gostring) (top : version) (rest : list version) :
  Read text = inr c → versions c = top :: rest →
  validVersion v → isDate today →
  let top' := adjusted top v today in
  let lines' := <[Z.to_nat (line top - 1) := version_String top']> (lines c) in
  AdjustCurrentVersion c v today
  = Some ({| versions := top' :: rest; lines := lines' |}, true) ∧
  Read (String {| versions := top' :: rest; lines := lines' |})
  = inr {| versions := restyled top' :: rest; lines := lines' |}.
Proof. apply Adjust_reread. Qed.

(** ** Blank lines around notes *)

Lemma blankPrefix_all (xs ys : list gostring) :
  blankPrefix xs = length xs →
  blankPrefix (xs ++ ys) = length xs + blankPrefix ys.
Proof.
  induction xs as [|x xs IH]; simpl; [done|].
  destruct (isBlank x); [|done]. intros [= H]. by rewrite IH.
Qed.

Lemma blankPrefix_some (xs ys : list gostring) :
  blankPrefix xs ≠ length xs → blankPrefix (xs ++ ys) = blankPrefix xs.
Proof.
  induction xs as [|x xs IH]; simpl; [done|].
  destruct (isBlank x); [|done]. intros H. rewrite IH; [done|lia].
Qed.

Lemma dropBlank_blank (ls : list gostring) : dropBlank ([] :: ls) = dropBlank ls.
Proof. done. Qed.

Lemma dropBlank_snoc (ls : list gostring) :
  dropBlank (reverse (dropBlank (ls ++ [[]])))
  = dropBlank (reverse (dropBlank ls)).
Proof.
  unfold dropBlank at 2 4.
  destruct (decide (blankPrefix ls = length ls)) as [E|N].
  - rewrite blankPrefix_all by done. simpl.
    rewrite drop_ge by (rewrite length_app; simpl; lia).
    by rewrite E, drop_all.
  - rewrite blankPrefix_some by done.
    pose proof (blankPrefix_le ls).
    rewrite drop_app_le by lia. rewrite reverse_app. done.
Qed.

Lemma trimBlank_pad (ls : list gostring) :
  trimBlank ([] :: ls ++ [[]]) = trimBlank ls.
Proof.
  unfold trimBlank. rewrite dropBlank_blank. by rewrite dropBlank_snoc.
Qed.

(** ** A new topmost version *)

Lemma entryOf_blank (i : Z) : entryOf i [] = None.
Proof. done. Qed.

Lemma entriesFrom_inserted (before pad body after : list gostring)
    (hs : gostring) (x : version) (olds : list version) :
  entriesFrom 0 before = inr [] →
  Forall (λ l, ¬ isHeading l) pad → Forall (λ l, ¬ isHeading l) body →
  entryOf (len before + len pad) hs = Some (inr x) →
  entriesFrom (len before) after = inr olds →
  entriesFrom 0 (before ++ pad ++ hs :: [] :: body ++ after)
  = inr (x :: (shiftEntry (len pad + 2 + len body) <$> olds)).
Proof.
  intros Hb Hpad Hbody Hx Hafter.
  rewrite entriesFrom_app, Hb, Z.add_0_l.
  rewrite entriesFrom_app, (entriesFrom_none _ pad) by done.
  cbn [entriesFrom]. rewrite Hx, entryOf_blank.
  rewrite entriesFrom_app, (entriesFrom_none _ body) by done.
  replace (len before + len pad + 1 + 1 + len body)%Z
    with (len before + (len pad + 2 + len body))%Z by lia.
  by rewrite (entriesFrom_shift _ _ _ _ Hafter).
Qed.

Lemma readAs_insertAt (c : Content) (olds : list version) :
  readAs c olds →
  insertAt c ≤ length (lines c) ∧
  entriesFrom 0 (take (insertAt c) (lines c)) = inr [] ∧
  entriesFrom (Z.of_nat (insertAt c)) (drop (insertAt c) (lines c))
  = inr olds ∧
  ((drop (insertAt c) (lines c) = [] ∧ versions c = [] ∧ olds = []) ∨
   (∃ h post top rest y ys,
      drop (insertAt c) (lines c) = h :: post ∧ isBlank h = false ∧
      versions c = top :: rest ∧ olds = y :: ys ∧
      line top = (Z.of_nat (insertAt c) + 1)%Z ∧
      line y = (Z.of_nat (insertAt c) + 1)%Z ∧ entryOK top)).
Proof.
  intros [Hp Hhead]. unfold insertAt.
  destruct (versions c) as [|top rest] eqn:Hvs, olds as [|y ys]; try done.
  - rewrite firstn_all, drop_all. split; [done|]. split; [done|].
    split; [done|]. by left.
  - destruct Hhead as [Hline HOK].
    destruct (entries_top _ y ys Hp) as (n & h & Hl & Hn & He & Hpre & Hpost).
    apply lookup_lt_Some in Hn as Hlen.
    replace (Z.to_nat (line top - 1)) with n by lia.
    split; [lia|]. split; [done|].
    rewrite (drop_S _ _ _ Hn). split.
    + simpl. rewrite He, Hpost. done.
    + right. exists h, (drop (S n) (lines c)), top, rest, y, ys.
      split; [done|]. split.
      * apply entryOf_inr in He as (_ & tok & Hparts & _).
        by eapply headingParts_not_blank.
      * split; [done|]. split; [done|]. split; [lia|]. done.
Qed.

Lemma parsed_readAs (c : Content) : parsed c → readAs c (versions c).
Proof.
  intros Hp. split; [done|]. destruct (versions c) as [|top rest] eqn:Hvs;
    [done|]. split; [done|].
  destruct (parsed_top c top rest Hp Hvs) as (n & h & _ & _ & He & _).
  by eapply entryOf_inr_OK.
Qed.

Lemma newHeading_OK (c : Content) (olds : list version) (v : Version)
    (t : option gostring) :
  readAs c olds → (∀ d, t = Some d → isDate d) →
  (∀ top, head (versions c) = Some top → sep top = [] → t = None) →
  entryOK (newHeading c v t) ∧
  (sep (newHeading c v t) ≠ [] ∨ date (newHeading c v t) = []).
Proof.
  intros Hp Ht Hsep.
  assert (default [] t = [] ∨ isDate (default [] t)) as Hd.
  { destruct t as [d|]; [right; by apply Ht|by left]. }
  destruct (readAs_insertAt c olds Hp) as (_ & _ & _ & [(_ & Hvs & _)|Htop]).
  - unfold newHeading. rewrite Hvs. split.
    + split; [exists [], []; repeat split; constructor|].
      split; [constructor|].
      split; [|done]. simpl. destruct t; by repeat constructor.
    + simpl. destruct t; [by left|by right].
  - destruct Htop as (h & post & top & rest & y & ys & _ & _ & Hvs & _ & _ & _ & HOK).
    unfold newHeading. rewrite Hvs.
    destruct HOK as (Hpre & Hst & Hsp & _). split; [done|]. simpl.
    destruct (sep top) eqn:E; [right|by left].
    rewrite (Hsep top); [done|by rewrite Hvs|done].
Qed.

Lemma AddNewVersion_readAs (c : Content) (olds : list version) (v : Version)
    (t : option gostring) (content : gostring) :
  readAs c olds → validVersion v →
  (∀ d, t = Some d → isDate d) →
  Forall (λ l, ¬ isHeading l) (Split content newline) →
  (∀ top, head (versions c) = Some top → sep top = [] → t = None) →
  ∃ c' new k,
    AddNewVersion c v t content = Some (c', None) ∧
    versions c' = new :: (shiftEntry k <$> olds) ∧
    ver new = v ∧ (0 < k)%Z ∧ CurrentVersion c' = v ∧ parsed c' ∧
    (Forall (λ l, newline ∉ l) (lines c) →
     Forall (λ l, newline ∉ l) (lines c')) ∧
    ReleaseNotes c' v
    = Some (Join (trimBlank (Split content newline)) [newline], true).
Proof.
  intros Hp Hv Ht Hcontent Hsep.
  destruct (newHeading_OK c olds v t Hp Ht Hsep) as [HOK Hsp].
  destruct (readAs_insertAt c olds Hp) as (Hat & Hbefore & Hafter & Hpost).
  set (a := insertAt c) in *. set (h := newHeading c v t) in *.
  set (front := take a (lines c)) in *.
  set (tail_ := drop a (lines c)) in *.
  set (pad := if bool_decide (front = [])
                 || negb (str_empty (default [] (last front)))
              then [[]] else [] : list gostring).
  set (body := if negb (str_empty content)
               then Split content newline ++ [[]] else [] : list gostring).
  set (k := (len pad + 2 + len body)%Z).
  set (new := {| ver := v; line := len front + len pad + 1;
                 prefix := prefix h; style := styleOfFormat (style h) v;
                 sep := sep h; date := date h |}).
  set (lines' := front ++ pad ++ version_String h :: [] :: body ++ tail_).
  assert (len front = Z.of_nat a) as Hlen.
  { unfold len, front. by rewrite length_take_le. }
  assert (ver h = v) as Hh by (unfold h, newHeading; by destruct (versions c)).
  assert (Forall (λ l, ¬ isHeading l) pad) as Hpad.
  { unfold pad. case_match; repeat constructor. apply blank_not_heading. }
  assert (Forall (λ l, ¬ isHeading l) body) as Hbody.
  { unfold body. case_match; [|constructor].
    apply Forall_app. split; [done|]. repeat constructor.
    apply blank_not_heading. }
  assert (entriesFrom 0 lines' = inr (new :: (shiftEntry k <$> olds)))
    as Hentries.
  { apply entriesFrom_inserted; [done..| |by rewrite Hlen].
    rewrite entryOf_version_String; [|done|by rewrite Hh|done].
    by rewrite Hh. }
  assert (entryOf (len front + len pad) (version_String h) = Some (inr new))
    as Hnew.
  { rewrite entryOf_version_String; [|done|by rewrite Hh|done].
    by rewrite Hh. }
  exists {| versions := new :: (shiftEntry k <$> olds); lines := lines' |},
    new, k.
  split; [|split; [done|]; split; [done|]; split;
            [|split; [done|]; split; [done|]; split]].
  - unfold AddNewVersion.
    assert (match versions c with
            | existing :: _ =>
                ((line existing - 1)%Z,
                 {| ver := v; line := 0; prefix := prefix existing;
                    style := style existing; sep := sep existing;
                    date := default [] t |})
            | [] =>
                (len (lines c),
                 {| ver := v; line := 0; prefix := [];
                    style := {| Prefix := []; OmitPatch := false |};
                    sep := match t with Some _ => go "  " | None => [] end;
                    date := default [] t |})
            end = (Z.of_nat a, h)) as ->.
    { unfold a, h, insertAt, newHeading.
      destruct Hpost as [(_ & -> & _)
                        |(? & ? & top & rest & ? & ? & _ & _ & -> & _ & Hl & _)];
        [done|].
      f_equal. unfold a, insertAt in Hl. lia. }
    pose proof (slice_of_nat (lines c) 0 a (Nat.le_0_l _) Hat) as Hs.
    rewrite Nat.sub_0_r, drop_0 in Hs. change (Z.of_nat 0) with 0%Z in Hs.
    rewrite Hs. clear Hs. simpl.
    unfold len at 1. rewrite slice_of_nat by lia.
    rewrite (take_ge (drop a (lines c)) (length (lines c) - a))
      by (rewrite length_drop; lia).
    fold tail_. simpl. fold front pad.
    assert ((if negb (str_empty content)
             then (((if bool_decide (front = [])
                        || negb (str_empty (default [] (last front)))
                     then front ++ [[]] else front)
                    ++ [version_String h; []]) ++ Split content newline)
                  ++ [[]]
             else (if bool_decide (front = [])
                      || negb (str_empty (default [] (last front)))
                   then front ++ [[]] else front)
                  ++ [version_String h; []]) ++ tail_ = lines') as ->.
    { unfold lines', body, pad.
      destruct (negb (str_empty content)),
        (bool_decide (front = []) || negb (str_empty (default [] (last front))));
        rewrite <- ?app_assoc; simpl; rewrite <- ?app_assoc; simpl;
        rewrite ?app_nil_r; done. }
    by rewrite (parse_loop_entriesFrom _ _ [] _ Hentries).
  - unfold k. unfold len. lia.
  - simpl. intros Hnl. unfold lines'.
    rewrite <- (take_drop a (lines c)) in Hnl. fold front tail_ in Hnl.
    apply Forall_app in Hnl as [Hfront Htail].
    assert (Forall (λ l : gostring, newline ∉ l) [[]]) as Hblank
      by (repeat constructor; by intros ?%elem_of_nil).
    apply Forall_app. split; [done|]. apply Forall_app. split.
    { unfold pad. case_match; [done|constructor]. }
    constructor.
    { apply entryOf_inr in Hnew as (_ & tok & Hparts & _).
      by eapply headingParts_no_newline. }
    constructor; [by intros ?%elem_of_nil|].
    apply Forall_app. split; [|done].
    unfold body. case_match; [|constructor].
    apply Forall_app. split; [apply Split_no_sep|done].
  - set (c' := {| versions := new :: (shiftEntry k <$> olds);
                  lines := lines' |}).
    assert (ReleaseNotes c' v
            = Some (Join (trimBlank ([] :: body)) [newline], true)) as ->.
    { apply (notes_block c' v
               (match olds with
                | y :: _ => line y + k - 1 | [] => -1 end)%Z
               (front ++ pad ++ [version_String h]) ([] :: body) tail_).
      - pose proof (findNotes_found [] (shiftEntry k <$> olds) new v)
          as Hfind.
        simpl app in Hfind. unfold c'. cbn [versions].
        rewrite Hfind; [|set_solver|done|].
        + f_equal.
          * unfold new, len. simpl. rewrite !length_app. simpl. lia.
          * by destruct olds.
        + unfold new, len. simpl. lia.
      - unfold c', lines'. cbn [lines]. rewrite <- !app_assoc. done.
      - destruct Hpost as [(-> & _ & ->)
                          |(h0 & post & top & rest & y & ys & -> & Hb & _ & ->
                            & _ & Hl & _)].
        + by left.
        + right. split; [|by exists h0, post].
          unfold k, len in *. rewrite !length_app. simpl. lia. }
    unfold body. destruct content as [|ch content]; simpl negb; cbn iota.
    + done.
    + by rewrite trimBlank_pad.
Qed.

(** X16: [AddNewVersion] on a document that was read, with a version of
    numbers in range and a flavor of word characters, with the zero time or
    a date of the form YYYY-MM-DD, and with notes none of whose lines is a
    heading.  If the topmost heading has no space after its version, the
    time must be the zero time.  The call neither fails nor returns an
    error.  The new entry is the topmost one and has the version; the
    entries of the document follow it unchanged, their headings the same
    number of lines further down.  [ReleaseNotes] of the version returns
    the notes that were given, without the blank lines at both ends. *)
Theorem AddNewVersion_top (text : gostring) (c : Content) (v : Version)
    (t : option gostring) (content : gostring) :
  Read text = inr c → validVersion v →
  (∀ d, t = Some d → isDate d) →
  Forall (λ l, ¬ isHeading l) (Split content newline) →
  (∀ top, head (versions c) = Some top → sep top = [] → t = None) →
  ∃ c' new k,
    AddNewVersion c v t content = Some (c', None) ∧
    versions c' = new :: (shiftEntry k <$> versions c) ∧
    ver new = v ∧ (0 < k)%Z ∧ CurrentVersion c' = v ∧
    ReleaseNotes c' v
    = Some (Join (trimBlank (Split content newline)) [newline], true).
Proof.
  intros [Hp _]%Read_parsed Hv Ht Hcontent Hsep.
  destruct (AddNewVersion_readAs c (versions c) v t content)
    as (c' & new & k & H1 & H2 & H3 & H4 & H5 & _ & _ & H6);
    [by apply parsed_readAs|done..|].
  by exists c', new, k.
Qed.


(** ** The CHANGES file in a release *)

Lemma adjacent_Sorted (vs : list version) :
  Forall (λ p, GreaterThan (ver p.1) (ver p.2) false = true) (adjacent vs)
  ↔ Sorted (λ a b, GreaterThan a b false = true) (ver <$> vs).
Proof.
  unfold adjacent. induction vs as [|x vs IH]; simpl.
  - split; constructor.
  - destruct vs as [|y vs]; simpl in *.
    + split; intros; repeat constructor.
    + rewrite Forall_cons, IH. simpl. split.
      * intros [Hxy Hs]. constructor; [done|by constructor].
      * intros [Hs Hhd]%Sorted_inv. split; [by inversion Hhd|done].
Qed.

Lemma wellFormed_ok (c : Content) (isDevelopmentBranch : bool) :
  wellFormed c isDevelopmentBranch
  ↔ okVersions isDevelopmentBranch (ver <$> versions c).
Proof.
  unfold wellFormed, okVersions, CurrentVersion. rewrite adjacent_Sorted.
  destruct (versions c) as [|top rest]; simpl; [naive_solver|].
  rewrite Forall_fmap. naive_solver.
Qed.

Lemma GreaterEqualTo_GreaterThan (a a' b c : Version) :
  triple a' = triple a →
  GreaterEqualTo a b false = true → GreaterThan b c false = true →
  GreaterThan a' c false = true.
Proof.
  intros Ht Hab Hbc. apply GreaterThan_triple. rewrite Ht.
  apply GreaterThan_triple in Hbc.
  unfold GreaterEqualTo in Hab. rewrite Compare_ignoring in Hab.
  assert (compare3 (triple a) (triple b) ≠ Lt) as Hnlt
    by (intros E; by rewrite E in Hab).
  assert (compare3 (triple b) (triple a) ≠ Gt) as Hngt.
  { rewrite compare3_antisym. by destruct (compare3 (triple a) (triple b)). }
  rewrite compare3_Gt in *. unfold triple in *. simpl in *. lia.
Qed.

Lemma ver_shiftEntry (k : Z) (xs : list version) :
  ver <$> (shiftEntry k <$> xs) = ver <$> xs.
Proof. rewrite <- list_fmap_compose. by apply list_fmap_ext. Qed.

Lemma notesStub_lines :
  Forall (λ l, ¬ isHeading l) (Split notesStub newline).
Proof.
  assert (Split notesStub newline = [[]; go "[Add release notes here]"; []])
    as -> by done.
  repeat constructor; by intros [m Hm].
Qed.

Lemma wrap_id (z : Z) : (minInt ≤ z ≤ maxInt)%Z → wrap z = z.
Proof.
  unfold wrap, minInt, maxInt. intros H.
  rewrite Z.mod_small by lia. lia.
Qed.

(** X17: the CHANGES file through a release.  The document of the branch
    was read, [Validate] has nothing to report on it as the document of a
    development branch, and the version to release has numbers in range, a
    patch number below the largest Go int, and is not less than the topmost
    version when the flavors are ignored; the day is written as YYYY-MM-DD.
    Then [doRelease] writes two texts
    that are read back without error.  On the first [Validate] has nothing
    to report as the document of a release branch: its versions are the
    release version, without flavor, and below it the versions of the
    branch other than the topmost.  On the second [Validate] has nothing to
    report as the document of a development branch: its versions are the
    next version, with the next patch number and the flavor that the branch
    had, and below it those of the first text.  The notes of the next
    version are the line of the stub. *)
Theorem doRelease_changes_wellFormed (text : gostring) (c : Content)
    (v : Version) (today : gostring) :
  Read text = inr c → Validate c true = [] →
  validVersion v → GreaterEqualTo v (CurrentVersion c) false = true →
  (Patch v < maxInt)%Z → isDate today →
  let next := nextVersion (withoutFlavor v) (Flavor (CurrentVersion c)) in
  ∃ t1 t2 c1 c2,
    doRelease_changes c v today = Some (Released t1 t2) ∧
    Read t1 = inr c1 ∧ Read t2 = inr c2 ∧
    Validate c1 false = [] ∧ Validate c2 true = [] ∧
    Versions c1 = withoutFlavor v :: tail (Versions c) ∧
    Versions c2 = next :: Versions c1 ∧
    Patch next = (Patch v + 1)%Z ∧
    ReleaseNotes c2 next = Some (go "[Add release notes here]", true).
Proof.
  intros HR Hval Hv Hge Hpatch Hd. cbv zeta.
  pose proof HR as [Hp Hls]%Read_parsed.
  pose proof Hval as Hwf%Validate_nil.
  pose proof (wellFormed_Versions _ _ Hwf) as HVc.
  apply wellFormed_ok in Hwf.
  destruct (versions c) as [|top rest] eqn:Hvs; [done|].
  simpl in Hwf. destruct Hwf as (Hflav & Htail & Hsorted).
  specialize (Hflav eq_refl).
  assert (CurrentVersion c = ver top) as HC
    by (unfold CurrentVersion; by rewrite Hvs).
  rewrite HC in *.
  set (v' := withoutFlavor v). set (next := nextVersion v' (Flavor (ver top))).
  destruct Hv as (Hma & Hmi & Hpa & Hfl).
  assert (validVersion v') as Hv'.
  { split; [done|]. split; [done|]. split; [done|]. constructor. }
  assert (Patch next = (Patch v + 1)%Z) as Hnp.
  { unfold next, nextVersion, v'. simpl. apply wrap_id.
    unfold minInt, maxInt in *. lia. }
  assert (validVersion next) as Hvn.
  { split; [done|]. split; [done|]. split; [rewrite Hnp; lia|].
    destruct (parsed_top c top rest Hp Hvs) as (n & h & _ & _ & He & _).
    apply entryOf_inr in He as (_ & tok & _ & HP & _).
    by apply Parse_validVersion in HP as (_ & _ & _ & ?). }
  (* the release *)
  destruct (Adjust_reread text c v' today top rest HR Hvs Hv' Hd) as [HA HR1].
  set (top' := adjusted top v' today) in *.
  set (c1m := {| versions := top' :: rest;
                 lines := <[Z.to_nat (line top - 1) := version_String top']>
                            (lines c) |}) in *.
  set (c1 := {| versions := restyled top' :: rest; lines := lines c1m |}) in *.
  pose proof HR1 as [Hp1 Hls1]%Read_parsed.
  assert (readAs c1m (restyled top' :: rest)) as Has.
  { split; [done|]. simpl. split; [done|].
    apply parsed_readAs in Hp1 as [_ [_ HOK]]. done. }
  (* the next version *)
  destruct (AddNewVersion_readAs c1m _ next None notesStub Has Hvn)
    as (c2 & new & k & HN & Hvs2 & Hnew & Hk & HC2 & Hp2 & Hnl & Hnotes);
    [done|apply notesStub_lines|done|].
  assert (Read (changes.String c2) = inr c2) as HR2.
  { unfold changes.String. rewrite (Read_String_lines _ (versions c2)).
    - by destruct c2.
    - intros Hnil. unfold parsed in Hp2. rewrite Hnil, Hvs2 in Hp2. done.
    - apply Hnl.
      pose proof (Split_no_sep (changes.String c1m) newline) as Hs.
      rewrite <- Hls1 in Hs. exact Hs.
    - done. }
  assert (Sorted (λ a b, GreaterThan a b false = true) (v' :: (ver <$> rest)))
    as Hsorted1.
  { apply Sorted_inv in Hsorted as [Hs Hhd]. constructor; [done|].
    change (ver <$> rest) with (list_fmap version Version ver rest).
    revert Hhd. destruct (list_fmap version Version ver rest) as [|b l];
      intros Hhd; constructor.
    apply HdRel_inv in Hhd.
    by apply (GreaterEqualTo_GreaterThan v v' (ver top) b). }
  assert (okVersions false (ver <$> versions c1)) as Hok1.
  { simpl. split; [done|]. split; done. }
  assert (okVersions true (ver <$> versions c2)) as Hok2.
  { rewrite Hvs2. simpl. rewrite Hnew, ver_shiftEntry.
    split; [done|]. split; [by constructor|].
    constructor; [done|]. constructor.
    apply GreaterThan_triple, compare3_Gt. unfold triple. cbn [fst snd].
    rewrite Hnp. simpl. lia. }
  apply wellFormed_ok in Hok1, Hok2.
  exists (changes.String c1m), (changes.String c2), c1, c2.
  split.
  { unfold doRelease_changes. rewrite HC.
    destruct (Flavor (ver top)) eqn:E; [done|]. simpl str_empty. cbn iota.
    fold v'. rewrite HA. simpl. unfold next in HN. by rewrite HN. }
  split; [done|]. split; [done|].
  split; [by apply Validate_nil|]. split; [by apply Validate_nil|].
  split.
  { rewrite (wellFormed_Versions _ _ Hok1), HVc. done. }
  split.
  { rewrite (wellFormed_Versions _ _ Hok2), (wellFormed_Versions _ _ Hok1).
    rewrite Hvs2, fmap_cons, Hnew, ver_shiftEntry. done. }
  split; [done|]. by rewrite Hnotes.
Qed.

(** ** The prefix of the style *)

Lemma tallyStyles_cons (n : gostring) (names : list gostring)
    (pu : gmap gostring Z) (up : bool) :
  tallyStyles (n :: names) (pu, up)
  = tallyStyles names
      match ParseStyle n with
      | Some s =>
          (<[Prefix s := (default 0 (pu !! Prefix s) + 1)%Z]> pu,
           negb (OmitPatch s) && up)
      | None => (pu, up)
      end.
Proof. done. Qed.

Lemma tally_count (names : list gostring) (pu : gmap gostring Z) (up : bool)
    (q : gostring) :
  default 0%Z ((tallyStyles names (pu, up)).1 !! q)
  = (default 0 (pu !! q) + Z.of_nat (prefixCount q names))%Z.
Proof.
  revert pu up. induction names as [|n names IH]; intros pu up.
  - unfold tallyStyles, prefixCount. simpl. lia.
  - rewrite tallyStyles_cons. unfold prefixCount. rewrite filter_cons.
    destruct (ParseStyle n) as [s|]; simpl.
    + rewrite IH. unfold prefixCount.
      destruct (decide (Prefix s = q)) as [->|Hne].
      * rewrite lookup_insert_eq, decide_True by done.
        cbn [from_option id length]. lia.
      * rewrite lookup_insert_ne by done.
        rewrite decide_False by congruence. done.
    + rewrite IH. rewrite ?decide_False by done. done.
Qed.

Lemma tally_keys (names : list gostring) (pu : gmap gostring Z) (up : bool)
    (q : gostring) :
  is_Some ((tallyStyles names (pu, up)).1 !! q)
  ↔ is_Some (pu !! q) ∨ 0 < prefixCount q names.
Proof.
  revert pu up. induction names as [|n names IH]; intros pu up.
  - unfold tallyStyles, prefixCount. simpl.
    split; [by left|]. intros [?|?]; [done|lia].
  - rewrite tallyStyles_cons. unfold prefixCount. rewrite filter_cons.
    destruct (ParseStyle n) as [s|]; simpl.
    + rewrite IH. unfold prefixCount.
      destruct (decide (Prefix s = q)) as [->|Hne].
      * rewrite lookup_insert_eq, decide_True by done. simpl length.
        split; [intros _; right; lia|intros _; by left].
      * rewrite lookup_insert_ne by done.
        rewrite decide_False by congruence. done.
    + rewrite IH. rewrite ?decide_False by done. done.
Qed.

Lemma prefixCount_pos (q : gostring) (names : list gostring) :
  0 < prefixCount q names →
  ∃ n s, n ∈ names ∧ ParseStyle n = Some s ∧ Prefix s = q.
Proof.
  unfold prefixCount. intros H.
  destruct (filter _ names) as [|n l] eqn:E; [simpl in H; lia|].
  assert (n ∈ filter (λ n, Prefix <$> ParseStyle n = Some q) names) as Hn
    by (rewrite E; left).
  apply list_elem_of_filter in Hn as [Hq Hn].
  destruct (ParseStyle n) as [s|] eqn:Hs; [|done].
  exists n, s. simpl in Hq. by simplify_eq.
Qed.

Lemma mostCommon_max (uses : list (gostring * Z)) :
  let '(p, c) := mostCommon uses in
  (0 ≤ c)%Z ∧ Forall (λ qd, (qd.2 ≤ c)%Z) uses ∧
  ((p, c) ∈ uses ∨ (p, c) = (go "release-", 0%Z)).
Proof.
  unfold mostCommon.
  assert (∀ init : gostring * Z,
    let '(p, c) :=
      foldl (λ (most : gostring * Z) (pc : gostring * Z),
               let '(mostCommonPrefix, mostCommonPrefixUses) := most in
               let '(p, c) := pc in
               if (c >=? mostCommonPrefixUses)%Z then (p, c)
               else (mostCommonPrefix, mostCommonPrefixUses)) init uses in
    (init.2 ≤ c)%Z ∧ Forall (λ qd, (qd.2 ≤ c)%Z) uses ∧
    ((p, c) ∈ uses ∨ (p, c) = init)) as Hgen.
  { induction uses as [|[q d] uses IH]; intros [p0 c0]; simpl.
    - split; [lia|]. split; [constructor|by right].
    - destruct (Z.geb_spec d c0) as [Hge|Hlt].
      + specialize (IH (q, d)). destruct (foldl _ (q, d) uses) as [p c].
        simpl in *. destruct IH as (H1 & H2 & H3).
        split; [lia|]. split; [constructor; [simpl; lia|done]|].
        left. destruct H3 as [H3|H3]; [by right|rewrite H3; by left].
      + specialize (IH (p0, c0)). destruct (foldl _ (p0, c0) uses) as [p c].
        simpl in *. destruct IH as (H1 & H2 & H3).
        split; [lia|]. split; [constructor; [simpl; lia|done]|].
        destruct H3 as [H3|H3]; [left; by right|by right]. }
  specialize (Hgen (go "release-", 0%Z)).
  by destruct (foldl _ _ uses).
Qed.

Section style_prefix.

Variable enum : ∀ A : Type, gmap gostring A → list (gostring * A).
Hypothesis enum_perm : ∀ A (m : gmap gostring A), enum A m ≡ₚ map_to_list m.

Lemma determineVersionStyle_most (r : repo) :
  let p := Prefix (versionStyle (determineVersionStyle enum r)) in
  (∀ q, prefixCount q (artifactNames r) ≤ prefixCount p (artifactNames r)) ∧
  prefixOK p.
Proof using enum_perm.
  intros p. destruct (determineVersionStyle_tally enum r) as (pu & up & Ht & Hst).
  unfold p. rewrite Hst. simpl. clear p Hst.
  assert (∀ q, prefixCount q (artifactNames r)
               = prefixCount q ((b_name ∘ snd <$> enum _ (branches r))
                   ++ (t_name ∘ snd <$> enum _ (tags r))
                   ++ (r_name ∘ snd <$> enum _ (releases r)))) as Hcount.
  { intros q. unfold prefixCount. by rewrite (enum_names enum enum_perm r). }
  set (names := (b_name ∘ snd <$> enum _ (branches r))
                ++ (t_name ∘ snd <$> enum _ (tags r))
                ++ (r_name ∘ snd <$> enum _ (releases r))) in *.
  assert (∀ q c, pu !! q = Some c →
            c = Z.of_nat (prefixCount q names) ∧ 0 < prefixCount q names)
    as Hentry.
  { intros q c Hq.
    pose proof (tally_count names ∅ true q) as Hc.
    pose proof (tally_keys names ∅ true q) as Hk.
    rewrite Ht in Hc, Hk. simpl in Hc, Hk. rewrite Hq in Hc, Hk.
    rewrite lookup_empty in Hc, Hk. simpl in Hc. split; [lia|].
    destruct (proj1 Hk) as [[? ?]|?]; done. }
  assert (∀ q, 0 < prefixCount q names →
            pu !! q = Some (Z.of_nat (prefixCount q names))) as Hhas.
  { intros q Hq.
    pose proof (tally_keys names ∅ true q) as Hk. rewrite Ht in Hk.
    simpl in Hk. destruct (proj2 Hk) as [c Hc]; [by right|].
    by destruct (Hentry q c Hc) as [-> _]. }
  pose proof (mostCommon_max (enum _ pu)) as Hmax.
  destruct (mostCommon (enum _ pu)) as [p c]. simpl.
  destruct Hmax as (Hc0 & Hall & Hin).
  rewrite Forall_forall in Hall.
  assert (∀ q, 0 < prefixCount q names → (Z.of_nat (prefixCount q names) ≤ c)%Z)
    as Hle.
  { intros q Hq. apply (Hall (q, Z.of_nat (prefixCount q names))).
    rewrite enum_perm. apply elem_of_map_to_list. by apply Hhas. }
  destruct Hin as [Hin|Hin].
  - rewrite enum_perm in Hin. apply elem_of_map_to_list in Hin.
    destruct (Hentry p c Hin) as [-> Hpos]. split.
    + intros q. rewrite !Hcount.
      destruct (decide (0 < prefixCount q names)) as [Hq|Hq]; [|lia].
      specialize (Hle q Hq). lia.
    + apply prefixCount_pos in Hpos as (n & s & _ & Hs & <-).
      by apply (ParseStyle_prefixOK n).
  - simplify_eq. split.
    + intros q. rewrite !Hcount.
      destruct (decide (0 < prefixCount q names)) as [Hq|Hq]; [|lia].
      specialize (Hle q Hq). lia.
    + apply (prefix_word (go "release")). by repeat constructor.
Qed.

(** X18: the prefix of the style that [determineVersionStyle] infers is
    one that the most names of branches, tags and releases have, in
    whichever order the maps are enumerated, and it is a prefix of the
    grammar.  So the names that the program makes in that style are read
    back: the tag name and the release name of a version as the version, the
    branch name as its major number. *)
Theorem determineVersionStyle_Prefix (r : repo) :
  let r' := determineVersionStyle enum r in
  let p := Prefix (versionStyle r') in
  (∀ q, prefixCount q (artifactNames r) ≤ prefixCount p (artifactNames r)) ∧
  prefixOK p ∧
  ∀ v, validVersion v →
       Parse (tagNameForVersion r' v) = inr v ∧
       Parse (releaseNameForVersion r' v) = inr v ∧
       parseReleaseBranch (branchNameForVersion r' v) = Some (Major v).
Proof using enum_perm.
  intros r' p. destruct (determineVersionStyle_most r) as [Hmost Hp].
  split; [done|]. split; [done|]. intros v Hv.
  unfold tagNameForVersion, releaseNameForVersion.
  destruct (Parse_Format_valid (versionStyle r') v Hp Hv) as [HP _].
  split; [done|]. split; [done|].
  apply parseReleaseBranch_name; [done|]. apply Hv.
Qed.

End style_prefix.

(** ** The plan of the scan *)

Section scan_facts.

Variable gitShow : Hash → option gostring.

Lemma scanFrom_cons (st : scanState) (cl : ChangeList)
    (commits : list ChangeList) :
  scanFrom gitShow st (cl :: commits)
  = scanFrom gitShow (scanCommit gitShow st cl) commits.
Proof. done. Qed.

Lemma scanFrom_plan (tags : bool) (commits : list ChangeList) (st : scanState) :
  let st' := scanFrom gitShow st commits in
  missingOf tags st' ⊆ missingOf tags st ∧
  ∃ new,
    planOf tags st' = planOf tags st ++ new ∧ NoDup new.*1 ∧
    (∀ v, v ∈ new.*1 ↔ v ∈ missingOf tags st ∧ v ∉ missingOf tags st') ∧
    Forall (λ vh, ∃ cl, cl ∈ commits ∧ cl_Hash cl = vh.2
                        ∧ declaredAt gitShow cl vh.1) new.
Proof.
  revert st. induction commits as [|cl commits IH]; intros st.
  - simpl. split; [done|]. exists []. rewrite app_nil_r.
    split; [done|]. split; [constructor|]. split; [|constructor].
    intros v. split; [by intros ?%elem_of_nil|]. by intros [? ?].
  - cbv zeta. rewrite scanFrom_cons.
    destruct (IH (scanCommit gitShow st cl))
      as (Hsub & new2 & Hplan & Hnd & Hmem & Hdecl).
    assert (Forall (λ vh, ∃ cl0, cl0 ∈ cl :: commits ∧ cl_Hash cl0 = vh.2
                          ∧ declaredAt gitShow cl0 vh.1) new2) as Hdecl'.
    { eapply Forall_impl; [done|]. intros vh (cl0 & ? & ? & ?).
      exists cl0. split; [by right|done]. }
    destruct (scanCommit_cases gitShow st cl) as [Hfail|(content & c & Hs & HR)].
    + destruct (scanCommit_fails_same gitShow st cl tags Hfail) as [Hm Hp].
      rewrite Hm in *. rewrite Hp in *. split; [done|]. by exists new2.
    + destruct (scanCommit_parsed gitShow st cl content c tags Hs HR)
        as (Hm & Hp & _).
      rewrite Hm in *. rewrite Hp in *. split; [set_solver|].
      set (D := declaredSet c) in *.
      set (l := SetList (D ∩ missingOf tags st)).
      exists (((λ v, (v, cl_Hash cl)) <$> l) ++ new2).
      assert (((λ v, (v, cl_Hash cl)) <$> l).*1 = l) as Hfst.
      { rewrite <- list_fmap_compose. by rewrite list_fmap_id. }
      split; [by rewrite Hplan, app_assoc|].
      rewrite fmap_app, Hfst. split; [|split].
      * apply NoDup_app. split; [apply NoDup_SetList|]. split; [|done].
        intros v Hv Hv2. apply elem_of_SetList in Hv. apply Hmem in Hv2.
        set_solver.
      * intros v. rewrite elem_of_app, Hmem. unfold l.
        rewrite elem_of_SetList.
        destruct (decide (v ∈ D)); set_solver.
      * apply Forall_app. split; [|done].
        apply Forall_forall. intros vh (v & -> & Hv)%list_elem_of_fmap.
        apply elem_of_SetList in Hv. exists cl. split; [by left|].
        split; [done|]. simpl. exists content, c. split; [done|].
        split; [done|]. apply elem_of_declaredSet. set_solver.
Qed.

Lemma scanFrom_errs (commits : list ChangeList) (st : scanState) :
  errs (scanFrom gitShow st commits)
  = errs st ++ omap (failureOf gitShow) commits.
Proof.
  revert st. induction commits as [|cl commits IH]; intros st.
  - simpl. by rewrite app_nil_r.
  - rewrite scanFrom_cons, IH. simpl. unfold scanCommit, failureOf.
    destruct (gitShow (cl_Hash cl)) as [content|]; simpl.
    + destruct (Read content) as [e|c]; simpl.
      * by rewrite <- app_assoc.
      * by repeat case_match.
    + by rewrite <- app_assoc.
Qed.

Lemma scanFrom_readable (commits : list ChangeList) (st : scanState) :
  progress (scanFrom gitShow st commits)
  = progress (scanFrom gitShow st
                (filter (λ cl, failureOf gitShow cl = None) commits)).
Proof.
  revert st. induction commits as [|cl commits IH]; intros st; [done|].
  rewrite filter_cons, scanFrom_cons.
  destruct (decide (failureOf gitShow cl = None)) as [Hok|Hfail].
  - rewrite scanFrom_cons. apply IH.
  - rewrite IH. apply scanFrom_progress.
    unfold failureOf in Hfail. unfold scanCommit.
    destruct (gitShow (cl_Hash cl)) as [content|]; [|done].
    by destruct (Read content).
Qed.

Lemma scanHistory_plan (r : repo) (log : list ChangeList) (tags : bool) :
  let st := scanHistory gitShow r log in
  let plan := planOf tags st in
  NoDup plan.*1 ∧
  (∀ v, v ∈ missingIn tags r ↔ v ∈ plan.*1 ∨ v ∈ missingOf tags st) ∧
  (∀ v, v ∈ plan.*1 → v ∉ missingOf tags st) ∧
  (∀ v h, (v, h) ∈ plan →
     ∃ cl, cl ∈ log ∧ cl_Hash cl = h ∧ declaredAt gitShow cl v).
Proof.
  cbv zeta. unfold scanHistory. rewrite !Clone_id.
  match goal with
  | |- context [scanFrom gitShow ?s _] => set (st0 := s)
  end.
  destruct (scanFrom_plan tags (reverse log) st0)
    as (Hsub & new & Hplan & Hnd & Hmem & Hdecl).
  assert (planOf tags st0 = []) as Hp0 by (by destruct tags).
  assert (missingOf tags st0 = missingIn tags r) as Hm0 by (by destruct tags).
  rewrite Hp0 in Hplan. simpl in Hplan. rewrite Hplan. rewrite Hm0 in *.
  split; [done|]. split; [|split].
  - intros v. rewrite Hmem.
    destruct (decide (v ∈ missingOf tags (scanFrom gitShow st0 (reverse log))));
      set_solver.
  - intros v Hv. by apply Hmem in Hv as [_ ?].
  - intros v h Hvh. rewrite Forall_forall in Hdecl.
    destruct (Hdecl _ Hvh) as (cl & Hcl & Hh & Hd).
    exists cl. by rewrite elem_of_reverse in Hcl.
Qed.

(** X19: the plan of the scan, for branches and for tags alike.  No
    version is planned twice; the planned versions and the versions still
    missing after the scan are, without overlap, the versions that were
    missing before it; and each planned version is paired with a commit of
    the log whose snapshot is read, parses and declares the version. *)
Theorem scan_plan (r : repo) (log : list ChangeList) (tags : bool) :
  let st := scanHistory gitShow r log in
  let plan := planOf tags st in
  NoDup plan.*1 ∧
  (∀ v, v ∈ missingIn tags r ↔ v ∈ plan.*1 ∨ v ∈ missingOf tags st) ∧
  (∀ v, v ∈ plan.*1 → v ∉ missingOf tags st) ∧
  (∀ v h, (v, h) ∈ plan →
     ∃ cl, cl ∈ log ∧ cl_Hash cl = h ∧ declaredAt gitShow cl v).
Proof. apply scanHistory_plan. Qed.

Lemma scanHistory_unresolved (r : repo) (log : list ChangeList) (tags : bool)
    (v : Version) :
  v ∈ missingOf tags (scanHistory gitShow r log)
  ↔ v ∈ missingIn tags r ∧ ∀ cl, cl ∈ log → ¬ declaredAt gitShow cl v.
Proof.
  unfold scanHistory. rewrite !Clone_id.
  match goal with
  | |- context [scanFrom gitShow ?s _] => set (st0 := s)
  end.
  assert (missingOf tags st0 = missingIn tags r) as Hm0 by (by destruct tags).
  split.
  - intros Hv.
    destruct (scanFrom_plan tags (reverse log) st0) as (Hsub & _).
    assert (v ∈ missingOf tags st0) as Hv0 by set_solver.
    split; [by rewrite <- Hm0|]. intros cl0 Hin Hd0.
    destruct (@first_declared (λ cl, declaredAt gitShow cl v)
                (λ cl, declaredAt_dec gitShow cl v) (reverse log))
      as (older & cl & newer & Hlog & Hd & Hold).
    { apply Exists_exists. exists cl0. split; [|done].
      by rewrite elem_of_reverse. }
    rewrite Hlog in Hv.
    by destruct (scanFrom_first gitShow tags v older newer cl st0 Hv0 Hold Hd).
  - intros [Hv Hnone]. rewrite <- Hm0 in Hv.
    apply scanFrom_not_declared; [done|].
    apply Forall_forall. intros cl Hcl. apply Hnone.
    by rewrite elem_of_reverse in Hcl.
Qed.

(** X20: a version is still missing after the scan exactly when it was
    missing before it and no commit of the log has a snapshot that is read,
    parses and declares it. *)
Theorem scan_unresolved (r : repo) (log : list ChangeList) (tags : bool)
    (v : Version) :
  v ∈ missingOf tags (scanHistory gitShow r log)
  ↔ v ∈ missingIn tags r ∧ ∀ cl, cl ∈ log → ¬ declaredAt gitShow cl v.
Proof. apply scanHistory_unresolved. Qed.

(** X21: the errors of the scan are one for each commit whose snapshot is
    not read or does not parse, from the oldest such commit to the most
    recent, each with the hash of its commit.  Those commits change nothing
    else: without them in the log the scan ends with the same plan and the
    same missing versions. *)
Theorem scan_errors (r : repo) (log : list ChangeList) :
  errs (scanHistory gitShow r log)
  = omap (failureOf gitShow) (reverse log) ∧
  progress (scanHistory gitShow r log)
  = progress (scanHistory gitShow r
                (filter (λ cl, failureOf gitShow cl = None) log)).
Proof.
  unfold scanHistory. split.
  - by rewrite scanFrom_errs.
  - rewrite scanFrom_readable. by rewrite filter_reverse.
Qed.

End scan_facts.

(** ** Styles *)

(** X22: [Merge] of styles is idempotent, commutative and associative; it
    fails exactly for styles of different prefixes, and the merged style
    omits the patch digit when one of the two does. *)
Theorem Merge_laws (a b c : Style) :
  Merge a a = Some a ∧
  Merge a b = Merge b a ∧
  (Merge a b ≫= λ ab, Merge ab c) = (Merge b c ≫= λ bc, Merge a bc) ∧
  (Merge a b = None ↔ Prefix a ≠ Prefix b) ∧
  (∀ s, Merge a b = Some s →
        Prefix s = Prefix a ∧ OmitPatch s = OmitPatch a || OmitPatch b).
Proof.
  destruct a as [pa oa], b as [pb ob], c as [pc oc]. unfold Merge. simpl.
  split; [|split; [|split; [|split]]].
  - rewrite decide_False by naive_solver. by rewrite orb_diag.
  - destruct (decide (pa = pb)) as [->|Hne].
    + rewrite !decide_False by naive_solver. by rewrite orb_comm.
    + rewrite !decide_True by naive_solver. done.
  - destruct (decide (pa = pb)) as [->|Hab], (decide (pb = pc)) as [->|Hbc];
      repeat first [ rewrite decide_False by naive_solver
                   | rewrite decide_True by naive_solver
                   | progress simpl ];
      by rewrite ?orb_assoc.
  - case_decide; naive_solver.
  - intros s. case_decide; [done|]. by intros [= <-].
Qed.

(** ** The CHANGES file of a tree *)

Lemma path_Split_spec (p : gostring) :
  (path_Split p).1 ++ (path_Split p).2 = p ∧
  ("/"%char ∉ (path_Split p).2) ∧
  ((path_Split p).1 = [] ↔ "/"%char ∉ p).
Proof.
  induction p as [|a p (IH1 & IH2 & IH3)]; simpl.
  - split; [done|]. split; [by intros ?%elem_of_nil|].
    split; [intros _; by intros ?%elem_of_nil|done].
  - destruct (path_Split p) as [dir file]. simpl in *.
    destruct dir as [|d dir]; simpl.
    + simpl in IH1. subst file. case_decide as Ha.
      * subst a. simpl. split; [done|]. split; [by apply IH3|].
        split; [done|]. intros Hn. destruct Hn. by left.
      * simpl. split; [done|].
        split; [rewrite not_elem_of_cons; split; [done|by apply IH3]|].
        split; [intros _; rewrite not_elem_of_cons; split; [done|by apply IH3]
               |done].
    + split; [by rewrite <- IH1|]. split; [done|].
      split; [done|]. intros Hn.
      assert (d :: dir = []) as Hd; [|done].
      apply IH3. intros Hp. apply Hn. by right.
Qed.

(** X23: [isChangesFile] accepts the two paths CHANGES and CHANGES.md and
    no other: a file of one of these names in a directory is not
    accepted. *)
Theorem isChangesFile_spec (p : gostring) :
  (isChangesFile p = true ↔ p = go "CHANGES" ∨ p = go "CHANGES.md") ∧
  (∀ dir, isChangesFile (dir ++ "/"%char :: p) = false).
Proof.
  split.
  - unfold isChangesFile.
    destruct (path_Split_spec p) as (H1 & H2 & H3).
    destruct (path_Split p) as [dir name]. simpl in *.
    destruct dir as [|d dir]; simpl.
    + simpl in H1. subst p.
      rewrite orb_false_r, orb_true_iff, !bool_decide_eq_true. done.
    + split; [done|]. intros Hp.
      assert (d :: dir = []) as Hd; [|done].
      apply H3. destruct Hp as [-> | ->]; set_solver.
  - intros dir. unfold isChangesFile.
    destruct (path_Split_spec (dir ++ "/"%char :: p)) as (H1 & H2 & H3).
    destruct (path_Split (dir ++ "/"%char :: p)) as [d name]. simpl in *.
    destruct d as [|x d]; [|done]. exfalso. apply H3; [done|].
    apply elem_of_app. right. by left.
Qed.

(** ** Release branches with notes for a later version *)

Lemma notBefore_Major (a b : Version) : notBefore a b → (Major b ≤ Major a)%Z.
Proof.
  unfold notBefore, GreaterEqualTo, Compare.
  destruct (Z.ltb_spec (Major a) (Major b)); [done|lia].
Qed.

Lemma find_future (rel : Z) (l : List) :
  StronglySorted notBefore l →
  List.find (λ v, (Major v >? rel)%Z) l
  = match l with
    | v :: _ => if (Major v >? rel)%Z then Some v else None
    | [] => None
    end.
Proof.
  intros Hs. destruct Hs as [|v l Hs Hall]; [done|]. simpl.
  destruct (Z.gtb_spec (Major v) rel) as [|Hle]; [done|].
  induction Hall as [|w l Hw Hall IH]; [done|]. simpl.
  apply notBefore_Major in Hw.
  destruct (Z.gtb_spec (Major w) rel); [lia|].
  apply IH. by apply StronglySorted_inv in Hs as [? _].
Qed.

(** X24: the problems that [validate] finds for a release branch are those
    of [Validate] on its document and at most one more, for notes of a
    later major version than that of the branch.  This problem is found
    exactly when the most recent version of the document has a later major
    version, and it names that version. *)
Theorem validateBranch_future (r : repo) (st : validation) (key : gostring)
    (b : branch) (rel : Z) :
  releaseVersion b = Some rel →
  ∃ b', v_branches (validateBranch r st (key, b)) !! key = Some b' ∧
        problems b'
        = problems b
          ++ (ChangesProblem
                <$> Validate (b_changes b) (bool_decide (mainBranch r = Some key)))
          ++ match Versions (b_changes b) with
             | v :: _ => if (Major v >? rel)%Z then [FutureVersion rel v] else []
             | [] => []
             end.
Proof.
  intros Hrel. unfold validateBranch.
  destruct (collectMissing _ _ _ _) as [[mb mt] mr]. simpl.
  rewrite lookup_insert_eq. eexists. split; [done|]. simpl.
  rewrite Hrel. do 2 f_equal.
  rewrite find_future by apply Sort_sorted.
  destruct (Versions (b_changes b)) as [|v l]; [done|].
  by destruct (Major v >? rel)%Z.
Qed.

(** ** Creating the planned artifacts *)

Lemma createPlanned_spec {E} (create : Hash → Version → option E)
    (plan : list (Version * Hash)) (missing : Set_) (n : Z) (es : list E) :
  let '(missing', n', es') := createPlanned create plan (missing, n, es) in
  (∀ v, v ∈ missing' ↔
        v ∈ missing ∧ ∀ h, (v, h) ∈ plan → create h v ≠ None) ∧
  n' = (n + Z.of_nat (length (filter (λ vh, create vh.2 vh.1 = None) plan)))%Z ∧
  es' = es ++ omap (λ vh, create vh.2 vh.1) plan.
Proof.
  revert missing n es. unfold createPlanned.
  induction plan as [|[v h] plan IH]; intros missing n es.
  - simpl. split; [|split; [lia|by rewrite app_nil_r]].
    intros v. split; [|by intros [? _]]. intros Hv. split; [done|].
    by intros h ?%elem_of_nil.
  - rewrite filter_cons. simpl.
    destruct (create h v) as [e|] eqn:Hc.
    + specialize (IH missing n (es ++ [e])).
      destruct (foldl _ (missing, n, es ++ [e]) plan) as [[m' n'] es'].
      destruct IH as (Hm & Hn & He). split; [|split].
      * intros w. rewrite Hm. setoid_rewrite elem_of_cons.
        split; [|naive_solver]. intros [Hw Hall]. split; [done|].
        intros h' [[= -> ->]|?]; [by rewrite Hc|by apply Hall].
      * rewrite decide_False by done. done.
      * by rewrite He, <- app_assoc.
    + specialize (IH (Remove missing v) (n + 1)%Z es).
      destruct (foldl _ (Remove missing v, (n + 1)%Z, es) plan) as [[m' n'] es'].
      destruct IH as (Hm & Hn & He). split; [|split].
      * intros w. rewrite Hm. unfold Remove. setoid_rewrite elem_of_cons.
        split.
        -- intros [Hw Hall]. split; [set_solver|].
           intros h' [[= -> ->]|?]; [set_solver|by apply Hall].
        -- intros [Hw Hall]. split; [|naive_solver].
           apply elem_of_difference. split; [done|].
           intros ->%elem_of_singleton. by apply (Hall h); [left|].
      * rewrite decide_True by done. simpl. lia.
      * done.
Qed.

Section create_missing.

Variable gitShow : Hash → option gostring.

(** X25: the missing branches, or tags, of the repository after the scan
    and the creation of what was planned.  Every planned artifact either is
    created and counted or gives one error.  A version is still missing
    exactly when it was missing and either no commit of the log has a
    snapshot that is read, parses and declares it, or the creation of its
    artifact has failed. *)
Theorem createPlanned_remaining {E} (create : Hash → Version → option E)
    (r : repo) (log : list ChangeList) (tags : bool) :
  let plan := planOf tags (scanHistory gitShow r log) in
  let '(missing', numCreated, errs) :=
    createPlanned create plan (missingIn tags r, 0%Z, []) in
  (numCreated + Z.of_nat (length errs) = Z.of_nat (length plan))%Z ∧
  (0 ≤ numCreated)%Z ∧
  ∀ v, v ∈ missing' ↔
       v ∈ missingIn tags r ∧
       ((∀ cl, cl ∈ log → ¬ declaredAt gitShow cl v) ∨
        (∃ h, (v, h) ∈ plan ∧ create h v ≠ None)).
Proof.
  intros plan.
  pose proof (createPlanned_spec create plan (missingIn tags r) 0 []) as Hspec.
  destruct (createPlanned create plan (missingIn tags r, 0%Z, []))
    as [[missing' n] es].
  destruct Hspec as (Hm & Hn & He).
  destruct (scanHistory_plan gitShow r log tags) as (Hnd & Hpart & Hdisj & Hdecl).
  fold plan in Hnd, Hpart, Hdisj, Hdecl.
  split; [|split; [lia|]].
  - rewrite Hn, He. simpl. clear.
    induction plan as [|[v h] plan IH]; [done|].
    rewrite filter_cons. simpl.
    destruct (create h v); simpl in *; unfold omap in *; lia.
  - intros v. rewrite Hm. split.
    + intros [Hv Hall]. split; [done|].
      destruct (decide (v ∈ plan.*1)) as [Hin|Hnin].
      * right. apply list_elem_of_fmap in Hin as ([v' h] & -> & Hin).
        exists h. split; [done|]. by apply Hall.
      * left. apply (scanHistory_unresolved gitShow r log tags v).
        apply Hpart in Hv as [?|?]; done.
    + intros [Hv [Hnone|(h & Hin & Hfail)]]; (split; [done|]).
      * intros h Hin. exfalso.
        destruct (Hdecl v h Hin) as (cl & Hcl & _ & Hd).
        by apply (Hnone cl).
      * intros h' Hin'.
        assert (h' = h) as ->; [|done].
        clear -Hnd Hin Hin'. induction plan as [|[w g] plan IH]; [by apply elem_of_nil in Hin|].
        simpl in Hnd. apply NoDup_cons in Hnd as [Hw Hnd].
        apply elem_of_cons in Hin as [Hin|Hin], Hin' as [Hin'|Hin'].
        -- congruence.
        -- simplify_eq. destruct Hw. apply list_elem_of_fmap. by exists (w, h').
        -- simplify_eq. destruct Hw. apply list_elem_of_fmap. by exists (w, h).
        -- by apply IH.
Qed.

End create_missing.

(** ** The examples *)

Lemma validVersion_v2_2_1 : validVersion v2_2_1.
Proof. split; [done|]. split; [done|]. split; [done|]. constructor. Qed.

Lemma isDate_today_doc : isDate today_doc.
Proof. do 8 eexists. split; [reflexivity|]. by repeat constructor. Qed.

Lemma Parse_stable_witness :
  validVersion v2_2_1_dev ∧
  ∃ st, ParseStyle (go "2.2.1-dev") = Some st ∧
        Parse (Format st v2_2_1_dev) = inr v2_2_1_dev ∧
        ParseStyle (Format st v2_2_1_dev) = Some st.
Proof. apply (Parse_stable (go "2.2.1-dev") v2_2_1_dev). by vm_compute. Defined.

Lemma Read_headings_witness : StronglySorted line_lt (versions notes_content).
Proof.
  destruct (Read_headings notes_doc notes_content) as (_ & H & _);
    [by vm_compute|exact H].
Defined.

Lemma AdjustCurrentVersion_reread_witness :
  AdjustCurrentVersion notes_content v2_2_1 today_doc
  = Some ({| versions := [adjusted notes_top v2_2_1 today_doc; notes_next];
             lines := <[0 := version_String (adjusted notes_top v2_2_1 today_doc)]>
                        (lines notes_content) |}, true).
Proof.
  destruct (AdjustCurrentVersion_reread notes_doc notes_content v2_2_1
              today_doc notes_top [notes_next]) as [H _];
    [by vm_compute|by vm_compute|apply validVersion_v2_2_1
    |apply isDate_today_doc|exact H].
Defined.

Lemma AddNewVersion_top_witness :
  ∃ c', AddNewVersion notes_content v2_2_1_dev None notesStub = Some (c', None)
        ∧ CurrentVersion c' = v2_2_1_dev.
Proof.
  destruct (AddNewVersion_top notes_doc notes_content v2_2_1_dev None notesStub)
    as (c' & new & k & H1 & _ & _ & _ & H5 & _);
    [by vm_compute|apply validVersion_v2_2_1_dev|done|apply notesStub_lines
    |done|].
  by exists c'.
Defined.

Lemma doRelease_changes_wellFormed_witness :
  ∃ t1 t2, doRelease_changes notes_content v2_2_1 today_doc
           = Some (Released t1 t2).
Proof.
  destruct (doRelease_changes_wellFormed notes_doc notes_content v2_2_1
              today_doc) as (t1 & t2 & c1 & c2 & H & _);
    [by vm_compute|by vm_compute|apply validVersion_v2_2_1|by vm_compute
    |by vm_compute|apply isDate_today_doc|].
  by exists t1, t2.
Defined.

Lemma determineVersionStyle_Prefix_witness :
  prefixOK (Prefix (versionStyle (determineVersionStyle enum_list mixed_repo))).
Proof.
  destruct (determineVersionStyle_Prefix enum_list enum_list_perm mixed_repo)
    as (_ & H & _).
  exact H.
Defined.

Lemma validateBranch_future_witness :
  ∃ b', v_branches (validateBranch main_repo validation_start
                      (go "release-1.x.x", release_branch))
          !! go "release-1.x.x" = Some b'.
Proof.
  destruct (validateBranch_future main_repo validation_start
              (go "release-1.x.x") release_branch 1%Z) as (b' & H & _);
    [done|].
  by exists b'.
Defined.
